(** * MahjongAI: a shallow embedding of the rule engine and its agents

    The development follows the Python sources file by file:
    [tiles.py], [mahjong_logic.py], [game_state.py], [agent.py],
    [game_engine.py] and, of [interactive_game.py], the win check, the
    claims and melds of the computer players and the estimates shown to
    the person at seat 0.

    Conventions.
    - A Python [int] is a [Z]; list indices and seat numbers are [nat].
    - A Python [list] is a [list]; [l.remove(x)] is [list_remove], which
      fails (Python raises [ValueError]) when [x] does not occur.
    - A [Counter] is a [gmultiset]; a [dict] is a [gmap].
    - A Python [float] is the rational [Q] it stands for. The scores of
      [agent.py] are sums and products of small integers and of the
      constants 2.0, 1.5 and 1.0, which binary64 arithmetic computes
      without rounding. The quotient [remaining / total_unknown] of
      [calculate_tile_probabilities] is rounded: it is [float_div], the
      binary64 number nearest to the quotient, ties to even.
    - The single mutable [GameState] object shared by the engine and the
      agents is threaded explicitly; a Python exception is the [Raise]
      result of the error monad [res]. *)

From Stdlib Require Import ZArith QArith Qabs Lqa String Lia.
From stdpp Require Import base decidable countable list gmap gmultiset sorting.

Local Open Scope Z_scope.

(** ** tiles.py *)

Inductive TileType := WAN | TONG | TIAO.

(** [TileType.value]: the string attached to each enumeration member. *)
Definition TileType_value (ty : TileType) : string :=
  match ty with
  | WAN => "Wan"
  | TONG => "Tong"
  | TIAO => "Tiao"
  end%string.

Record Tile := mkTile { type : TileType; value : Z }.

Global Instance TileType_eq_dec : EqDecision TileType.
Proof. solve_decision. Defined.

Global Instance Tile_eq_dec : EqDecision Tile.
Proof. solve_decision. Defined.

Definition TileType_code (ty : TileType) : nat :=
  match ty with WAN => 0 | TONG => 1 | TIAO => 2 end%nat.

Definition TileType_decode (n : nat) : TileType :=
  match n with 0 => WAN | 1 => TONG | _ => TIAO end%nat.

Global Instance TileType_countable : Countable TileType.
Proof.
  apply (inj_countable' TileType_code TileType_decode).
  by intros [].
Defined.

Global Instance Tile_countable : Countable Tile.
Proof.
  apply (inj_countable' (λ t, (type t, value t)) (λ p, mkTile p.1 p.2)).
  by intros [].
Defined.

(** The suits in the order every loop of the sources enumerates them. *)
Definition suits : list TileType := [WAN; TONG; TIAO].

(** ** Python built-ins used by the sources *)

(** [l.remove(x)]: drop the first element equal to [x]; [None] stands for
    the [ValueError] raised when there is none. *)
Fixpoint list_remove `{EqDecision A} (x : A) (l : list A) : option (list A) :=
  match l with
  | [] => None
  | y :: l' => if decide (x = y) then Some l' else cons y <$> list_remove x l'
  end.

(** [sorted(l)] for a comparison [leb]: stable insertion sort. *)
Fixpoint sorted_insert {A} (leb : A → A → bool) (x : A) (l : list A) : list A :=
  match l with
  | [] => [x]
  | y :: l' => if leb x y then x :: y :: l' else y :: sorted_insert leb x l'
  end.

Definition sorted {A} (leb : A → A → bool) (l : list A) : list A :=
  foldr (sorted_insert leb) [] l.

(** The key [(t.type.value, t.value)] and the order of Python tuples on it:
    the suit names compare as strings, then the ranks as integers. *)
Definition tile_key (t : Tile) : string * Z := (TileType_value (type t), value t).

Definition key_leb (a b : string * Z) : bool :=
  match String.compare a.1 b.1 with
  | Lt => true
  | Eq => a.2 <=? b.2
  | Gt => false
  end.

Definition tile_leb (a b : Tile) : bool := key_leb (tile_key a) (tile_key b).

(** [sorted(tiles, key=lambda t: (t.type.value, t.value))] *)
Definition sorted_tiles (tiles : list Tile) : list Tile := sorted tile_leb tiles.

(** [Counter(tiles)] *)
Definition Counter (tiles : list Tile) : gmultiset Tile := list_to_set_disj tiles.


(** The integer nearest to [n / d] for [0 < d], the even one of the two
    when [n / d] lies halfway between them. *)
Definition round_half_even (n d : Z) : Z :=
  let q := n / d in
  let r := n mod d in
  if 2 * r <? d then q
  else if d <? 2 * r then q + 1
  else if Z.even q then q else q + 1.

(** [a / b] on two positive [int]s: with [2^e <= a / b < 2^(e+1)], the
    multiple of [2^(e-52)] nearest to the quotient, that is, the quotient
    rounded to the 53 significant bits of a binary64 number. (The
    exponent is not bounded: the quotients of the sources are far from
    overflow and underflow.) *)
Definition float_div_pos (a b : Z) : Q :=
  let e0 := Z.log2 a - Z.log2 b in
  let below := if 0 <=? e0 then a <? b * 2 ^ e0 else a * 2 ^ (- e0) <? b in
  let e := if below then e0 - 1 else e0 in
  let shift := 52 - e in
  if 0 <=? shift
  then Qmake (round_half_even (a * 2 ^ shift) b) (Z.to_pos (2 ^ shift))
  else inject_Z (round_half_even a (b * 2 ^ (- shift)) * 2 ^ (- shift)).

(** [a / b] on two [int]s, for [0 < b]: a [float]. *)
Definition float_div (a b : Z) : Q :=
  match a with
  | 0 => 0%Q
  | Zpos _ => float_div_pos a b
  | Zneg _ => (- float_div_pos (- a) b)%Q
  end.

(** ** mahjong_logic.py *)

Module MahjongLogic.

Definition is_valid_pair (tiles : list Tile) : bool :=
  match tiles with
  | [t0; t1] => bool_decide (type t0 = type t1) && bool_decide (value t0 = value t1)
  | _ => false
  end.

(** The test of the chow branch on the first three tiles: the ranks, among
    those three, of the tiles of the first tile's suit, sorted. *)
Definition chow_head (t0 t1 t2 : Tile) : bool :=
  let sorted_vals :=
    sorted Z.leb (value <$> filter (λ t, type t = type t0) [t0; t1; t2]) in
  match sorted_vals with
  | [v0; _; v2] => bool_decide (v2 - v0 = 2)
  | _ => false
  end.

Definition pung_head (t0 t1 t2 : Tile) : bool :=
  bool_decide (type t0 = type t1 ∧ type t1 = type t2)
  && bool_decide (value t0 = value t1 ∧ value t1 = value t2).

(** [can_form_melds]: the recursive calls are on [tiles[3:]]. Lists of
    one or two tiles are rejected by the length test. *)
Fixpoint can_form_melds (tiles : list Tile) : bool :=
  match tiles with
  | [] => true
  | t0 :: t1 :: t2 :: rest =>
      if negb (length tiles mod 3 =? 0)%nat then false
      else if pung_head t0 t1 t2 then can_form_melds rest
      else if chow_head t0 t1 t2 then can_form_melds rest
      else false
  | _ => false
  end.

Definition is_valid_meld (tiles : list Tile) : bool :=
  match tiles with
  | [t0; t1; t2] =>
      if forallb (λ t, bool_decide (type t = type t0) && bool_decide (value t = value t0)) tiles
      then true
      else if forallb (λ t, bool_decide (type t = type t0)) tiles
              && bool_decide (type t0 ∈ suits)
      then
        let values := sorted Z.leb (value <$> tiles) in
        let lo := foldr Z.min (value t0) values in
        bool_decide (values = seqZ lo 3)
      else false
  | _ => false
  end.

(** [is_winning_hand]: the loop over [i] in [range(len(sorted_tiles) - 1)]
    returns at the first adjacent pair whose removal leaves melds. *)
Definition pair_at (sorted_hand : list Tile) (i : nat) : bool :=
  match sorted_hand !! i, sorted_hand !! S i with
  | Some a, Some b =>
      is_valid_pair [a; b]
      && can_form_melds (take i sorted_hand ++ drop (i + 2) sorted_hand)
  | _, _ => false
  end.

Definition is_winning_hand (tiles : list Tile) : bool :=
  if negb (length tiles =? 14)%nat then false
  else
    let sorted_hand := sorted_tiles tiles in
    existsb (pair_at sorted_hand) (seq 0 (length sorted_hand - 1)).

(** [find_all_melds]: pungs first, one for every distinct tile held three
    times, then the chows of each suit by starting rank. The pungs are
    listed in the iteration order of a Python [set], which the language
    leaves unspecified; here it is the order of [elements]. *)
Definition find_all_melds (tiles : list Tile) : list (list Tile) :=
  let tile_counts := Counter tiles in
  let pungs :=
    (λ tile, replicate 3 tile)
      <$> filter (λ tile, (3 ≤ multiplicity tile tile_counts)%nat)
                 (elements (list_to_set tiles : gset Tile)) in
  let chows :=
    tile_type ← suits;
    start_value ← seqZ 1 7;
    let sequence := [mkTile tile_type start_value;
                     mkTile tile_type (start_value + 1);
                     mkTile tile_type (start_value + 2)] in
    if forallb (λ tile, bool_decide (0 < multiplicity tile tile_counts)%nat) sequence
    then [sequence] else [] in
  pungs ++ chows.

(** [evaluate_waiting_tiles]: the returned set, as the list of its members
    in the order the two loops add them (no tile is added twice). *)
Definition evaluate_waiting_tiles (hand : list Tile) : list Tile :=
  tile_type ← suits;
  value ← seqZ 1 9;
  let test_tile := mkTile tile_type value in
  let test_hand := hand ++ [test_tile] in
  if is_winning_hand test_hand then [test_tile] else [].

End MahjongLogic.

(** ** Exceptions *)

Inductive exn := ValueError | IndexError.

Inductive res (A : Type) :=
  | Ok (a : A)
  | Raise (e : exn).
Global Arguments Ok {A} a.
Global Arguments Raise {A} e.

Global Instance res_ret : MRet res := λ A a, Ok a.
Global Instance res_bind : MBind res := λ A B f m,
  match m with
  | Ok a => f a
  | Raise e => Raise e
  end.

(** [o] when it is there, the exception [e] otherwise. *)
Definition or_raise {A} (e : exn) (o : option A) : res A :=
  match o with
  | Some a => Ok a
  | None => Raise e
  end.

(** A [for x in l:] loop whose body threads the state [s] and may raise. *)
Fixpoint for_each {A S} (body : S → A → res S) (l : list A) (s : S) : res S :=
  match l with
  | [] => mret s
  | x :: l' => s ← body s x; for_each body l' s
  end.

(** ** game_state.py *)

Record PlayerState := mkPlayerState {
  hand : list Tile;
  revealed_melds : list (list Tile);
  discards : list Tile;
  is_waiting : bool
}.

Record GameState := mkGameState {
  wall_tiles : list Tile;
  players : list PlayerState;
  current_player : nat;
  last_discarded : option Tile;
  discarded_tiles : list Tile;
  game_ended : bool;
  total_tiles : Z
}.

Definition set_hand (h : list Tile) (p : PlayerState) : PlayerState :=
  mkPlayerState h (revealed_melds p) (discards p) (is_waiting p).
Definition set_revealed_melds (m : list (list Tile)) (p : PlayerState) : PlayerState :=
  mkPlayerState (hand p) m (discards p) (is_waiting p).
Definition set_discards (d : list Tile) (p : PlayerState) : PlayerState :=
  mkPlayerState (hand p) (revealed_melds p) d (is_waiting p).

Definition set_wall_tiles (w : list Tile) (gs : GameState) : GameState :=
  mkGameState w (players gs) (current_player gs) (last_discarded gs)
              (discarded_tiles gs) (game_ended gs) (total_tiles gs).
Definition set_players (ps : list PlayerState) (gs : GameState) : GameState :=
  mkGameState (wall_tiles gs) ps (current_player gs) (last_discarded gs)
              (discarded_tiles gs) (game_ended gs) (total_tiles gs).
Definition set_current_player (i : nat) (gs : GameState) : GameState :=
  mkGameState (wall_tiles gs) (players gs) i (last_discarded gs)
              (discarded_tiles gs) (game_ended gs) (total_tiles gs).
Definition set_last_discarded (t : option Tile) (gs : GameState) : GameState :=
  mkGameState (wall_tiles gs) (players gs) (current_player gs) t
              (discarded_tiles gs) (game_ended gs) (total_tiles gs).
Definition set_game_ended (b : bool) (gs : GameState) : GameState :=
  mkGameState (wall_tiles gs) (players gs) (current_player gs) (last_discarded gs)
              (discarded_tiles gs) b (total_tiles gs).

(** [self.players[i]]; an index past the end raises [IndexError]. *)
Definition player (i : nat) (gs : GameState) : res PlayerState :=
  or_raise IndexError (players gs !! i).

(** An in-place change of the object [self.players[i]]. *)
Definition update_player (i : nat) (f : PlayerState → PlayerState) (gs : GameState) : GameState :=
  set_players (alter f i (players gs)) gs.

Module GameState.

Definition PlayerState_init : PlayerState := mkPlayerState [] [] [] false.

(** The wall that [initialise_tiles] builds before it shuffles. *)
Definition fresh_wall : list Tile :=
  tile_type ← suits;
  value ← seqZ 1 9;
  replicate 4 (mkTile tile_type value).

(** [GameState()], given the order [random.shuffle] left the wall in;
    a shuffle can produce any permutation of [fresh_wall]. *)
Definition init (shuffled_wall : list Tile) : GameState :=
  mkGameState shuffled_wall (replicate 4 PlayerState_init) 0 None [] false (3 * 9 * 4).

(** [wall[a:b]] *)
Definition slice {A} (a b : nat) (l : list A) : list A := take (b - a) (drop a l).

Definition deal_hand (gs : GameState) (i : nat) : res GameState :=
  _ ← player i gs;
  mret (update_player i (set_hand (sorted_tiles (slice (i * 13) ((i + 1) * 13) (wall_tiles gs)))) gs).

Definition deal_initial_hands (gs : GameState) : res GameState :=
  gs ← for_each deal_hand (seq 0 4) gs;
  mret (set_wall_tiles (drop 52 (wall_tiles gs)) gs).

Definition draw_tile (player_idx : nat) (gs : GameState) : res (option Tile * GameState) :=
  match wall_tiles gs with
  | [] => mret (None, set_game_ended true gs)
  | tile :: wall =>
      let gs := set_wall_tiles wall gs in
      p ← player player_idx gs;
      mret (Some tile, update_player player_idx (set_hand (hand p ++ [tile])) gs)
  end.

End GameState.

(** The three statements that follow every choice of a discard in the
    sources: [hand.remove(discard)], [discards.append(discard)] and
    [last_discarded = discard], all on seat [player_idx]. *)
Definition commit_discard (player_idx : nat) (discard : Tile) (gs : GameState)
  : res GameState :=
  me ← player player_idx gs;
  removed ← or_raise ValueError (list_remove discard (hand me));
  let gs := update_player player_idx (set_hand removed) gs in
  let gs := update_player player_idx (λ p, set_discards (discards p ++ [discard]) p) gs in
  mret (set_last_discarded (Some discard) gs).

(** ** agent.py *)

(** [float("-inf")] or a finite score. *)
Inductive score :=
  | NegInf
  | Finite (q : Q).

(** [s > best] on floats. *)
Definition score_gt (s : Q) (best : score) : bool :=
  match best with
  | NegInf => true
  | Finite b => negb (Qle_bool s b)
  end.

(** The 27 tile identities in the order of the nested loops
    [for tile_type in [WAN, TONG, TIAO]: for value in range(1, 10)]. *)
Definition tile_identities : list Tile :=
  tile_type ← suits;
  value ← seqZ 1 9;
  [mkTile tile_type value].

Module MahjongAgent.

(** The [Counter] that [calculate_tile_probabilities] fills: the discards
    of every seat, then every revealed meld, then the agent's own hand. *)
Definition visible_tiles (player_idx : nat) (gs : GameState) : res (gmultiset Tile) :=
  let visible := foldl (λ acc p, acc ⊎ Counter (discards p)) ∅ (players gs) in
  let visible :=
    foldl (λ acc p, foldl (λ acc meld, acc ⊎ Counter meld) acc (revealed_melds p))
          visible (players gs) in
  me ← player player_idx gs;
  mret (visible ⊎ Counter (hand me)).

(** The value the last loop stores for [tile]. *)
Definition probability (visible_tiles : gmultiset Tile) (total_unknown : Z) (tile : Tile)
  : Q :=
  let visible_count := Z.of_nat (multiplicity tile visible_tiles) in
  let remaining := Z.max 0 (4 - visible_count) in
  if 0 <? total_unknown
  then float_div remaining total_unknown
  else 0%Q.

Definition calculate_tile_probabilities (player_idx : nat) (game_state : option GameState)
  : res (gmap Tile Q) :=
  match game_state with
  | None => mret ∅
  | Some gs =>
      visible ← visible_tiles player_idx gs;
      let total_unknown := 3 * 9 * 4 - Z.of_nat (size visible) in
      if total_unknown <=? 0 then
        mret (gset_to_gmap 0%Q (dom visible))
      else
        mret (foldl (λ probabilities tile,
                       <[tile := probability visible total_unknown tile]> probabilities)
                    ∅ tile_identities)
  end.

(** The local variables of [evaluate_hand] on a non-empty hand. *)
Record evaluation := mkEvaluation {
  meld_score : Z;
  pair_score : Z;
  sequence_potential : Z;
  terminal_score : Z;
  total_score : Q
}.

(** [hand_counter.values()]: one count per distinct tile of the hand. *)
Definition Counter_values (c : gmultiset Tile) : list nat :=
  (λ tile, multiplicity tile c) <$> elements (dom c).

(** The test [values[i + 1] - values[i] <= 2] of the inner loop. *)
Definition is_close (values : list Z) (i : nat) : bool :=
  match values !! i, values !! S i with
  | Some v, Some v' => bool_decide (v' - v ≤ 2)
  | _, _ => false
  end.

(** The inner loop over [i] in [range(len(values) - 1)]. *)
Definition close_neighbours (values : list Z) : Z :=
  Z.of_nat (length (filter (λ i, is_close values i = true) (seq 0 (length values - 1)))).

Definition evaluate (hand : list Tile) : evaluation :=
  let all_melds := MahjongLogic.find_all_melds hand in
  let meld_score := Z.of_nat (length all_melds) * 10 in
  let hand_counter := Counter hand in
  let pair_score :=
    foldr Z.add 0 ((λ _, 2) <$> filter (λ count, (2 ≤ count)%nat) (Counter_values hand_counter)) in
  let sequence_potential :=
    foldl (λ acc tile_type,
             let values := sorted Z.leb (value <$> filter (λ t, type t = tile_type) hand) in
             acc + close_neighbours values)
          0 suits in
  let terminal_score :=
    foldr Z.add 0 ((λ _, 1) <$> filter (λ t, value t ∈ [1; 9]) hand) in
  let total_score :=
    (inject_Z meld_score * 2 + inject_Z pair_score * (3 # 2)
     + inject_Z sequence_potential * 1)%Q in
  mkEvaluation meld_score pair_score sequence_potential terminal_score total_score.

Definition evaluate_hand (player_idx : nat) (game_state : option GameState) : res Q :=
  match game_state with
  | None => mret 0%Q
  | Some gs =>
      me ← player player_idx gs;
      match hand me with
      | [] => mret 0%Q
      | _ => mret (total_score (evaluate (hand me)))
      end
  end.

(** The loop [for tile in hand:] of [choose_discard]. The list iterator
    keeps a position [k] into the list object it walks, and the body
    changes that very object: each round reads [hand[k]], removes the
    first tile equal to it, scores the shortened hand through the game
    state, and appends the tile. The length is the same after every
    round, so [fuel] rounds, for the length of the hand, reach the end. *)
Fixpoint discard_loop (fuel : nat) (player_idx k : nat)
    (best_discard : option Tile) (best_score : score) (gs : GameState)
  : res (option Tile * GameState) :=
  match fuel with
  | O => mret (best_discard, gs)
  | S fuel =>
      me ← player player_idx gs;
      match hand me !! k with
      | None => mret (best_discard, gs)
      | Some tile =>
          removed ← or_raise ValueError (list_remove tile (hand me));
          let gs := update_player player_idx (set_hand removed) gs in
          s ← evaluate_hand player_idx (Some gs);
          let gs := update_player player_idx (set_hand (removed ++ [tile])) gs in
          if score_gt s best_score
          then discard_loop fuel player_idx (S k) (Some tile) (Finite s) gs
          else discard_loop fuel player_idx (S k) best_discard best_score gs
      end
  end.

Definition choose_discard (player_idx : nat) (game_state : option GameState)
  : res (option Tile * GameState) :=
  match game_state with
  | None => Raise ValueError
  | Some gs =>
      me ← player player_idx gs;
      match hand me with
      | [] => mret (None, gs)
      | _ =>
          discard_loop (length (hand me)) player_idx 0 None NegInf gs
      end
  end.

(** The body of the loop of [_calculate_efficiency_score] at index [i]:
    neighbours of one suit at most two ranks apart add three minus their
    distance. *)
Definition efficiency_step (sorted_hand : list Tile) (score : Z) (i : nat) : Z :=
  match sorted_hand !! i, sorted_hand !! S i with
  | Some current, Some next_tile =>
      if bool_decide (type current = type next_tile) then
        if bool_decide (Z.abs (value current - value next_tile) ≤ 2)
        then score + (3 - Z.abs (value current - value next_tile))
        else score
      else score
  | _, _ => score
  end.

(** [_calculate_efficiency_score]: the loop over [i] in
    [range(len(sorted_hand) - 1)], and the doubling of its sum. *)
Definition _calculate_efficiency_score (hand : list Tile) : Z :=
  let sorted_hand := sorted_tiles hand in
  let score := foldl (efficiency_step sorted_hand) 0 (seq 0 (length sorted_hand - 1)) in
  score * 2.

(** [_would_complete_meld]: the two nested loops over [i] and over [j] in
    [range(i + 1, len(hand))], which return at the first valid meld. *)
Definition _would_complete_meld (player_idx : nat) (game_state : option GameState)
    (tile : Tile) : res bool :=
  match game_state with
  | None => mret false
  | Some gs =>
      me ← player player_idx gs;
      let hand := hand me in
      mret (existsb (λ i,
                       existsb (λ j,
                                  match hand !! i, hand !! j with
                                  | Some a, Some b => MahjongLogic.is_valid_meld [a; b; tile]
                                  | _, _ => false
                                  end)
                               (seq (i + 1) (length hand - (i + 1))))
                    (seq 0 (length hand)))
  end.

End MahjongAgent.

(** ** game_engine.py *)

Module MahjongGame.

(** [_can_claim_tile]: two tiles of the hand match the discard. *)
Definition _can_claim_tile (player_idx : nat) (tile : Tile) (gs : GameState) : res bool :=
  p ← player player_idx gs;
  let matching_tiles :=
    filter (λ t, type t = type tile ∧ value t = value tile) (hand p) in
  mret (bool_decide (2 ≤ length matching_tiles)%nat).

(** The body of the loop of [_get_winner]: seat [i] becomes the winner
    when its [evaluate_hand] is strictly above the best score so far. *)
Definition winner_step (gs : GameState) : score * Z → nat → res (score * Z) :=
  λ '(best_score, winner) i,
    s ← MahjongAgent.evaluate_hand i (Some gs);
    if score_gt s best_score
    then mret (Finite s, Z.of_nat i)
    else mret (best_score, winner).

(** [_get_winner]: the loop over the four agents, from a best score of
    minus infinity and the winner -1. *)
Definition _get_winner (gs : GameState) : res Z :=
  '(_, winner) ← for_each (winner_step gs) (seq 0 4) (NegInf, -1);
  mret winner.

(** The first loop after a discard: the lowest seat other than the
    discarder that wins with the discard added to its hand. *)
Fixpoint discard_winner (seats : list nat) (current_player : nat) (discard : Tile)
    (gs : GameState) : res (option nat) :=
  match seats with
  | [] => mret None
  | i :: seats =>
      if decide (i ≠ current_player) then
        p ← player i gs;
        let test_hand := hand p ++ [discard] in
        if MahjongLogic.is_winning_hand test_hand then mret (Some i)
        else discard_winner seats current_player discard gs
      else discard_winner seats current_player discard gs
  end.

(** The second loop after a discard, with its [break]: the seat that
    claims, if any. *)
Fixpoint claimant (seats : list nat) (current_player : nat) (discard : Tile)
    (gs : GameState) : res (option nat) :=
  match seats with
  | [] => mret None
  | i :: seats =>
      if decide (i ≠ current_player) then
        c ← _can_claim_tile i discard gs;
        if (c : bool) then mret (Some i)
        else claimant seats current_player discard gs
      else claimant seats current_player discard gs
  end.

(** From the claim loop to the end of the loop body: who plays next. *)
Definition resolve_claim (current_player : nat) (discard : Tile) (gs : GameState)
  : res GameState :=
  claimed ← claimant (seq 0 4) current_player discard gs;
  match claimed with
  | Some i => mret (set_current_player i gs)
  | None => mret (set_current_player ((current_player + 1) mod 4) gs)
  end.

(** Where the body of the [while] loop can stand after the discard is
    on the pile, or how it left before. *)
Inductive discard_phase :=
  | WallEmpty (gs : GameState)
  | SelfDraw (winner : nat)
  | NoDiscard (gs : GameState)
  | Discarded (current_player : nat) (discard : Tile) (gs : GameState).

(** The loop body from the draw to "Process discard". *)
Definition draw_and_discard (gs : GameState) : res discard_phase :=
  let current_player := current_player gs in
  '(drawn_tile, gs) ← GameState.draw_tile current_player gs;
  match drawn_tile with
  | None => mret (WallEmpty gs)
  | Some _ =>
      me ← player current_player gs;
      if MahjongLogic.is_winning_hand (hand me) then mret (SelfDraw current_player)
      else
        '(discard, gs) ← MahjongAgent.choose_discard current_player (Some gs);
        match discard with
        | None => mret (NoDiscard gs)
        | Some discard =>
            gs ← commit_discard current_player discard gs;
            mret (Discarded current_player discard gs)
        end
  end.

(** How one round of the [while] loop ends. *)
Inductive turn :=
  | Return (winner : Z)
  | Break (gs : GameState)
  | Continue (gs : GameState).

Definition take_turn (gs : GameState) : res turn :=
  phase ← draw_and_discard gs;
  match phase with
  | WallEmpty gs => mret (Break gs)
  | SelfDraw winner => mret (Return (Z.of_nat winner))
  | NoDiscard gs => mret (Break gs)
  | Discarded current_player discard gs =>
      won ← discard_winner (seq 0 4) current_player discard gs;
      match won with
      | Some i => mret (Return (Z.of_nat i))
      | None => gs ← resolve_claim current_player discard gs; mret (Continue gs)
      end
  end.

(** [n] rounds of the loop body, stopping early at a [return] or a
    [break]. *)
Fixpoint after_turns (n : nat) (gs : GameState) : res turn :=
  match n with
  | O => mret (Continue gs)
  | S n =>
      t ← take_turn gs;
      match t with
      | Continue gs => after_turns n gs
      | _ => mret t
      end
  end.

Definition max_turns : nat := 100.

(** The [while] loop; [turns_left] is [max_turns - turn_count]. *)
Fixpoint game_loop (turns_left : nat) (gs : GameState) : res Z :=
  match turns_left with
  | O => _get_winner gs
  | S turns_left =>
      if game_ended gs then _get_winner gs
      else
        t ← take_turn gs;
        match t with
        | Return winner => mret winner
        | Break gs => _get_winner gs
        | Continue gs => game_loop turns_left gs
        end
  end.

(** [play_game]: any exception is caught and reported as -1. *)
Definition play_game (gs : GameState) : Z :=
  match gs ← GameState.deal_initial_hands gs; game_loop max_turns gs with
  | Ok winner => winner
  | Raise _ => -1
  end.

End MahjongGame.

(** ** interactive_game.py: the claims of the computer seats *)

Module InteractiveMahjongGame.

(** [set(range(start, start + 3)) - {tile_value}] *)
Definition needed (start tile_value : Z) : list Z :=
  filter (λ v, v ≠ tile_value) (seqZ start 3).

(** [range(tile_value - 2, tile_value + 1)], filtered by
    [start >= 1 and start + 2 <= 9]. *)
Definition chow_starts (tile_value : Z) : list Z :=
  filter (λ start, 1 ≤ start ∧ start + 2 ≤ 9) (seqZ (tile_value - 2) 3).

Definition _ai_can_claim (player_idx : nat) (tile : Tile) (gs : GameState) : res bool :=
  p ← player player_idx gs;
  let matching := filter (λ t, type t = type tile ∧ value t = value tile) (hand p) in
  if bool_decide (2 ≤ length matching)%nat then mret true
  else if bool_decide ((Z.of_nat player_idx - Z.of_nat (current_player gs)) mod 4 = 1)
          && bool_decide (type tile ∈ suits)
  then
    let type_tiles := filter (λ t, type t = type tile) (hand p) in
    mret (existsb (λ start,
                     forallb (λ v, existsb (λ t, bool_decide (value t = v)) type_tiles)
                             (needed start (value tile)))
                  (chow_starts (value tile)))
  else mret false.

(** [for t in tiles: hand.remove(t)] *)
Definition remove_all (tiles : list Tile) (h : list Tile) : res (list Tile) :=
  for_each (λ h t, or_raise ValueError (list_remove t h)) tiles h.

(** The chow loop of [_handle_ai_claim] with its [break]: the two tiles
    of the first starting rank that finds exactly two. *)
Definition chow_tiles (tile : Tile) (h : list Tile) : option (list Tile) :=
  let type_tiles := filter (λ t, type t = type tile) h in
  head (filter (λ sequence_tiles, length sequence_tiles = 2%nat)
               ((λ start, filter (λ t, value t ∈ needed start (value tile)) type_tiles)
                  <$> chow_starts (value tile))).

(** [self.ai_players[player_idx - 1]], as the seat that agent plays:
    the list holds the agents of seats 1, 2 and 3, and index -1 is its
    last entry. *)
Definition ai_player (player_idx : nat) : res nat :=
  match player_idx with
  | 0 => mret 3
  | 1 | 2 | 3 => mret player_idx
  | _ => Raise IndexError
  end%nat.

(** The first half of [_handle_ai_claim]: the meld, if one is formed. *)
Definition form_claimed_meld (player_idx : nat) (tile : Tile) (gs : GameState)
  : res (bool * GameState) :=
  p ← player player_idx gs;
  let matching := filter (λ t, type t = type tile ∧ value t = value tile) (hand p) in
  if bool_decide (2 ≤ length matching)%nat then
    h ← remove_all (take 2 matching) (hand p);
    let meld := take 2 matching ++ [tile] in
    mret (true, update_player player_idx
                  (λ p, set_revealed_melds (revealed_melds p ++ [meld]) (set_hand h p)) gs)
  else if bool_decide (type tile ∈ suits) then
    match chow_tiles tile (hand p) with
    | Some sequence_tiles =>
        h ← remove_all sequence_tiles (hand p);
        let meld := sorted (λ a b, value a <=? value b) (tile :: sequence_tiles) in
        mret (true, update_player player_idx
                      (λ p, set_revealed_melds (revealed_melds p ++ [meld]) (set_hand h p)) gs)
    | None => mret (false, gs)
    end
  else mret (false, gs).

Definition _handle_ai_claim (player_idx : nat) (tile : Tile) (gs : GameState)
  : res (bool * GameState) :=
  '(claim_made, gs) ← form_claimed_meld player_idx tile gs;
  if (claim_made : bool) then
    ai_agent ← ai_player player_idx;
    '(discard, gs) ← MahjongAgent.choose_discard ai_agent (Some gs);
    gs ← match discard with
         | Some discard => commit_discard player_idx discard gs
         | None => mret gs
         end;
    mret (true, set_current_player player_idx gs)
  else mret (false, gs).

(** [find_all_possible_melds]: two [if]s in a row, each of which may add
    a meld and the melds of [tiles[3:]]. *)
Fixpoint find_all_possible_melds (tiles : list Tile) : list (list Tile) :=
  match tiles with
  | t0 :: t1 :: t2 :: rest =>
      let melds :=
        if bool_decide (t0 = t1 ∧ t1 = t2)
        then [t0; t1; t2] :: find_all_possible_melds rest
        else [] in
      if bool_decide (type t0 ∈ suits) && MahjongLogic.chow_head t0 t1 t2 then
        let chow := filter (λ t, type t = type t0) [t0; t1; t2] in
        melds ++ sorted (λ a b, value a <=? value b) chow :: find_all_possible_melds rest
      else melds
  | _ => []
  end.

(** The body of the loop of [check_win] for one tile of [set(sorted_hand)];
    [has_valid_hand] set stands for the [break]. *)
Definition check_pair (sorted_hand : list Tile) (has_valid_hand : bool) (tile : Tile)
  : res bool :=
  if has_valid_hand then mret true
  else if bool_decide (2 ≤ multiplicity tile (Counter sorted_hand))%nat then
    test_hand ← remove_all [tile; tile] sorted_hand;
    let remaining_melds := find_all_possible_melds test_hand in
    mret (bool_decide (length remaining_melds * 3 = length test_hand)%nat)
  else mret false.

(** [check_win]; the tiles of [set(sorted_hand)] come in the order of
    [elements] (the loop only looks for one that passes). *)
Definition check_win (player_idx : nat) (gs : GameState) : res bool :=
  p ← player player_idx gs;
  let sorted_hand := sorted_tiles (hand p) in
  has_valid_hand ←
    for_each (check_pair sorted_hand) (elements (list_to_set sorted_hand : gset Tile)) false;
  let revealed_tiles := sum_list_with length (revealed_melds p) in
  mret (has_valid_hand && bool_decide (14 ≤ length sorted_hand + revealed_tiles)%nat).

(** [get_visible_tiles]: all discards, then all revealed melds, then the
    hand of seat 0. *)
Definition get_visible_tiles (gs : GameState) : res (list Tile) :=
  let visible_tiles := foldl (λ acc p, acc ++ discards p) [] (players gs) in
  let visible_tiles :=
    foldl (λ acc p, foldl (λ acc meld, acc ++ meld) acc (revealed_melds p))
          visible_tiles (players gs) in
  human ← player 0 gs;
  mret (visible_tiles ++ hand human).

(** [next((t for t in type_tiles if t.value == value), None)] *)
Definition first_with_value (v : Z) (type_tiles : list Tile) : option Tile :=
  head (filter (λ t, value t = v) type_tiles).

(** The chow loop of [_try_form_meld_ai] up to its [return]: the tiles
    found for the first starting rank that finds two. The loop over
    [needed_values] walks a Python [set] of two ranks; the two tiles it
    finds differ, so neither the hand left by the two [remove]s nor the
    sorted meld depends on which comes first. *)
Definition try_chow_tiles (new_tile : Tile) (h : list Tile) : option (list Tile) :=
  let type_tiles := filter (λ t, type t = type new_tile) h in
  let tile_value := value new_tile in
  let lo := Z.max 1 (tile_value - 2) in
  let hi := Z.min 8 (tile_value + 1) in
  head (filter (λ sequence_tiles, length sequence_tiles = 2%nat)
               ((λ start_value,
                   omap (λ v, first_with_value v type_tiles) (needed start_value tile_value))
                  <$> filter (λ start_value, tile_value ∈ seqZ start_value 3)
                             (seqZ lo (hi - lo)))).

(** "Must discard after forming meld": the agent of the seat chooses, and
    the tile leaves the hand of seat [player_idx]. *)
Definition discard_after_meld (player_idx : nat) (gs : GameState) : res GameState :=
  ai_agent ← ai_player player_idx;
  '(discard, gs) ← MahjongAgent.choose_discard ai_agent (Some gs);
  match discard with
  | Some discard => commit_discard player_idx discard gs
  | None => mret gs
  end.

(** [_try_form_meld_ai], called after the draw: [new_tile] is in the hand. *)
Definition _try_form_meld_ai (player_idx : nat) (new_tile : Tile) (gs : GameState)
  : res (bool * GameState) :=
  p ← player player_idx gs;
  let matching :=
    filter (λ t, type t = type new_tile ∧ value t = value new_tile) (hand p) in
  if bool_decide (2 ≤ length matching)%nat then
    h ← remove_all (take 2 matching) (hand p);
    let meld := take 2 matching ++ [new_tile] in
    let gs := update_player player_idx
                (λ p, set_revealed_melds (revealed_melds p ++ [meld]) (set_hand h p)) gs in
    gs ← discard_after_meld player_idx gs;
    mret (true, gs)
  else if bool_decide (type new_tile ∈ suits) then
    match try_chow_tiles new_tile (hand p) with
    | Some sequence_tiles =>
        h ← remove_all sequence_tiles (hand p);
        let meld := sorted (λ a b, value a <=? value b) (new_tile :: sequence_tiles) in
        let gs := update_player player_idx
                    (λ p, set_revealed_melds (revealed_melds p ++ [meld]) (set_hand h p)) gs in
        gs ← discard_after_meld player_idx gs;
        mret (true, gs)
    | None => mret (false, gs)
    end
  else mret (false, gs).

(** [_estimate_waiting_tiles]: for every revealed meld of three tiles
    whose highest and lowest ranks differ by two, the tile below and the
    tile above, within the ranks 1 to 9. *)
Definition _estimate_waiting_tiles (player_state : PlayerState) : gset Tile :=
  foldl (λ (waiting : gset Tile) meld,
           match meld with
           | [t0; _; _] =>
               let tile_type := type t0 in
               match sorted Z.leb (value <$> meld) with
               | [v0; _; v2] =>
                   if bool_decide (v2 - v0 = 2) then
                     let waiting :=
                       if bool_decide (1 < v0)
                       then waiting ∪ {[ mkTile tile_type (v0 - 1) ]}
                       else waiting in
                     if bool_decide (v2 < 9)
                     then waiting ∪ {[ mkTile tile_type (v2 + 1) ]}
                     else waiting
                   else waiting
               | _ => waiting
               end
           | _ => waiting
           end)
        ∅ (revealed_melds player_state).

(** [_calculate_danger_level]: the seats 1 to 3 that are taken to wait
    for the tile. *)
Definition _calculate_danger_level (tile : Tile) (gs : GameState) : res Z :=
  for_each (λ danger player_idx,
              player_state ← player player_idx gs;
              let waiting_tiles := _estimate_waiting_tiles player_state in
              if bool_decide (tile ∈ waiting_tiles) then mret (danger + 1) else mret danger)
           (seq 1 3) 0.

(** The dictionary that [can_claim_tile] returns. *)
Record claims := mkClaims { pung : bool; chow : bool }.

(** [can_claim_tile]: the claims open to the person at seat 0. *)
Definition can_claim_tile (tile : Tile) (gs : GameState) : res claims :=
  p ← player 0 gs;
  let matching := filter (λ t, type t = type tile ∧ value t = value tile) (hand p) in
  let pung := bool_decide (2 ≤ length matching)%nat in
  let chow :=
    if bool_decide (current_player gs = 3%nat) && bool_decide (type tile ∈ suits) then
      let values := value <$> filter (λ t, type t = type tile) (hand p) in
      existsb (λ start, forallb (λ v, bool_decide (v ∈ values)) (needed start (value tile)))
              (chow_starts (value tile))
    else false in
  mret (mkClaims pung chow).


End InteractiveMahjongGame.

(** ** The tile count of the conservation law *)

(** |wall| + the hands + 3 times the revealed melds + the discard piles *)
Definition tile_total (gs : GameState) : nat :=
  (length (wall_tiles gs)
   + sum_list_with (λ p, length (hand p)) (players gs)
   + 3 * sum_list_with (λ p, length (revealed_melds p)) (players gs)
   + sum_list_with (λ p, length (discards p)) (players gs))%nat.

(** Every tile a seat holds, in hand, on its discard pile or in a meld. *)
Definition player_tiles (p : PlayerState) : list Tile :=
  hand p ++ discards p ++ concat (revealed_melds p).

(** Every tile of the game. *)
Definition all_tiles (gs : GameState) : list Tile :=
  wall_tiles gs ++ (players gs ≫= player_tiles).

(** ** The states of a game of [MahjongGame.play_game] *)

(** The states at the head of the [while] loop: the deal of a shuffled
    wall, and the state after every round that goes on. *)
Inductive reachable : GameState → Prop :=
  | reachable_deal shuffled_wall gs :
      shuffled_wall ≡ₚ GameState.fresh_wall →
      GameState.deal_initial_hands (GameState.init shuffled_wall) = Ok gs →
      reachable gs
  | reachable_turn gs gs' :
      reachable gs →
      game_ended gs = false →
      MahjongGame.take_turn gs = Ok (MahjongGame.Continue gs') →
      reachable gs'.

(** What every such state satisfies: four seats, the tiles of the fresh
    wall, and no revealed meld (the engine never forms one). *)
Record engine_invariant (gs : GameState) : Prop := {
  inv_players : length (players gs) = 4%nat;
  inv_tiles : Counter (all_tiles gs) = Counter GameState.fresh_wall;
  inv_melds : Forall (λ p, revealed_melds p = []) (players gs)
}.

(** What holds each time the [while] loop of [play_game] starts a round:
    the tiles of the game, a seat to play, thirteen tiles in every hand,
    and the game not ended. *)
Record round_invariant (gs : GameState) : Prop := {
  round_engine : engine_invariant gs;
  round_seat : (current_player gs < 4)%nat;
  round_hands : Forall (λ p, length (hand p) = 13%nat) (players gs);
  round_going : game_ended gs = false
}.

(** The score [_get_winner] reads for a seat. *)
Definition seat_score (i : nat) (gs : GameState) : Q :=
  match MahjongAgent.evaluate_hand i (Some gs) with
  | Ok q => q
  | Raise _ => 0%Q
  end.

(** Seat [w] has the best hand of the seats below [k], and is the first
    of them to have it. *)
Definition first_best_hand (k w : nat) (gs : GameState) : Prop :=
  (w < k)%nat
  ∧ (∀ i, (i < k)%nat → (seat_score i gs <= seat_score w gs)%Q)
  ∧ (∀ i, (i < w)%nat → (seat_score i gs < seat_score w gs)%Q).

(** ** Claim resolution, in the words of the specification *)

(** A claim is possible for a seat when [_can_claim_tile] says so. *)
Definition claim_possible (i : nat) (discard : Tile) (gs : GameState) : bool :=
  match MahjongGame._can_claim_tile i discard gs with
  | Ok c => c
  | Raise _ => false
  end.

(** The first seat of a scan for which [c] holds. *)
Definition first_of (c : nat → bool) (scan : list nat) : option nat :=
  head (filter (λ i, c i = true) scan).



(** ** A shuffled wall for the examples *)

(** The fresh wall taken with a stride (a permutation when the stride and
    108 are coprime). *)
Definition strided (stride : nat) : list Tile :=
  (λ i, default (mkTile WAN 0) (GameState.fresh_wall !! ((i * stride) mod 108)%nat))
    <$> seq 0 108.

Definition strided_wall : list Tile := strided 7.

(** The game that [strided_wall] deals. *)
Definition strided_deal : GameState :=
  match GameState.deal_initial_hands (GameState.init strided_wall) with
  | Ok gs => gs
  | Raise _ => GameState.init strided_wall
  end.

(** The first state in which the engine calls [choose_discard]: seat 0
    has drawn from the wall that [strided_wall] dealt. *)
Definition first_draw : GameState :=
  match GameState.draw_tile 0 strided_deal with
  | Ok (_, gs) => gs
  | Raise _ => strided_deal
  end.

(** Seat 0 in that state. *)
Definition first_drawer : PlayerState :=
  default GameState.PlayerState_init (players first_draw !! 0%nat).

(** ** A claim in the interactive game *)

(** The tiles one seat adds to [tile_total]. *)
Definition player_count (p : PlayerState) : nat :=
  (length (hand p) + 3 * length (revealed_melds p) + length (discards p))%nat.

(** The first turns of the interactive game on the wall [strided 5], up to
    the discard of seat 1. The person at seat 0 draws 3-Tong and discards
    it ([handle_human_turn], [process_player_action]); the loop of
    [play_game] makes seat 1 the current player; seat 1 draws 4-Tong
    ([handle_ai_turn]), with which it holds no pair and no run, and its
    agent chooses the discard. *)
Definition claim_scene : res (Tile * GameState) :=
  gs ← GameState.deal_initial_hands (GameState.init (strided 5));
  '(drawn, gs) ← GameState.draw_tile 0 gs;
  drawn ← or_raise ValueError drawn;
  gs ← commit_discard 0 drawn gs;
  let gs := set_current_player 1 gs in
  '(_, gs) ← GameState.draw_tile 1 gs;
  '(discard, gs) ← MahjongAgent.choose_discard 1 (Some gs);
  discard ← or_raise ValueError discard;
  gs ← commit_discard 1 discard gs;
  mret (discard, gs).

(** ** The terms of the probability estimate, in the words of the
    specification *)

(** remaining = max(0, 4 - visible_count) *)
Definition remaining (visible : gmultiset Tile) (t : Tile) : Z :=
  Z.max 0 (4 - Z.of_nat (multiplicity t visible)).

(** total_unknown = 108 - the sum of the visible counts *)
Definition total_unknown (visible : gmultiset Tile) : Z :=
  108 - Z.of_nat (size visible).

(** ** The terms of the hand-strength formula, in the words of the
    specification *)

Module HandScore.

(** The copies of one tile identity in a hand. *)
Definition copies (t : Tile) (tiles : list Tile) : nat := length (filter (t =.) tiles).

(** M: the melds that [find_all_melds] reports, overlapping ones included. *)
Definition melds (tiles : list Tile) : Z :=
  Z.of_nat (length (MahjongLogic.find_all_melds tiles)).

(** P: the distinct tile identities that occur at least twice. *)
Definition pairs (tiles : list Tile) : Z :=
  Z.of_nat (length (filter (λ t, (2 ≤ copies t tiles)%nat) (remove_dups tiles))).

(** The neighbours, in a list of ranks, that are at most two apart. *)
Fixpoint near_neighbours (ranks : list Z) : nat :=
  match ranks with
  | r :: (r' :: _) as rest =>
      ((if decide (r' - r ≤ 2)%Z then 1 else 0) + near_neighbours rest)%nat
  | _ => 0%nat
  end.

(** The sorted ranks of one suit. *)
Definition suit_ranks (suit : TileType) (tiles : list Tile) : list Z :=
  sorted Z.leb (value <$> filter (λ t, type t = suit) tiles).

(** S: the near neighbours of every suit's sorted ranks. *)
Definition links (tiles : list Tile) : Z :=
  Z.of_nat (sum_list_with (λ suit, near_neighbours (suit_ranks suit tiles)) suits).

(** The tiles of rank 1 or 9. *)
Definition terminals (tiles : list Tile) : Z :=
  Z.of_nat (length (filter (λ t, value t = 1 ∨ value t = 9) tiles)).

End HandScore.

(** Tiles named as in the display format, for examples. *)
Definition Wan (v : Z) : Tile := mkTile WAN v.
Definition Tong (v : Z) : Tile := mkTile TONG v.
Definition Tiao (v : Z) : Tile := mkTile TIAO v.


(** * Properties *)

(** ** [list.remove] *)

Section list_remove.
Context `{EqDecision A}.
Implicit Types (x : A) (l : list A).

Lemma list_remove_perm x l l' : list_remove x l = Some l' → l ≡ₚ x :: l'.
Proof.
  revert l'. induction l as [|y l IH]; intros l' Hrm; simpl in Hrm; [done|].
  destruct (decide (x = y)) as [->|Hne]; [by inversion Hrm|].
  destruct (list_remove x l) as [k|] eqn:Hk; simpl in Hrm; [|done].
  inversion Hrm; subst l'. rewrite (IH k eq_refl). apply Permutation_swap.
Qed.

Lemma list_remove_elem_of x l : x ∈ l → is_Some (list_remove x l).
Proof.
  induction l as [|y l IH]; intros Hin; [by apply elem_of_nil in Hin|].
  simpl. destruct (decide (x = y)) as [->|Hne]; [by eexists|].
  apply elem_of_cons in Hin as [?|Hin]; [done|].
  destruct (IH Hin) as [k ->]. by eexists.
Qed.

Lemma list_remove_length x l l' : list_remove x l = Some l' → length l = S (length l').
Proof. intros Hrm. by rewrite (list_remove_perm _ _ _ Hrm). Qed.

Lemma list_remove_None x l : list_remove x l = None → x ∉ l.
Proof.
  intros Hrm Hin. destruct (list_remove_elem_of _ _ Hin) as [k Hk]. congruence.
Qed.
End list_remove.

(** ** The rules of [mahjong_logic.py] *)

Section logic.
Import MahjongLogic.

Lemma bind_all_nil {A B} (f : A → list B) (l : list A) :
  (∀ x, f x = []) → l ≫= f = [].
Proof. intros Hf. induction l as [|x l IH]; [done|]. by rewrite bind_cons, Hf, IH. Qed.

(** C9. [is_winning_hand] answers [False] on every list that does not
    have exactly 14 tiles (it is a total function: nothing is raised),
    and so [evaluate_waiting_tiles] finds nothing for a hand that does
    not have exactly 13 tiles. *)
Theorem is_winning_hand_length_guard (tiles hand : list Tile) :
  (length tiles ≠ 14%nat → is_winning_hand tiles = false)
  ∧ (length hand ≠ 13%nat → evaluate_waiting_tiles hand = []).
Proof.
  assert (Hguard : ∀ l, length l ≠ 14%nat → is_winning_hand l = false).
  { intros l Hlen. unfold is_winning_hand.
    destruct (length l =? 14)%nat eqn:E; [|done].
    by apply Nat.eqb_eq in E. }
  split; [apply Hguard|]. intros Hlen.
  unfold evaluate_waiting_tiles.
  apply bind_all_nil; intros tile_type. apply bind_all_nil; intros v.
  rewrite Hguard; [done|]. rewrite length_app. simpl. lia.
Qed.

Lemma is_winning_hand_length_guard_witness :
  is_winning_hand (replicate 15 (Wan 1)) = false
  ∧ evaluate_waiting_tiles [Wan 1; Wan 1; Wan 2; Wan 3] = [].
Proof.
  destruct (is_winning_hand_length_guard
              (replicate 15 (Wan 1)) [Wan 1; Wan 1; Wan 2; Wan 3]) as [H1 H2].
  split; [apply H1|apply H2]; simpl; lia.
Defined.

(** What the chow branch of [can_form_melds] accepts: three tiles of one
    suit whose highest and lowest ranks differ by two. *)
Lemma chow_head_spec (t0 t1 t2 : Tile) :
  chow_head t0 t1 t2 = true
  ↔ type t1 = type t0 ∧ type t2 = type t0
    ∧ Z.max (value t0) (Z.max (value t1) (value t2))
      - Z.min (value t0) (Z.min (value t1) (value t2)) = 2.
Proof.
  unfold chow_head.
  rewrite filter_cons_True by done.
  destruct (decide (type t1 = type t0)) as [E1|E1];
    destruct (decide (type t2 = type t0)) as [E2|E2];
    repeat (first [rewrite (filter_cons_True _ t1) by done
                  |rewrite (filter_cons_False _ t1) by done
                  |rewrite (filter_cons_True _ t2) by done
                  |rewrite (filter_cons_False _ t2) by done]);
    rewrite ?filter_nil; cbn [fmap list_fmap sorted foldr sorted_insert].
  - repeat match goal with
           | |- context [Z.leb ?a ?b] => destruct (Z.leb_spec a b); cbn [sorted_insert]
           end;
      rewrite bool_decide_eq_true;
      (split; [intros ?; repeat split; try done; lia|intros (_ & _ & ?); lia]).
  - repeat match goal with
           | |- context [Z.leb ?a ?b] => destruct (Z.leb_spec a b); cbn [sorted_insert]
           end; (split; [done|by intros (_ & ? & _)]).
  - repeat match goal with
           | |- context [Z.leb ?a ?b] => destruct (Z.leb_spec a b); cbn [sorted_insert]
           end; (split; [done|by intros (? & _ & _)]).
  - split; [done|by intros (? & _ & _)].
Qed.

(** C3. The chow branch of [can_form_melds] takes the ranks 1, 1, 3 of
    one suit for a run, which [is_valid_meld] refuses; through it
    [is_winning_hand] accepts a hand that holds this triple. *)
Theorem can_form_melds_accepts_gapped_run :
  can_form_melds [Wan 1; Wan 1; Wan 3] = true
  ∧ is_valid_meld [Wan 1; Wan 1; Wan 3] = false
  ∧ is_winning_hand [Tiao 2; Tiao 2; Tong 1; Tong 1; Tong 1;
                     Wan 1; Wan 1; Wan 3; Wan 4; Wan 5; Wan 6;
                     Wan 7; Wan 8; Wan 9] = true.
Proof. repeat split; vm_compute; reflexivity. Qed.

End logic.

(** ** The hand-strength score of [agent.py] *)

Section score.
Import MahjongAgent HandScore.

Lemma multiplicity_Counter (t : Tile) (tiles : list Tile) :
  multiplicity t (Counter tiles) = copies t tiles.
Proof.
  unfold Counter, copies. induction tiles as [|x tiles IH]; [done|].
  rewrite list_to_set_disj_cons, multiplicity_disj_union, IH, filter_cons.
  destruct (decide (t = x)) as [->|Hne].
  - by rewrite multiplicity_singleton_eq.
  - by rewrite multiplicity_singleton_ne.
Qed.

Lemma Counter_keys (tiles : list Tile) :
  elements (dom (Counter tiles)) ≡ₚ remove_dups tiles.
Proof.
  apply NoDup_Permutation; [apply NoDup_elements|apply NoDup_remove_dups|].
  intros t. rewrite elem_of_elements, gmultiset_elem_of_dom, elem_of_remove_dups.
  apply elem_of_list_to_set_disj.
Qed.

Lemma sum_constant {A} (c : Z) (l : list A) :
  foldr Z.add 0 ((λ _, c) <$> l) = c * Z.of_nat (length l).
Proof.
  induction l as [|x l IH]; [simpl; lia|].
  rewrite fmap_cons. cbn [foldr length]. rewrite IH. lia.
Qed.

Lemma length_filter_fmap {A B} (f : A → B) (P : B → Prop) `{∀ y, Decision (P y)}
    (l : list A) :
  length (filter P (f <$> l)) = length (filter (λ x, P (f x)) l).
Proof.
  induction l as [|x l IH]; [done|]. rewrite fmap_cons, !filter_cons.
  destruct (decide (P (f x))); simpl; by rewrite IH.
Qed.

Lemma pair_score_spec (tiles : list Tile) :
  pair_score (evaluate tiles) = 2 * pairs tiles.
Proof.
  unfold evaluate, pairs. cbn [pair_score]. rewrite sum_constant. f_equal. f_equal.
  unfold Counter_values. rewrite length_filter_fmap.
  rewrite (list_filter_iff _ (λ t, (2 ≤ copies t tiles)%nat))
    by (intros t; by rewrite multiplicity_Counter).
  by rewrite Counter_keys.
Qed.

Lemma filter_seq_shift (P : nat → Prop) `{∀ i, Decision (P i)} (a n : nat) :
  length (filter P (seq (S a) n)) = length (filter (λ i, P (S i)) (seq a n)).
Proof.
  revert a. induction n as [|n IH]; intros a; [done|].
  cbn [seq]. rewrite !filter_cons. destruct (decide (P (S a))); simpl; by rewrite IH.
Qed.

Lemma close_neighbours_spec (values : list Z) :
  close_neighbours values = Z.of_nat (near_neighbours values).
Proof.
  unfold close_neighbours. f_equal.
  induction values as [|v values IH]; [done|].
  destruct values as [|v' values]; [done|].
  change (near_neighbours (v :: v' :: values))
    with ((if decide (v' - v ≤ 2)%Z then 1 else 0) + near_neighbours (v' :: values))%nat.
  cbn [length] in *.
  replace (S (S (length values)) - 1)%nat with (S (length values)) by lia.
  replace (S (length values) - 1)%nat with (length values) in IH by lia.
  assert (Htail :
    length (filter (λ i, is_close (v :: v' :: values) i = true) (seq 1 (length values)))
    = near_neighbours (v' :: values)).
  { by rewrite filter_seq_shift, <- IH. }
  cbn [seq]. rewrite filter_cons. unfold is_close at 1. cbn [lookup list_lookup].
  destruct (decide (v' - v ≤ 2)) as [Hle|Hgt].
  - rewrite decide_True by (by apply bool_decide_eq_true_2).
    cbn [length]. by rewrite Htail.
  - rewrite decide_False by (by intros ?%bool_decide_eq_true_1).
    by rewrite Htail.
Qed.

Lemma sequence_potential_spec (tiles : list Tile) :
  sequence_potential (evaluate tiles) = links tiles.
Proof.
  unfold evaluate, links, suits, suit_ranks. cbn [sequence_potential foldl sum_list_with].
  rewrite !close_neighbours_spec. lia.
Qed.

Lemma terminal_score_spec (tiles : list Tile) :
  terminal_score (evaluate tiles) = terminals tiles.
Proof.
  unfold evaluate, terminals. cbn [terminal_score]. rewrite sum_constant.
  rewrite Z.mul_1_l. f_equal. f_equal. apply list_filter_iff. intros t.
  rewrite !elem_of_cons, elem_of_nil. tauto.
Qed.

Lemma total_score_spec (tiles : list Tile) :
  (total_score (evaluate tiles)
   == inject_Z (20 * melds tiles + 3 * pairs tiles + 1 * links tiles))%Q.
Proof.
  pose proof (pair_score_spec tiles) as HP.
  pose proof (sequence_potential_spec tiles) as HS.
  unfold evaluate in *. cbn [pair_score sequence_potential total_score] in *.
  rewrite HP, HS. unfold melds.
  rewrite !inject_Z_plus, !inject_Z_mult. unfold Qeq. simpl. lia.
Qed.

(** C8. On a non-empty hand [evaluate_hand] returns 20 M + 3 P + S, with
    M the number of melds that [find_all_melds] lists, P the number of
    distinct tiles held at least twice and S the number of neighbours at
    most two ranks apart in the sorted ranks of each suit. The count of
    the tiles of rank 1 or 9 is computed, and no term of the score
    depends on it. *)
Theorem evaluate_hand_formula (player_idx : nat) (gs : GameState) (me : PlayerState) :
  players gs !! player_idx = Some me →
  hand me ≠ [] →
  ∃ q : Q,
    evaluate_hand player_idx (Some gs) = Ok q
    ∧ (q == inject_Z (20 * melds (hand me) + 3 * pairs (hand me) + 1 * links (hand me)))%Q
    ∧ terminal_score (evaluate (hand me)) = terminals (hand me).
Proof.
  intros Hme Hhand. exists (total_score (evaluate (hand me))).
  split; [|split; [apply total_score_spec|apply terminal_score_spec]].
  unfold evaluate_hand, player. rewrite Hme. simpl.
  by destruct (hand me).
Qed.

End score.

(** ** The shared game state *)

Section state.
Implicit Types (gs : GameState) (p me : PlayerState) (i : nat).

Lemma player_Some gs i p : players gs !! i = Some p → player i gs = Ok p.
Proof. unfold player. by intros ->. Qed.

Lemma player_update gs i f p :
  players gs !! i = Some p → players (update_player i f gs) !! i = Some (f p).
Proof. intros Hp. cbn. by rewrite list_lookup_alter_eq, Hp. Qed.

Lemma player_update_ne gs i j f :
  i ≠ j → players (update_player i f gs) !! j = players gs !! j.
Proof. intros Hne. cbn. by rewrite list_lookup_alter_ne. Qed.

Lemma update_player_twice gs i f g :
  update_player i f (update_player i g gs) = update_player i (f ∘ g) gs.
Proof. unfold update_player, set_players. cbn. by rewrite list_alter_alter_eq. Qed.

Lemma update_player_ext gs i f g :
  (∀ p, players gs !! i = Some p → f p = g p) →
  update_player i f gs = update_player i g gs.
Proof.
  intros Hfg. unfold update_player. f_equal. by apply list_alter_ext.
Qed.

Lemma update_player_id gs i f :
  (∀ p, players gs !! i = Some p → f p = p) → update_player i f gs = gs.
Proof.
  intros Hf. rewrite (update_player_ext gs i f id) by done.
  unfold update_player. rewrite list_alter_id by done. by destruct gs.
Qed.

Lemma set_hand_same me : set_hand (hand me) me = me.
Proof. by destruct me. Qed.
End state.

(** ** [choose_discard] *)

Section choose_discard.
Import MahjongAgent.
Implicit Types (gs : GameState) (me : PlayerState) (tile : Tile).

Lemma evaluate_hand_Some gs player_idx me :
  players gs !! player_idx = Some me →
  ∃ q, evaluate_hand player_idx (Some gs) = Ok q.
Proof.
  intros Hme. unfold evaluate_hand. rewrite (player_Some _ _ _ Hme). cbn.
  destruct (hand me); eauto.
Qed.

(** The loop neither loses nor invents a tile, touches nothing but the
    hand it walks, and once a round has run it holds a tile of the hand. *)
Lemma discard_loop_spec player_idx fuel :
  ∀ k best_discard best_score gs me,
    players gs !! player_idx = Some me →
    ∃ best h',
      discard_loop fuel player_idx k best_discard best_score gs
      = Ok (best, update_player player_idx (set_hand h') gs)
      ∧ h' ≡ₚ hand me
      ∧ (best = best_discard ∨ ∃ tile, best = Some tile ∧ tile ∈ hand me)
      ∧ (best_score = NegInf → (k < length (hand me))%nat → (0 < fuel)%nat →
         ∃ tile, best = Some tile ∧ tile ∈ hand me).
Proof.
  induction fuel as [|fuel IH]; intros k best_discard best_score gs me Hme.
  { exists best_discard, (hand me). cbn.
    rewrite update_player_id by (intros p ?; simplify_eq; apply set_hand_same).
    split; [done|]. split; [done|]. split; [by left|lia]. }
  cbn [discard_loop]. rewrite (player_Some _ _ _ Hme). cbn [mbind res_bind].
  destruct (hand me !! k) as [tile|] eqn:Hk.
  2:{ exists best_discard, (hand me).
      rewrite update_player_id by (intros p ?; simplify_eq; apply set_hand_same).
      apply lookup_ge_None in Hk. split; [done|]. split; [done|]. split; [by left|lia]. }
  assert (Htile : tile ∈ hand me) by (by eapply list_elem_of_lookup_2).
  destruct (list_remove_elem_of _ _ Htile) as [removed Hrm]. rewrite Hrm.
  cbn [or_raise mbind res_bind].
  pose proof (list_remove_perm _ _ _ Hrm) as Hperm.
  set (gs1 := update_player player_idx (set_hand removed) gs).
  destruct (evaluate_hand_Some gs1 player_idx (set_hand removed me)) as [s Hs];
    [by apply player_update|].
  rewrite Hs. cbn [mbind res_bind].
  set (gs2 := update_player player_idx (set_hand (removed ++ [tile])) gs1).
  assert (Hme2 : players gs2 !! player_idx
                 = Some (set_hand (removed ++ [tile]) (set_hand removed me))).
  { apply player_update. by apply player_update. }
  assert (Hback : removed ++ [tile] ≡ₚ hand me).
  { rewrite Hperm. by rewrite Permutation_app_comm. }
  assert (Hfold : ∀ h', update_player player_idx (set_hand h') gs2
                        = update_player player_idx (set_hand h') gs).
  { intros h'. unfold gs2, gs1. rewrite !update_player_twice.
    apply update_player_ext. by intros []. }
  destruct (score_gt s best_score) eqn:Hgt.
  - destruct (IH (S k) (Some tile) (Finite s) gs2 _ Hme2)
      as (best & h' & -> & Hh' & Hbest & _).
    exists best, h'. rewrite Hfold. cbn [hand set_hand] in *.
    split; [done|]. split; [by rewrite Hh'|].
    assert (Hin : ∃ t, best = Some t ∧ t ∈ hand me).
    { destruct Hbest as [->|(t & -> & Ht)]; [by eauto|].
      exists t. split; [done|]. by rewrite <- Hback. }
    split; [by right|]. by intros _ _ _.
  - destruct (IH (S k) best_discard best_score gs2 _ Hme2)
      as (best & h' & -> & Hh' & Hbest & _).
    exists best, h'. rewrite Hfold. cbn [hand set_hand] in *.
    split; [done|]. split; [by rewrite Hh'|].
    split.
    + destruct Hbest as [->|(t & -> & Ht)]; [by left|].
      right. exists t. split; [done|]. by rewrite <- Hback.
    + intros -> _ _. by cbn in Hgt.
Qed.

Lemma choose_discard_spec player_idx gs me :
  players gs !! player_idx = Some me →
  hand me ≠ [] →
  ∃ tile h',
    choose_discard player_idx (Some gs)
    = Ok (Some tile, update_player player_idx (set_hand h') gs)
    ∧ tile ∈ hand me
    ∧ h' ≡ₚ hand me.
Proof.
  intros Hme Hhand. unfold choose_discard.
  rewrite (player_Some _ _ _ Hme). cbn [mbind res_bind].
  destruct (discard_loop_spec player_idx (length (hand me)) 0 None NegInf gs me Hme)
    as (best & h' & Hloop & Hh' & _ & Hbest).
  assert (Hpos : (0 < length (hand me))%nat) by (destruct (hand me); [done|cbn; lia]).
  destruct (Hbest eq_refl Hpos Hpos) as (tile & -> & Htile).
  exists tile, h'. rewrite Hloop. by destruct (hand me).
Qed.

(** C10. On a non-empty hand [choose_discard] returns a tile of that
    hand, and leaves the game state as it was but for the order of that
    hand: the hand after the call is a permutation of the hand before. *)
Theorem choose_discard_returns_hand_tile (player_idx : nat) (gs : GameState)
    (me : PlayerState) :
  players gs !! player_idx = Some me →
  hand me ≠ [] →
  ∃ tile h',
    choose_discard player_idx (Some gs)
    = Ok (Some tile, update_player player_idx (set_hand h') gs)
    ∧ tile ∈ hand me
    ∧ h' ≡ₚ hand me.
Proof. apply choose_discard_spec. Qed.

Lemma choose_discard_empty player_idx gs me :
  players gs !! player_idx = Some me →
  hand me = [] →
  choose_discard player_idx (Some gs) = Ok (None, gs).
Proof.
  intros Hme Hhand. unfold choose_discard.
  rewrite (player_Some _ _ _ Hme). cbn [mbind res_bind]. by rewrite Hhand.
Qed.

(** The fuel of [discard_loop] is the number of rounds: after that many
    the position of the iterator is the length of the list, which ends a
    Python [for] loop. More fuel changes nothing. *)
Lemma discard_loop_fuel player_idx extra fuel :
  ∀ k best_discard best_score gs me,
    players gs !! player_idx = Some me →
    (length (hand me) ≤ k + fuel)%nat →
    discard_loop (fuel + extra) player_idx k best_discard best_score gs
    = discard_loop fuel player_idx k best_discard best_score gs.
Proof.
  induction fuel as [|fuel IH]; intros k best_discard best_score gs me Hme Hlen.
  { destruct extra as [|extra]; [done|].
    cbn [Nat.add discard_loop]. rewrite (player_Some _ _ _ Hme). cbn [mbind res_bind].
    by rewrite (lookup_ge_None_2 (hand me) k) by lia. }
  cbn [Nat.add discard_loop]. rewrite (player_Some _ _ _ Hme). cbn [mbind res_bind].
  destruct (hand me !! k) as [tile|] eqn:Hk; [|done].
  destruct (list_remove tile (hand me)) as [removed|] eqn:Hrm; [|done].
  cbn [or_raise mbind res_bind].
  destruct (evaluate_hand _ _) as [s|]; [|done]. cbn [mbind res_bind].
  set (gs2 := update_player player_idx (set_hand (removed ++ [tile])) _).
  assert (Hme2 : players gs2 !! player_idx
                 = Some (set_hand (removed ++ [tile]) (set_hand removed me))).
  { apply player_update. by apply player_update. }
  assert (Hlen2 : (length (removed ++ [tile]) ≤ S k + fuel)%nat).
  { rewrite length_app. cbn. apply list_remove_length in Hrm. lia. }
  destruct (score_gt s best_score); by apply (IH _ _ _ _ _ Hme2).
Qed.

End choose_discard.

(** ** The tiles of a game of [MahjongGame.play_game] *)

(** Equations between multisets of tiles, by counting one tile. *)
Ltac count_tiles :=
  let t := fresh "t" in
  apply gmultiset_eq; intros t;
  repeat match goal with
         | H : @eq (gmultiset _) _ _ |- _ => apply (f_equal (multiplicity t)) in H
         end;
  unfold Counter in *;
  rewrite ?list_to_set_disj_app, ?list_to_set_disj_cons, ?list_to_set_disj_nil in *;
  rewrite ?multiplicity_disj_union, ?multiplicity_empty, ?multiplicity_singleton in *;
  repeat case_decide; lia.

Section tiles.
Implicit Types (gs : GameState) (p me : PlayerState) (i : nat) (ps : list PlayerState).

Lemma Counter_app (l k : list Tile) : Counter (l ++ k) = Counter l ⊎ Counter k.
Proof. apply list_to_set_disj_app. Qed.

Lemma Counter_size (l : list Tile) : size (Counter l) = length l.
Proof.
  unfold Counter. induction l as [|x l IH]; [done|].
  rewrite list_to_set_disj_cons, gmultiset_size_disj_union, gmultiset_size_singleton.
  cbn. by rewrite IH.
Qed.

Lemma sorted_insert_perm {A} (leb : A → A → bool) (x : A) (l : list A) :
  sorted_insert leb x l ≡ₚ x :: l.
Proof.
  induction l as [|y l IH]; [done|]. cbn. destruct (leb x y); [done|].
  by rewrite IH, Permutation_swap.
Qed.

Lemma sorted_perm {A} (leb : A → A → bool) (l : list A) : sorted leb l ≡ₚ l.
Proof.
  induction l as [|x l IH]; [done|]. cbn. by rewrite sorted_insert_perm, IH.
Qed.

(** The tiles of all seats, with those of seat [i] set apart. *)
Lemma Counter_players ps i p :
  ps !! i = Some p →
  Counter (ps ≫= player_tiles)
  = Counter (player_tiles p) ⊎ Counter (delete i ps ≫= player_tiles).
Proof.
  intros Hp. unfold Counter.
  by rewrite (delete_Permutation ps i p Hp) at 1; rewrite bind_cons, list_to_set_disj_app.
Qed.

Lemma delete_alter (f : PlayerState → PlayerState) ps i :
  delete i (alter f i ps) = delete i ps.
Proof. revert i. induction ps as [|q ps IH]; intros [|i]; cbn; [done..|]. by rewrite IH. Qed.

(** A change of seat [i] that keeps the tiles seat [i] holds keeps the
    tiles of the game. *)
Lemma Counter_update_player gs i f p (moved_in moved_out : gmultiset Tile) :
  players gs !! i = Some p →
  Counter (player_tiles (f p)) ⊎ moved_out = Counter (player_tiles p) ⊎ moved_in →
  Counter (all_tiles (update_player i f gs)) ⊎ moved_out
  = Counter (all_tiles gs) ⊎ moved_in.
Proof.
  intros Hp Hf. unfold all_tiles. rewrite !Counter_app.
  rewrite (Counter_players (players gs) i p Hp).
  rewrite (Counter_players (players (update_player i f gs)) i (f p))
    by (by apply player_update).
  cbn [players update_player set_players]. rewrite delete_alter.
  change (wall_tiles (update_player i f gs)) with (wall_tiles gs). count_tiles.
Qed.

Lemma tile_total_length gs :
  Forall (λ p, revealed_melds p = []) (players gs) →
  tile_total gs = length (all_tiles gs).
Proof.
  unfold tile_total, all_tiles. rewrite length_app. generalize (players gs) as ps.
  intros ps Hps. induction Hps as [|p ps Hp _ IH]; [cbn; lia|].
  rewrite bind_cons, length_app. unfold player_tiles at 1.
  rewrite !length_app. cbn [sum_list_with] in *. rewrite !Hp.
  cbn [concat length] in *. lia.
Qed.

(** Each tile identity is four times in the fresh wall, and nothing else is. *)
Lemma fresh_wall_four (t : Tile) :
  t ∈ tile_identities → multiplicity t (Counter GameState.fresh_wall) = 4%nat.
Proof.
  assert (Hall : Forall (λ t, multiplicity t (Counter GameState.fresh_wall) = 4%nat)
                        tile_identities) by compute_done.
  rewrite list.Forall_forall in Hall. apply Hall.
Qed.

Lemma fresh_wall_identities (t : Tile) :
  t ∈ Counter GameState.fresh_wall → t ∈ tile_identities.
Proof.
  assert (Hsub : Forall (λ t, t ∈ tile_identities) GameState.fresh_wall) by compute_done.
  rewrite list.Forall_forall in Hsub.
  intros Ht. apply elem_of_list_to_set_disj in Ht. by apply Hsub.
Qed.

Lemma fresh_wall_copies (t : Tile) :
  (multiplicity t (Counter GameState.fresh_wall) ≤ 4)%nat.
Proof.
  destruct (decide (t ∈ tile_identities)) as [Hin|Hout].
  - by rewrite fresh_wall_four.
  - assert (t ∉ Counter GameState.fresh_wall) as Hnot
      by (intros Ht; by apply Hout, fresh_wall_identities).
    apply not_elem_of_multiplicity in Hnot. lia.
Qed.

End tiles.

(** ** The invariant of the engine *)

Section engine.
Import MahjongGame.
Implicit Types (gs : GameState) (p me : PlayerState) (i : nat).

Lemma bind_Ok {A B} (m : res A) (f : A → res B) (b : B) :
  m ≫= f = Ok b → ∃ a, m = Ok a ∧ f a = Ok b.
Proof. destruct m as [a|e]; [by exists a|done]. Qed.

Lemma player_Ok gs i p : player i gs = Ok p → players gs !! i = Some p.
Proof. unfold player. by destruct (players gs !! i); intros [=->]. Qed.

Lemma or_raise_Ok {A} (e : exn) (o : option A) (a : A) : or_raise e o = Ok a → o = Some a.
Proof. by destruct o; intros [=->]. Qed.

Lemma split_deal (w : list Tile) :
  w = take 13 w ++ take 13 (drop 13 w) ++ take 13 (drop 26 w)
      ++ take 13 (drop 39 w) ++ drop 52 w.
Proof.
  change 52%nat with (39 + 13)%nat. rewrite <- (drop_drop w 13 39), take_drop.
  change 39%nat with (26 + 13)%nat. rewrite <- (drop_drop w 13 26), take_drop.
  change 26%nat with (13 + 13)%nat. rewrite <- (drop_drop w 13 13), take_drop.
  by rewrite take_drop.
Qed.

Lemma Counter_sorted_tiles (l : list Tile) : Counter (sorted_tiles l) = Counter l.
Proof. unfold Counter, sorted_tiles. by rewrite sorted_perm. Qed.

Lemma deal_invariant (shuffled_wall : list Tile) gs :
  shuffled_wall ≡ₚ GameState.fresh_wall →
  GameState.deal_initial_hands (GameState.init shuffled_wall) = Ok gs →
  engine_invariant gs.
Proof.
  intros Hperm Hdeal.
  assert (Hfresh : Counter GameState.fresh_wall = Counter shuffled_wall)
    by (unfold Counter; by rewrite Hperm).
  cbn in Hdeal. injection Hdeal as <-.
  split; [done|rewrite Hfresh|by repeat constructor].
  assert (Hsplit : Counter shuffled_wall
                   = Counter (take 13 shuffled_wall)
                     ⊎ Counter (take 13 (drop 13 shuffled_wall))
                     ⊎ Counter (take 13 (drop 26 shuffled_wall))
                     ⊎ Counter (take 13 (drop 39 shuffled_wall))
                     ⊎ Counter (drop 52 shuffled_wall)).
  { rewrite (split_deal shuffled_wall) at 1. rewrite !Counter_app. count_tiles. }
  rewrite Hsplit.
  unfold all_tiles, player_tiles, GameState.slice. cbn. rewrite !app_nil_r.
  rewrite !Counter_app, !Counter_sorted_tiles, drop_0. clear Hfresh Hsplit. count_tiles.
Qed.

(** A change of one seat that keeps its tiles and its melds. *)
Lemma update_player_invariant gs i f p :
  engine_invariant gs →
  players gs !! i = Some p →
  revealed_melds (f p) = revealed_melds p →
  Counter (player_tiles (f p)) = Counter (player_tiles p) →
  engine_invariant (update_player i f gs).
Proof.
  intros [Hlen Htiles Hmelds] Hp Hm Hc. split.
  - cbn. by rewrite length_alter.
  - rewrite <- Htiles.
    pose proof (Counter_update_player gs i f p ∅ ∅ Hp) as Hkeep.
    rewrite Hc in Hkeep. specialize (Hkeep eq_refl). clear -Hkeep. count_tiles.
  - cbn. apply Forall_alter; [done|]. intros q Hq Hnone. simplify_eq.
    by rewrite Hm.
Qed.

Lemma draw_tile_invariant gs i tile gs' :
  engine_invariant gs →
  GameState.draw_tile i gs = Ok (Some tile, gs') →
  engine_invariant gs'
  ∧ current_player gs' = current_player gs
  ∧ game_ended gs' = game_ended gs
  ∧ wall_tiles gs = tile :: wall_tiles gs'.
Proof.
  intros [Hlen Htiles Hmelds] Hdraw. unfold GameState.draw_tile in Hdraw.
  destruct (wall_tiles gs) as [|t wall] eqn:Hwall; [done|].
  apply bind_Ok in Hdraw as (p & Hp%player_Ok & [= -> <-]).
  cbn in Hp. split; [|done].
  split.
  - cbn. by rewrite length_alter.
  - rewrite <- Htiles.
    pose proof (Counter_update_player (set_wall_tiles wall gs) i
                  (set_hand (hand p ++ [tile])) p {[+ tile +]} ∅ Hp) as Hmove.
    assert (Hhand : Counter (player_tiles (set_hand (hand p ++ [tile]) p)) ⊎ ∅
                    = Counter (player_tiles p) ⊎ {[+ tile +]}).
    { unfold player_tiles. cbn [hand set_hand discards revealed_melds].
      rewrite !Counter_app. unfold Counter at 2. rewrite list_to_set_disj_cons.
      clear. count_tiles. }
    specialize (Hmove Hhand).
    assert (Hwall' : Counter (all_tiles gs)
                     = Counter (all_tiles (set_wall_tiles wall gs)) ⊎ {[+ tile +]}).
    { unfold all_tiles. cbn [wall_tiles set_wall_tiles players]. rewrite Hwall.
      rewrite <- app_comm_cons. unfold Counter. rewrite list_to_set_disj_cons.
      clear. count_tiles. }
    clear -Hmove Hwall'. count_tiles.
  - cbn. by apply Forall_alter.
Qed.

Lemma field_setters_invariant gs (c : nat) (t : option Tile) :
  engine_invariant gs →
  engine_invariant (set_current_player c gs)
  ∧ engine_invariant (set_last_discarded t gs).
Proof. by intros [? ? ?]. Qed.

Lemma choose_discard_invariant gs i discard gs' :
  engine_invariant gs →
  MahjongAgent.choose_discard i (Some gs) = Ok (discard, gs') →
  engine_invariant gs'
  ∧ current_player gs' = current_player gs
  ∧ game_ended gs' = game_ended gs
  ∧ wall_tiles gs' = wall_tiles gs.
Proof.
  intros Hinv Hchoose.
  destruct (players gs !! i) as [me|] eqn:Hme.
  2:{ unfold MahjongAgent.choose_discard, player in Hchoose. by rewrite Hme in Hchoose. }
  destruct (decide (hand me = [])) as [Hnil|Hhand].
  { rewrite (choose_discard_empty _ _ _ Hme Hnil) in Hchoose. by simplify_eq. }
  destruct (choose_discard_spec _ _ _ Hme Hhand) as (tile & h' & Heq & _ & Hperm).
  rewrite Heq in Hchoose. simplify_eq. split; [|done].
  apply (update_player_invariant gs i _ me); [done..|].
  unfold player_tiles. cbn [hand set_hand discards revealed_melds].
  unfold Counter. by rewrite Hperm.
Qed.

Lemma commit_discard_invariant gs i discard gs' :
  engine_invariant gs →
  commit_discard i discard gs = Ok gs' →
  engine_invariant gs'
  ∧ current_player gs' = current_player gs
  ∧ game_ended gs' = game_ended gs
  ∧ wall_tiles gs' = wall_tiles gs
  ∧ ∃ p, players gs' !! i = Some p ∧ discard ∈ discards p.
Proof.
  intros Hinv Hcommit. unfold commit_discard in Hcommit.
  apply bind_Ok in Hcommit as (me & Hme%player_Ok & Hcommit).
  apply bind_Ok in Hcommit as (removed & Hrm%or_raise_Ok & [= <-]).
  rewrite update_player_twice.
  split; [|repeat split].
  - refine (proj2 (field_setters_invariant _ 0%nat _ _)).
    apply (update_player_invariant gs i _ me); [done..|].
    unfold player_tiles. cbn [hand set_hand set_discards discards revealed_melds compose].
    apply list_remove_perm in Hrm. unfold Counter. rewrite Hrm.
    apply list_to_set_disj_perm.
    rewrite <- (app_assoc (discards me)). cbn. rewrite (app_assoc removed).
    rewrite <- Permutation_middle. by rewrite <- app_assoc.
  - eexists. split; [by apply player_update|].
    cbn. apply elem_of_app. right. by apply list_elem_of_singleton.
Qed.

Lemma draw_and_discard_spec gs (seat : nat) discard gs' :
  engine_invariant gs →
  draw_and_discard gs = Ok (Discarded seat discard gs') →
  engine_invariant gs'
  ∧ seat = current_player gs
  ∧ game_ended gs' = game_ended gs
  ∧ (length (wall_tiles gs) = S (length (wall_tiles gs')))
  ∧ ∃ p, players gs' !! seat = Some p ∧ discard ∈ discards p.
Proof.
  intros Hinv Hturn. unfold draw_and_discard in Hturn.
  apply bind_Ok in Hturn as ([[tile|] gs1] & Hdraw & Hturn); [|done].
  destruct (draw_tile_invariant _ _ _ _ Hinv Hdraw) as (Hinv1 & Hcp1 & Hend1 & Hwall1).
  apply bind_Ok in Hturn as (me & Hme & Hturn).
  destruct (MahjongLogic.is_winning_hand (hand me)); [done|].
  apply bind_Ok in Hturn as ([chosen gs2] & Hchoose & Hturn).
  destruct (choose_discard_invariant _ _ _ _ Hinv1 Hchoose) as (Hinv2 & Hcp2 & Hend2 & Hwall2).
  destruct chosen as [d|]; [|done].
  apply bind_Ok in Hturn as (gs3 & Hcommit & [= <- <- <-]).
  destruct (commit_discard_invariant _ _ _ _ Hinv2 Hcommit)
    as (Hinv3 & Hcp3 & Hend3 & Hwall3 & Hpile).
  split; [done|]. split; [done|]. split; [congruence|]. split; [|done].
  by rewrite Hwall1, Hwall3, Hwall2.
Qed.

Lemma resolve_claim_spec gs (seat : nat) discard gs' :
  resolve_claim seat discard gs = Ok gs' →
  ∃ next, gs' = set_current_player next gs.
Proof.
  unfold resolve_claim. intros (claimed & _ & Hnext)%bind_Ok.
  destruct claimed; injection Hnext as <-; eauto.
Qed.

Lemma take_turn_invariant gs gs' :
  engine_invariant gs →
  take_turn gs = Ok (Continue gs') →
  engine_invariant gs'
  ∧ game_ended gs' = game_ended gs
  ∧ length (wall_tiles gs) = S (length (wall_tiles gs')).
Proof.
  intros Hinv Hturn. unfold take_turn in Hturn.
  apply bind_Ok in Hturn as (phase & Hphase & Hturn).
  destruct phase as [| | |seat d gs1]; [done..|].
  destruct (draw_and_discard_spec _ _ _ _ Hinv Hphase) as (Hinv1 & _ & Hend & Hwall & _).
  apply bind_Ok in Hturn as (won & _ & Hturn).
  destruct won; [done|].
  apply bind_Ok in Hturn as (gs2 & (next & ->)%resolve_claim_spec & [= <-]).
  split; [by refine (proj1 (field_setters_invariant _ _ None _))|done].
Qed.

Lemma reachable_invariant gs : reachable gs → engine_invariant gs.
Proof.
  induction 1 as [w gs Hw Hdeal|gs gs' _ IH _ Hturn].
  - by eapply deal_invariant.
  - by eapply take_turn_invariant.
Qed.

(** The conservation law on the states of the engine. *)
Lemma engine_invariant_total gs : engine_invariant gs → tile_total gs = 108%nat.
Proof.
  intros [_ Htiles Hmelds]. rewrite tile_total_length by done.
  by rewrite <- Counter_size, Htiles, Counter_size.
Qed.

End engine.

(** ** Claim resolution in [MahjongGame.play_game] *)

Section claims.
Import MahjongGame.
Implicit Types (gs : GameState) (seat i j : nat) (discard : Tile).

(** The loop of the engine visits the seats 0, 1, 2, 3 but for the
    discarder, and stops at the first that can claim. *)
Lemma claimant_first_of gs seat discard (seats : list nat) :
  Forall (λ i, is_Some (players gs !! i)) seats →
  claimant seats seat discard gs
  = Ok (first_of (λ i, claim_possible i discard gs) (filter (λ i, i ≠ seat) seats)).
Proof.
  induction 1 as [|i seats [p Hp] _ IH]; [done|].
  cbn [claimant]. rewrite filter_cons.
  destruct (decide (i ≠ seat)) as [Hne|Heq]; [|done].
  assert (Hcan : ∃ c, _can_claim_tile i discard gs = Ok c).
  { unfold _can_claim_tile. rewrite (player_Some _ _ _ Hp). by eexists. }
  destruct Hcan as [c Hcan].
  assert (Hposs : claim_possible i discard gs = c).
  { unfold claim_possible. by rewrite Hcan. }
  rewrite Hcan. cbn [mbind res_bind]. unfold first_of. rewrite filter_cons.
  destruct c.
  - by rewrite decide_True.
  - rewrite decide_False by (by rewrite Hposs). apply IH.
Qed.

Lemma claim_possible_pair gs i discard :
  claim_possible i discard gs = true →
  ∃ p, players gs !! i = Some p ∧ (2 ≤ multiplicity discard (Counter (hand p)))%nat.
Proof.
  unfold claim_possible, _can_claim_tile, player.
  destruct (players gs !! i) as [p|]; [|done]. cbn.
  intros Hc%bool_decide_eq_true_1. exists p. split; [done|].
  rewrite multiplicity_Counter. unfold HandScore.copies.
  erewrite list_filter_iff; [exact Hc|].
  intros [ty v]. destruct discard as [ty' v']. cbn. split; [by intros [= -> ->]|by intros [-> ->]].
Qed.

(** With four copies of each tile and one of them on the pile, two
    seats cannot both hold a pair of the discard. *)
Lemma one_claimant gs seat discard p i j :
  engine_invariant gs →
  players gs !! seat = Some p →
  discard ∈ discards p →
  i ≠ j →
  claim_possible i discard gs = true →
  claim_possible j discard gs = true →
  False.
Proof.
  intros [Hlen Htiles _] Hp Hpile Hij
    (pi & Hpi & Hi)%claim_possible_pair (pj & Hpj & Hj)%claim_possible_pair.
  pose proof (fresh_wall_copies discard) as Hfour. rewrite <- Htiles in Hfour.
  assert (Hone : (1 ≤ multiplicity discard (Counter (discards p)))%nat).
  { apply elem_of_multiplicity. by apply elem_of_list_to_set_disj. }
  unfold all_tiles in Hfour.
  destruct (players gs) as [|p0 [|p1 [|p2 [|p3 [|]]]]]; try done.
  unfold player_tiles in Hfour. cbn [mbind list_bind] in Hfour.
  unfold Counter in *.
  rewrite ?list_to_set_disj_app, ?multiplicity_disj_union in Hfour.
  pose (m := λ l : list Tile, multiplicity discard (list_to_set_disj l)).
  assert (Hpiles : (1 ≤ m (discards p0) + m (discards p1) + m (discards p2)
                        + m (discards p3))%nat).
  { subst m. clear -Hp Hone. destruct seat as [|[|[|[|]]]]; simplify_eq/=; lia. }
  assert (Hhands : (4 ≤ m (hand p0) + m (hand p1) + m (hand p2) + m (hand p3))%nat).
  { subst m. clear -Hij Hpi Hi Hpj Hj.
    destruct i as [|[|[|[|]]]]; simplify_eq/=;
      destruct j as [|[|[|[|]]]]; simplify_eq/=; lia. }
  subst m. cbn beta in *. lia.
Qed.





Lemma strided_wall_shuffled : strided_wall ≡ₚ GameState.fresh_wall.
Proof. compute_done. Qed.

Lemma strided_deal_reachable : reachable strided_deal.
Proof. by apply (reachable_deal strided_wall); [apply strided_wall_shuffled|]. Qed.

End claims.

(** ** The end of a game of [MahjongGame.play_game] *)

Section game_end.
Import MahjongGame.
Implicit Types (gs : GameState) (n k : nat).

Lemma seat_score_Ok gs i :
  is_Some (players gs !! i) →
  MahjongAgent.evaluate_hand i (Some gs) = Ok (seat_score i gs).
Proof.
  intros [p Hp]. unfold seat_score.
  destruct (evaluate_hand_Some gs i p Hp) as [q Hq]. by rewrite Hq.
Qed.

Lemma score_gt_Finite (s b : Q) :
  score_gt s (Finite b) = true ↔ (b < s)%Q.
Proof.
  unfold score_gt. rewrite negb_true_iff, <- not_true_iff_false, Qle_bool_iff.
  split; [apply Qnot_le_lt|apply Qlt_not_le].
Qed.

Lemma winner_step_first gs :
  is_Some (players gs !! 0%nat) →
  winner_step gs (NegInf, -1) 0 = Ok (Finite (seat_score 0 gs), Z.of_nat 0)
  ∧ first_best_hand 1 0 gs.
Proof.
  intros Hp. unfold winner_step. rewrite (seat_score_Ok gs 0 Hp). split; [done|].
  split; [lia|]. split; [|lia].
  intros [|i] Hi; [apply Qle_refl|lia].
Qed.

Lemma winner_step_next gs k w :
  is_Some (players gs !! k) →
  first_best_hand k w gs →
  ∃ w', winner_step gs (Finite (seat_score w gs), Z.of_nat w) k
        = Ok (Finite (seat_score w' gs), Z.of_nat w')
        ∧ first_best_hand (S k) w' gs.
Proof.
  intros Hp (Hw & Hmax & Hfirst). unfold winner_step.
  rewrite (seat_score_Ok gs k Hp). cbn [mbind res_bind].
  destruct (score_gt _ _) eqn:Hgt.
  - apply score_gt_Finite in Hgt. exists k. split; [done|].
    split; [lia|]. split.
    + intros i Hi. destruct (decide (i = k)) as [->|Hne]; [apply Qle_refl|].
      apply Qle_trans with (seat_score w gs); [apply Hmax; lia|by apply Qlt_le_weak].
    + intros i Hi. apply Qle_lt_trans with (seat_score w gs); [by apply Hmax|done].
  - apply not_true_iff_false in Hgt. rewrite score_gt_Finite in Hgt.
    apply Qnot_lt_le in Hgt. exists w. split; [done|].
    split; [lia|]. split; [|done].
    intros i Hi. destruct (decide (i = k)) as [->|Hne]; [done|apply Hmax; lia].
Qed.

Lemma winner_loop gs n : ∀ k w,
  (k + n ≤ length (players gs))%nat →
  first_best_hand k w gs →
  ∃ w', for_each (winner_step gs) (seq k n) (Finite (seat_score w gs), Z.of_nat w)
        = Ok (Finite (seat_score w' gs), Z.of_nat w')
        ∧ first_best_hand (k + n) w' gs.
Proof.
  induction n as [|n IH]; intros k w Hlen Hbest.
  { exists w. by rewrite Nat.add_0_r. }
  destruct (winner_step_next gs k w) as (w1 & Hstep & Hbest1);
    [apply lookup_lt_is_Some; lia|done|].
  destruct (IH (S k) w1) as (w' & Hloop & Hbest'); [lia|done|].
  exists w'. change (seq k (S n)) with (k :: seq (S k) n). cbn [for_each].
  rewrite Hstep. cbn [mbind res_bind]. by rewrite Nat.add_succ_r.
Qed.

(** [_get_winner] never answers -1: it names the first seat among those
    with the highest [evaluate_hand]. *)
Lemma get_winner_spec gs :
  length (players gs) = 4%nat →
  ∃ w, _get_winner gs = Ok (Z.of_nat w) ∧ first_best_hand 4 w gs.
Proof.
  intros Hlen. unfold _get_winner.
  destruct (winner_step_first gs) as [Hfirst Hbest];
    [apply lookup_lt_is_Some; lia|].
  destruct (winner_loop gs 3 1 0) as (w & Hloop & Hw); [lia|done|].
  exists w. change (seq 0 4) with (0%nat :: seq 1 3). cbn [for_each].
  rewrite Hfirst. cbn [mbind res_bind]. rewrite Hloop. by cbn.
Qed.

Lemma take_turn_wall_empty gs :
  wall_tiles gs = [] → take_turn gs = Ok (Break (set_game_ended true gs)).
Proof.
  intros Hwall. unfold take_turn, draw_and_discard, GameState.draw_tile.
  by rewrite Hwall.
Qed.

Lemma after_turns_spec k : ∀ gs gs',
  engine_invariant gs →
  game_ended gs = false →
  after_turns k gs = Ok (Continue gs') →
  engine_invariant gs'
  ∧ game_ended gs' = false
  ∧ length (wall_tiles gs) = (k + length (wall_tiles gs'))%nat
  ∧ (reachable gs → reachable gs').
Proof.
  induction k as [|k IH]; intros gs gs' Hinv Hend Hturns.
  { by injection Hturns as <-. }
  cbn [after_turns] in Hturns.
  apply bind_Ok in Hturns as ([w|gs1|gs1] & Hturn & Hturns); [done..|].
  destruct (take_turn_invariant _ _ Hinv Hturn) as (Hinv1 & Hend1 & Hwall1).
  destruct (IH gs1 gs' Hinv1) as (Hinv' & Hend' & Hwall' & Hreach); [congruence|done|].
  split; [done|]. split; [done|]. split; [lia|].
  intros Hgs. apply Hreach. by apply (reachable_turn gs).
Qed.


Lemma game_loop_after_turns k : ∀ n gs gs',
  engine_invariant gs →
  game_ended gs = false →
  after_turns k gs = Ok (Continue gs') →
  game_loop (k + n) gs = game_loop n gs'.
Proof.
  induction k as [|k IH]; intros n gs gs' Hinv Hend Hturns.
  { by injection Hturns as <-. }
  cbn [after_turns] in Hturns.
  apply bind_Ok in Hturns as ([w|gs1|gs1] & Hturn & Hturns); [done..|].
  destruct (take_turn_invariant _ _ Hinv Hturn) as (Hinv1 & Hend1 & _).
  cbn [Nat.add game_loop]. rewrite Hend, Hturn. cbn [mbind res_bind].
  apply IH; [done|congruence|done].
Qed.

(** C4, as the code has it. When the wall runs out before any seat has
    won, the loop of [play_game] ends with [game_ended] set, and
    [play_game] returns a seat all the same: the first of the seats
    whose hand has the highest [evaluate_hand]. *)
Theorem wall_exhausted_winner_is_best_hand (shuffled_wall : list Tile)
    (gs0 : GameState) (k : nat) (gs : GameState) :
  shuffled_wall ≡ₚ GameState.fresh_wall →
  GameState.deal_initial_hands (GameState.init shuffled_wall) = Ok gs0 →
  after_turns k gs0 = Ok (Continue gs) →
  wall_tiles gs = [] →
  take_turn gs = Ok (Break (set_game_ended true gs))
  ∧ ∃ w, play_game (GameState.init shuffled_wall) = Z.of_nat w
         ∧ first_best_hand 4 w gs.
Proof.
  intros Hperm Hdeal Hturns Hwall. split; [by apply take_turn_wall_empty|].
  pose proof (deal_invariant _ _ Hperm Hdeal) as Hinv0.
  assert (Hend0 : game_ended gs0 = false).
  { cbn in Hdeal. by injection Hdeal as <-. }
  assert (Hwall0 : length (wall_tiles gs0) = 56%nat).
  { cbn in Hdeal. injection Hdeal as <-. cbn [wall_tiles set_wall_tiles].
    rewrite length_drop, Hperm. done. }
  destruct (after_turns_spec _ _ _ Hinv0 Hend0 Hturns) as (Hinv & Hend & Hlen & _).
  rewrite Hwall0, Hwall in Hlen. cbn [length] in Hlen.
  assert (k = 56%nat) as -> by lia.
  destruct (get_winner_spec (set_game_ended true gs)) as (w & Hw & Hbest);
    [apply Hinv|].
  exists w. split; [|exact Hbest].
  unfold play_game. rewrite Hdeal. cbn [mbind res_bind].
  change max_turns with (56 + 44)%nat.
  rewrite (game_loop_after_turns 56 44 gs0 gs Hinv0 Hend0 Hturns).
  cbn [game_loop]. rewrite Hend, (take_turn_wall_empty gs Hwall).
  cbn [mbind res_bind]. by rewrite Hw.
Qed.

Lemma wall_exhausted_winner_is_best_hand_witness :
  ∃ gs,
    after_turns 56 strided_deal = Ok (Continue gs)
    ∧ wall_tiles gs = []
    ∧ take_turn gs = Ok (Break (set_game_ended true gs))
    ∧ ∃ w, play_game (GameState.init strided_wall) = Z.of_nat w
           ∧ first_best_hand 4 w gs.
Proof.
  eexists.
  match goal with
  | |- ?A ∧ _ => assert (Hturns : A) by (vm_compute; reflexivity)
  end.
  split; [exact Hturns|]. split; [reflexivity|].
  apply (wall_exhausted_winner_is_best_hand strided_wall strided_deal 56 _).
  - apply strided_wall_shuffled.
  - reflexivity.
  - exact Hturns.
  - reflexivity.
Defined.

(** C4, as the claim has it, fails: the game that [strided_wall] deals
    goes through all 56 tiles of its wall without a winner, and
    [play_game] returns seat 3, not -1. *)
Lemma wall_exhausted_names_a_winner :
  ∃ gs,
    after_turns 56 strided_deal = Ok (Continue gs)
    ∧ wall_tiles gs = []
    ∧ play_game (GameState.init strided_wall) = 3
    ∧ play_game (GameState.init strided_wall) ≠ -1.
Proof.
  eexists. split; [vm_compute; reflexivity|].
  split; [reflexivity|]. split; [vm_compute; reflexivity|].
  vm_compute. discriminate.
Qed.

End game_end.

(** ** Calling [choose_discard] *)

Section discard_examples.
Import MahjongAgent.

Lemma evaluate_hand_formula_witness :
  ∃ q : Q,
    evaluate_hand 0 (Some first_draw) = Ok q
    ∧ (q == inject_Z (20 * HandScore.melds (hand first_drawer)
                      + 3 * HandScore.pairs (hand first_drawer)
                      + 1 * HandScore.links (hand first_drawer)))%Q
    ∧ terminal_score (evaluate (hand first_drawer))
      = HandScore.terminals (hand first_drawer).
Proof.
  apply (evaluate_hand_formula 0 first_draw first_drawer).
  - reflexivity.
  - vm_compute. discriminate.
Defined.

Lemma choose_discard_returns_hand_tile_witness :
  ∃ tile h',
    choose_discard 0 (Some first_draw)
    = Ok (Some tile, update_player 0 (set_hand h') first_draw)
    ∧ tile ∈ hand first_drawer
    ∧ h' ≡ₚ hand first_drawer.
Proof.
  apply (choose_discard_returns_hand_tile 0 first_draw first_drawer).
  - reflexivity.
  - vm_compute. discriminate.
Defined.

(** C5. Two calls of [choose_discard] in a row, with nothing done in
    between, on the first hand the engine asks about in the game that
    [strided_wall] deals: the first returns 2-Tiao and leaves the hand in
    another order, the second returns 4-Tiao. The same on the hand
    1-Wan, 2-Wan: first 1-Wan, then 2-Wan. *)
Theorem choose_discard_twice_differs :
  (∃ gs1 gs2,
     choose_discard 0 (Some first_draw) = Ok (Some (Tiao 2), gs1)
     ∧ hand <$> players gs1 !! 0%nat ≠ hand <$> players first_draw !! 0%nat
     ∧ choose_discard 0 (Some gs1) = Ok (Some (Tiao 4), gs2))
  ∧ (let gs := update_player 0 (set_hand [Wan 1; Wan 2]) (GameState.init []) in
     choose_discard 0 (Some gs)
     = Ok (Some (Wan 1), update_player 0 (set_hand [Wan 2; Wan 1]) gs)
     ∧ choose_discard 0 (Some (update_player 0 (set_hand [Wan 2; Wan 1]) gs))
       = Ok (Some (Wan 2), gs)).
Proof.
  split.
  - do 2 eexists. split; [vm_compute; reflexivity|].
    split; [vm_compute; discriminate|]. vm_compute. reflexivity.
  - split; vm_compute; reflexivity.
Qed.

(** C6, as the code has it. On an empty hand [choose_discard] returns
    [None], raises nothing and leaves the game state as it is. *)
Theorem choose_discard_empty_hand_returns_None (player_idx : nat) (gs : GameState)
    (me : PlayerState) :
  players gs !! player_idx = Some me →
  hand me = [] →
  choose_discard player_idx (Some gs) = Ok (None, gs).
Proof. apply choose_discard_empty. Qed.

Lemma choose_discard_empty_hand_returns_None_witness :
  choose_discard 0 (Some (GameState.init strided_wall))
  = Ok (None, GameState.init strided_wall).
Proof.
  apply (choose_discard_empty_hand_returns_None 0 _ GameState.PlayerState_init);
    reflexivity.
Defined.

(** C6, as the claim has it, fails: before the deal every hand is empty,
    and [choose_discard] raises nothing there; it completes with [None]. *)
Lemma choose_discard_empty_hand_does_not_raise :
  (∀ e, choose_discard 0 (Some (GameState.init strided_wall)) ≠ Raise e)
  ∧ choose_discard 0 (Some (GameState.init strided_wall))
    = Ok (None, GameState.init strided_wall).
Proof. split; [intros e; vm_compute; discriminate|reflexivity]. Qed.

End discard_examples.

(** ** The probability estimate of [agent.py] *)

Section probabilities.
Import MahjongAgent.
Implicit Types (gs : GameState) (visible : gmultiset Tile) (t : Tile).

Lemma lookup_foldl_insert {V} (f : Tile → V) (l : list Tile) : ∀ (m : gmap Tile V) t,
  foldl (λ m t, <[t := f t]> m) m l !! t
  = if decide (t ∈ l) then Some (f t) else m !! t.
Proof.
  induction l as [|x l IH]; intros m t; [done|].
  cbn [foldl]. rewrite IH.
  destruct (decide (t ∈ l)) as [Hin|Hout].
  - rewrite decide_True; [done|by right].
  - destruct (decide (t = x)) as [->|Hne].
    + rewrite decide_True by left. by rewrite lookup_insert_eq.
    + rewrite decide_False by (rewrite elem_of_cons; tauto).
      by rewrite lookup_insert_ne.
Qed.





(** The quotients of the estimate, one by one: at most four copies of a
    tile are left, and at most 108 tiles are unknown. The float is not
    negative, not above 1 when the copies left are among the unknown
    tiles, and away from the exact quotient by at most 2^-53 of it. *)
Lemma float_div_small (r u : Z) :
  0 ≤ r ≤ 4 → 0 < u ≤ 108 →
  (0 <= float_div r u)%Q
  ∧ (r ≤ u → (float_div r u <= 1)%Q)
  ∧ (Qabs (float_div r u - inject_Z r / inject_Z u)
     <= inject_Z r / inject_Z u * (1 # 2 ^ 53))%Q.
Proof.
  intros Hr Hu.
  assert (Hall : forallb (λ r, forallb (λ u,
            Qle_bool 0 (float_div r u)
            && implb (r <=? u) (Qle_bool (float_div r u) 1)
            && Qle_bool (Qabs (float_div r u - inject_Z r / inject_Z u))
                        (inject_Z r / inject_Z u * (1 # 2 ^ 53)))
          (seqZ 1 108)) (seqZ 0 5) = true) by (vm_compute; reflexivity).
  rewrite forallb_forall in Hall.
  specialize (Hall r). rewrite <- list_elem_of_In, elem_of_seqZ in Hall.
  specialize (Hall ltac:(lia)). rewrite forallb_forall in Hall.
  specialize (Hall u). rewrite <- list_elem_of_In, elem_of_seqZ in Hall.
  specialize (Hall ltac:(lia)).
  apply andb_prop in Hall as [[Hpos Hone]%andb_prop Hclose].
  split; [by apply Qle_bool_iff|]. split; [|by apply Qle_bool_iff].
  intros Hle. apply Qle_bool_iff.
  by rewrite (proj2 (Z.leb_le r u) Hle) in Hone.
Qed.

(** Three quotients, as [float.as_integer_ratio()] gives them. *)
Lemma float_div_examples :
  (float_div 1 3 == 6004799503160661 # 18014398509481984)%Q
  ∧ (float_div 4 94 == 6132561194717271 # 144115188075855872)%Q
  ∧ (float_div 4 55 == 2620276146833743 # 36028797018963968)%Q
  ∧ (float_div 1 2 == 1 # 2)%Q.
Proof. repeat split; vm_compute; reflexivity. Qed.

(** What a seat of the engine sees is part of the 108 tiles of the game. *)
Lemma visible_in_game player_idx gs (me : PlayerState) :
  engine_invariant gs →
  players gs !! player_idx = Some me →
  ∃ visible, visible_tiles player_idx gs = Ok visible
             ∧ visible ⊆ Counter GameState.fresh_wall.
Proof.
  intros [Hlen Htiles Hmelds] Hme. unfold visible_tiles.
  rewrite (player_Some _ _ _ Hme). cbn [mbind res_bind mret res_ret].
  eexists. split; [reflexivity|]. rewrite <- Htiles. unfold all_tiles.
  destruct (players gs) as [|p0 [|p1 [|p2 [|p3 [|]]]]]; try done.
  apply Forall_cons in Hmelds as [Hm0 Hmelds]. apply Forall_cons in Hmelds as [Hm1 Hmelds].
  apply Forall_cons in Hmelds as [Hm2 Hmelds]. apply Forall_cons in Hmelds as [Hm3 _].
  unfold player_tiles. cbn [foldl mbind list_bind]. rewrite Hm0, Hm1, Hm2, Hm3.
  cbn [foldl concat]. rewrite !app_nil_r, !Counter_app.
  intros t. rewrite !multiplicity_disj_union, multiplicity_empty.
  destruct player_idx as [|[|[|[|]]]]; simplify_eq/=; lia.
Qed.



End probabilities.

(** ** Conservation of the tiles *)

Section conservation.
Import InteractiveMahjongGame.
Implicit Types (gs : GameState) (p me : PlayerState) (i : nat) (tile : Tile).

(** In a game of [MahjongGame.play_game] the count is 108 at the head of
    every round: the engine deals, draws and discards, and forms no meld. *)
Lemma engine_conservation gs : reachable gs → tile_total gs = 108%nat.
Proof. intros Hgs. by apply engine_invariant_total, reachable_invariant. Qed.

Lemma tile_total_players gs :
  tile_total gs = (length (wall_tiles gs) + sum_list_with player_count (players gs))%nat.
Proof.
  unfold tile_total. generalize (players gs) as ps.
  induction ps as [|p ps IH]; [cbn; lia|].
  cbn [sum_list_with]. unfold player_count at 1. lia.
Qed.

Lemma sum_list_with_alter {A} (f : A → nat) (g : A → A) (l : list A) i x :
  l !! i = Some x →
  (sum_list_with f (alter g i l) + f x = sum_list_with f l + f (g x))%nat.
Proof.
  revert i. induction l as [|y l IH]; intros [|i] Hx; simplify_eq/=; [lia|].
  specialize (IH i Hx). lia.
Qed.

Lemma tile_total_update gs i f p :
  players gs !! i = Some p →
  (tile_total (update_player i f gs) + player_count p
   = tile_total gs + player_count (f p))%nat.
Proof.
  intros Hp. rewrite !tile_total_players. cbn [players wall_tiles update_player set_players].
  pose proof (sum_list_with_alter player_count f (players gs) i p Hp). lia.
Qed.

Lemma choose_discard_total gs i discard gs' :
  MahjongAgent.choose_discard i (Some gs) = Ok (discard, gs') →
  tile_total gs' = tile_total gs.
Proof.
  intros Hchoose.
  destruct (players gs !! i) as [me|] eqn:Hme.
  2:{ unfold MahjongAgent.choose_discard, player in Hchoose. by rewrite Hme in Hchoose. }
  destruct (decide (hand me = [])) as [Hnil|Hhand].
  { rewrite (choose_discard_empty _ _ _ Hme Hnil) in Hchoose. by simplify_eq. }
  destruct (choose_discard_spec _ _ _ Hme Hhand) as (t & h' & Heq & _ & Hperm).
  rewrite Heq in Hchoose. simplify_eq.
  pose proof (tile_total_update gs i (set_hand h') me Hme) as Htotal.
  unfold player_count in Htotal. cbn [hand set_hand revealed_melds discards] in Htotal.
  apply Permutation_length in Hperm. lia.
Qed.

Lemma commit_discard_total gs i discard gs' :
  commit_discard i discard gs = Ok gs' → tile_total gs' = tile_total gs.
Proof.
  intros Hcommit. unfold commit_discard in Hcommit.
  apply bind_Ok in Hcommit as (me & Hme%player_Ok & Hcommit).
  apply bind_Ok in Hcommit as (removed & Hrm%or_raise_Ok & [= <-]).
  rewrite update_player_twice.
  pose proof (tile_total_update gs i
                ((λ p, set_discards (discards p ++ [discard]) p) ∘ set_hand removed)
                me Hme) as Htotal.
  apply list_remove_length in Hrm.
  unfold player_count in Htotal.
  cbn [hand set_hand set_discards revealed_melds discards compose] in Htotal.
  rewrite length_app in Htotal. cbn [length] in Htotal.
  change (tile_total (set_last_discarded _ ?g)) with (tile_total g). lia.
Qed.

Lemma remove_all_length (tiles h h' : list Tile) :
  remove_all tiles h = Ok h' → length h = (length tiles + length h')%nat.
Proof.
  unfold remove_all. revert h. induction tiles as [|t tiles IH]; intros h Hrm.
  { by injection Hrm as <-. }
  cbn [for_each] in Hrm. apply bind_Ok in Hrm as (h1 & Hh1%or_raise_Ok & Hrm).
  apply list_remove_length in Hh1. apply IH in Hrm. cbn [length]. lia.
Qed.

(** A claimed meld takes two tiles from the hand and counts for three. *)
Lemma form_claimed_meld_total gs i tile gs' :
  form_claimed_meld i tile gs = Ok (true, gs') →
  tile_total gs' = S (tile_total gs).
Proof.
  intros Hform. unfold form_claimed_meld in Hform.
  apply bind_Ok in Hform as (p & Hp%player_Ok & Hform).
  assert (Hmeld : ∀ h two meld,
    remove_all two (hand p) = Ok h → length two = 2%nat →
    tile_total (update_player i
                  (λ p, set_revealed_melds (revealed_melds p ++ [meld]) (set_hand h p)) gs)
    = S (tile_total gs)).
  { intros h two meld Hrm%remove_all_length Htwo.
    pose proof (tile_total_update gs i
                  (λ p, set_revealed_melds (revealed_melds p ++ [meld]) (set_hand h p))
                  p Hp) as Htotal.
    unfold player_count in Htotal.
    cbn [hand set_hand set_revealed_melds revealed_melds discards] in Htotal.
    rewrite length_app in Htotal. cbn [length] in Htotal. lia. }
  destruct (bool_decide (2 ≤ length _)%nat) eqn:Hpung.
  - apply bool_decide_eq_true_1 in Hpung.
    apply bind_Ok in Hform as (h & Hrm & [= <-]).
    apply (Hmeld h _ _ Hrm). by apply length_take_le.
  - destruct (bool_decide (type tile ∈ suits)); [|done].
    destruct (chow_tiles tile (hand p)) as [sequence_tiles|] eqn:Hchow; [|done].
    apply bind_Ok in Hform as (h & Hrm & [= <-]).
    apply (Hmeld h _ _ Hrm).
    unfold chow_tiles in Hchow. apply head_Some_elem_of in Hchow.
    by apply list_elem_of_filter in Hchow as [? _].
Qed.

(** Every claim that [_handle_ai_claim] makes adds one to the count: the
    claimed tile goes into the meld and stays on the pile of the seat
    that discarded it. *)
Lemma handle_ai_claim_total gs i tile gs' :
  _handle_ai_claim i tile gs = Ok (true, gs') →
  tile_total gs' = S (tile_total gs).
Proof.
  intros Hclaim. unfold _handle_ai_claim in Hclaim.
  apply bind_Ok in Hclaim as ([[] gs1] & Hform & Hclaim); [|done].
  apply form_claimed_meld_total in Hform.
  apply bind_Ok in Hclaim as (ai_agent & _ & Hclaim).
  apply bind_Ok in Hclaim as ([discard gs2] & Hchoose & Hclaim).
  apply choose_discard_total in Hchoose.
  apply bind_Ok in Hclaim as (gs3 & Hcommit & [= <-]).
  change (tile_total (set_current_player i gs3)) with (tile_total gs3).
  destruct discard as [discard|].
  - apply commit_discard_total in Hcommit. congruence.
  - injection Hcommit as <-. congruence.
Qed.

(** C2. In the interactive game, seat 1 has discarded 1-Tiao and seat 2
    holds 2-Tiao and 3-Tiao. The state has the 108 tiles of the game.
    [_ai_can_claim] lets seat 2 claim, and after [_handle_ai_claim] the
    count is 109. *)
Theorem claim_breaks_conservation :
  ∃ gs gs',
    claim_scene = Ok (Tiao 1, gs)
    ∧ all_tiles gs ≡ₚ GameState.fresh_wall
    ∧ tile_total gs = 108%nat
    ∧ _ai_can_claim 2 (Tiao 1) gs = Ok true
    ∧ _handle_ai_claim 2 (Tiao 1) gs = Ok (true, gs')
    ∧ tile_total gs' = 109%nat.
Proof.
  do 2 eexists. split; [vm_compute; reflexivity|].
  split; [compute_done|]. split; [reflexivity|]. split; [reflexivity|].
  split; [vm_compute; reflexivity|]. reflexivity.
Qed.

End conservation.

(** * Further properties of the code *)

(** ** [sorted] *)

Section sorting_lemmas.
Context {A : Type} (leb : A → A → bool).
Hypothesis leb_total : ∀ a b, leb a b = true ∨ leb b a = true.
Hypothesis leb_trans : ∀ a b c, leb a b = true → leb b c = true → leb a c = true.

Lemma sorted_insert_elem_of x y l : y ∈ sorted_insert leb x l ↔ y = x ∨ y ∈ l.
Proof. by rewrite sorted_insert_perm, elem_of_cons. Qed.

Lemma sorted_insert_sorted x l :
  StronglySorted (λ a b, leb a b = true) l →
  StronglySorted (λ a b, leb a b = true) (sorted_insert leb x l).
Proof.
  induction 1 as [|y l Hl IH Hy]; [by repeat constructor|].
  cbn. destruct (leb x y) eqn:Hxy.
  - constructor; [by constructor|]. constructor; [done|].
    eapply Forall_impl; [exact Hy|]. intros z Hz. by eapply leb_trans.
  - constructor; [done|]. apply list.Forall_forall. intros z Hz.
    apply sorted_insert_elem_of in Hz as [->|Hz].
    + by destruct (leb_total x y) as [Hle|Hle]; [congruence|].
    + rewrite list.Forall_forall in Hy. by apply Hy.
Qed.

Lemma sorted_sorted l : StronglySorted (λ a b, leb a b = true) (sorted leb l).
Proof.
  induction l as [|x l IH]; [constructor|]. by apply sorted_insert_sorted.
Qed.

(** Where the order tells any two elements apart, the sorted list is
    the same for every order the elements come in. *)
Lemma sorted_perm_eq l l' :
  (∀ a b, leb a b = true → leb b a = true → a = b) →
  l ≡ₚ l' → sorted leb l = sorted leb l'.
Proof.
  intros Hanti Hperm.
  apply (StronglySorted_unique_strong (λ a b, leb a b = true));
    [by auto|apply sorted_sorted..|].
  by rewrite !sorted_perm.
Qed.

(** A list that is in order is left as it is. *)
Lemma sorted_id l :
  (∀ a b, leb a b = true → leb b a = true → a = b) →
  StronglySorted (λ a b, leb a b = true) l → sorted leb l = l.
Proof.
  intros Hanti Hl.
  apply (StronglySorted_unique_strong (λ a b, leb a b = true));
    [by auto|apply sorted_sorted|done|apply sorted_perm].
Qed.
End sorting_lemmas.

Section tile_order.

Lemma Z_leb_total (a b : Z) : (a <=? b) = true ∨ (b <=? a) = true.
Proof. rewrite !Z.leb_le. lia. Qed.

Lemma Z_leb_trans (a b c : Z) : (a <=? b) = true → (b <=? c) = true → (a <=? c) = true.
Proof. rewrite !Z.leb_le. lia. Qed.

Lemma Z_leb_antisym (a b : Z) : (a <=? b) = true → (b <=? a) = true → a = b.
Proof. rewrite !Z.leb_le. lia. Qed.

Lemma elem_of_suits (ty : TileType) : ty ∈ suits.
Proof. destruct ty; unfold suits; rewrite !elem_of_cons; auto. Qed.

Lemma tile_leb_total (a b : Tile) : tile_leb a b = true ∨ tile_leb b a = true.
Proof.
  destruct a as [[] va], b as [[] vb]; unfold tile_leb, key_leb; simpl;
    rewrite ?Z.leb_le; try lia; auto.
Qed.

Lemma tile_leb_trans (a b c : Tile) :
  tile_leb a b = true → tile_leb b c = true → tile_leb a c = true.
Proof.
  destruct a as [[] va], b as [[] vb], c as [[] vc]; unfold tile_leb, key_leb; simpl;
    rewrite ?Z.leb_le; try done; lia.
Qed.

Lemma tile_leb_antisym (a b : Tile) :
  tile_leb a b = true → tile_leb b a = true → a = b.
Proof.
  destruct a as [[] va], b as [[] vb]; unfold tile_leb, key_leb; simpl;
    rewrite ?Z.leb_le; try done; intros; f_equal; lia.
Qed.

Lemma sorted_tiles_sorted (tiles : list Tile) :
  StronglySorted (λ a b, tile_leb a b = true) (sorted_tiles tiles).
Proof. apply sorted_sorted; [apply tile_leb_total|apply tile_leb_trans]. Qed.

Lemma sorted_tiles_perm_eq (tiles tiles' : list Tile) :
  tiles ≡ₚ tiles' → sorted_tiles tiles = sorted_tiles tiles'.
Proof.
  apply sorted_perm_eq;
    [apply tile_leb_total|apply tile_leb_trans|apply tile_leb_antisym].
Qed.

Lemma sorted_values_perm_eq (values values' : list Z) :
  values ≡ₚ values' → sorted Z.leb values = sorted Z.leb values'.
Proof.
  apply sorted_perm_eq; [apply Z_leb_total|apply Z_leb_trans|apply Z_leb_antisym].
Qed.

End tile_order.

(** ** More on the rules of [mahjong_logic.py] *)

Section logic_rules.
Import MahjongLogic.
Implicit Types (t : Tile) (tiles rest : list Tile).

(** Lists three by three. *)
Lemma list_ind3 {A} (P : list A → Prop) :
  P [] → (∀ a, P [a]) → (∀ a b, P [a; b]) →
  (∀ a b c l, P l → P (a :: b :: c :: l)) →
  ∀ l, P l.
Proof.
  intros Hnil Hone Htwo Hstep.
  assert (H3 : ∀ l, P l ∧ (∀ a, P (a :: l)) ∧ (∀ a b, P (a :: b :: l))).
  { induction l as [|x l (IH0 & IH1 & IH2)]; [done|].
    split; [apply IH1|]. split; [intros a; apply IH2|]. intros a b. by apply Hstep. }
  intros l. apply H3.
Qed.

Lemma forallb_elem_of {A} (f : A → bool) (l : list A) :
  forallb f l = true ↔ ∀ x, x ∈ l → f x = true.
Proof.
  rewrite forallb_forall. split; intros H x Hx; apply H; by apply list_elem_of_In.
Qed.

Lemma existsb_elem_of {A} (f : A → bool) (l : list A) :
  existsb f l = true ↔ ∃ x, x ∈ l ∧ f x = true.
Proof.
  rewrite existsb_exists. split; intros (x & Hx & Hf); exists x; split; try done;
    by apply list_elem_of_In.
Qed.

Lemma same_tile_decide t t0 :
  bool_decide (type t = type t0) && bool_decide (value t = value t0) = bool_decide (t = t0).
Proof.
  destruct t as [ty v], t0 as [ty0 v0]. cbn.
  repeat case_bool_decide; simplify_eq; done.
Qed.

Lemma pung_head_decide t0 t1 t2 :
  pung_head t0 t1 t2 = bool_decide (t0 = t1 ∧ t1 = t2).
Proof.
  destruct t0 as [ty0 v0], t1 as [ty1 v1], t2 as [ty2 v2]. unfold pung_head. cbn.
  repeat case_bool_decide; try done; destruct_and?; simplify_eq; try done.
  all: exfalso; auto.
Qed.

Lemma can_form_melds_cons t0 t1 t2 rest :
  can_form_melds (t0 :: t1 :: t2 :: rest)
  = (length rest mod 3 =? 0)%nat
    && (pung_head t0 t1 t2 || chow_head t0 t1 t2)
    && can_form_melds rest.
Proof.
  cbn [can_form_melds].
  replace (length (t0 :: t1 :: t2 :: rest) mod 3)%nat with (length rest mod 3)%nat.
  2:{ cbn [length]. replace (S (S (S (length rest)))) with (length rest + 1 * 3)%nat by lia.
      by rewrite Nat.Div0.mod_add. }
  by destruct (_ =? _)%nat, (pung_head _ _ _), (chow_head _ _ _).
Qed.

Lemma can_form_melds_length tiles :
  can_form_melds tiles = true → (length tiles mod 3 = 0)%nat.
Proof.
  induction tiles as [|a|a b|a b c rest IH] using list_ind3; [done..|].
  rewrite can_form_melds_cons. intros [[Hlen _]%andb_true_iff _]%andb_true_iff.
  apply Nat.eqb_eq in Hlen. cbn [length].
  replace (S (S (S (length rest)))) with (length rest + 1 * 3)%nat by lia.
  by rewrite Nat.Div0.mod_add.
Qed.

Lemma sorted_run (v : Z) : sorted Z.leb [v; v + 1; v + 2] = [v; v + 1; v + 2].
Proof.
  cbn. destruct (Z.leb_spec (v + 1) (v + 2)); [|lia]. cbn.
  destruct (Z.leb_spec v (v + 1)); [done|lia].
Qed.

Lemma seqZ_run (v : Z) : seqZ v 3 = [v; v + 1; v + 2].
Proof. unfold seqZ. change (Z.to_nat 3) with 3%nat. cbn. repeat (f_equal; try lia). Qed.

Lemma perm_triple {A} (l : list A) (a b c : A) :
  l ≡ₚ [a; b; c] → ∃ x y z, l = [x; y; z].
Proof.
  intros Hperm. pose proof (Permutation_length Hperm) as Hlen.
  destruct l as [|x [|y [|z [|]]]]; try done. by eauto.
Qed.

Lemma is_valid_meld_run (ty : TileType) (v : Z) tiles :
  tiles ≡ₚ [mkTile ty v; mkTile ty (v + 1); mkTile ty (v + 2)] →
  is_valid_meld tiles = true.
Proof.
  intros Hperm. destruct (perm_triple _ _ _ _ Hperm) as (t0 & t1 & t2 & ->).
  assert (Htypes : ∀ t, t ∈ [t0; t1; t2] → type t = ty).
  { intros t. rewrite Hperm, !elem_of_cons, elem_of_nil. by intros [->|[->|[->|[]]]]. }
  assert (Hvalues : value <$> [t0; t1; t2] ≡ₚ [v; v + 1; v + 2]) by (by rewrite Hperm).
  unfold is_valid_meld.
  destruct (forallb _ _) eqn:Hall; [done|].
  assert (Hsuit : forallb (λ t, bool_decide (type t = type t0)) [t0; t1; t2]
                  && bool_decide (type t0 ∈ suits) = true).
  { rewrite (Htypes t0), (bool_decide_true (ty ∈ suits))
      by first [apply elem_of_suits|by left].
    rewrite andb_true_r. apply forallb_elem_of.
    intros t Ht. apply bool_decide_eq_true_2. by apply Htypes. }
  rewrite Hsuit. apply bool_decide_eq_true_2.
  rewrite (sorted_values_perm_eq _ _ Hvalues), sorted_run, seqZ_run.
  assert (Hlo : value t0 ∈ [v; v + 1; v + 2]).
  { rewrite <- Hvalues. cbn. left. }
  cbn [foldr]. rewrite !elem_of_cons, elem_of_nil in Hlo.
  replace (Z.min v (Z.min (v + 1) (Z.min (v + 2) (value t0)))) with v by lia.
  done.
Qed.

(** The melds [is_valid_meld] accepts, whatever the order of the tiles:
    three times one tile, or the ranks v, v+1, v+2 of one suit. *)
Lemma is_valid_meld_iff tiles :
  is_valid_meld tiles = true
  ↔ (∃ t, tiles = [t; t; t])
    ∨ (∃ ty v, tiles ≡ₚ [mkTile ty v; mkTile ty (v + 1); mkTile ty (v + 2)]).
Proof.
  split.
  - destruct tiles as [|t0 [|t1 [|t2 [|]]]]; try done.
    unfold is_valid_meld. destruct (forallb _ _) eqn:Hall.
    { intros _. left. exists t0.
      rewrite forallb_elem_of in Hall.
      assert (Heq : ∀ t, t ∈ [t0; t1; t2] → t = t0).
      { intros t Ht. specialize (Hall t Ht). rewrite same_tile_decide in Hall.
        by apply bool_decide_eq_true_1 in Hall. }
      rewrite (Heq t1), (Heq t2); [done|set_solver..]. }
    destruct (forallb _ _ && _) eqn:Hsuit; [|done].
    intros Hrun%bool_decide_eq_true_1. right.
    apply andb_true_iff in Hsuit as [Htypes _].
    rewrite forallb_elem_of in Htypes.
    set (lo := foldr Z.min (value t0) _) in Hrun. rewrite seqZ_run in Hrun.
    exists (type t0), lo.
    assert (Hvalues : value <$> [t0; t1; t2] ≡ₚ [lo; lo + 1; lo + 2]).
    { by rewrite <- Hrun, sorted_perm. }
    assert (Hfmap : [t0; t1; t2] = mkTile (type t0) <$> (value <$> [t0; t1; t2])).
    { assert (Hty : ∀ t, t ∈ [t0; t1; t2] → type t = type t0).
      { intros t Ht. specialize (Htypes t Ht). by apply bool_decide_eq_true_1 in Htypes. }
      assert (Hmk : ∀ t, t ∈ [t0; t1; t2] → mkTile (type t0) (value t) = t).
      { intros t Ht. rewrite <- (Hty t Ht). by destruct t. }
      cbn. rewrite !Hmk; [done|set_solver..]. }
    rewrite Hfmap, Hvalues. done.
  - intros [[t ->]|(ty & v & Hperm)]; [|by eapply is_valid_meld_run].
    unfold is_valid_meld. cbn [forallb]. rewrite !same_tile_decide, !bool_decide_true by done.
    reflexivity.
Qed.

Lemma is_valid_meld_perm tiles tiles' :
  tiles ≡ₚ tiles' → is_valid_meld tiles' = is_valid_meld tiles.
Proof.
  intros Hperm. apply Bool.eq_iff_eq_true. rewrite !is_valid_meld_iff.
  split; (intros [[t Ht]|(ty & v & Hrun)]; [left; exists t|right; exists ty, v]).
  - subst tiles'. symmetry. by apply (replicate_Permutation 3 t).
  - by rewrite Hperm.
  - subst tiles. symmetry. by apply (replicate_Permutation 3 t).
  - by rewrite <- Hperm.
Qed.

(** X1. [is_valid_meld] accepts three copies of one tile and the ranks
    v, v+1, v+2 of one suit, in any order, and nothing else; its answer
    does not depend on the order of the tiles. *)
Theorem is_valid_meld_any_order tiles :
  (is_valid_meld tiles = true
   ↔ (∃ t, tiles = [t; t; t])
     ∨ (∃ ty v, tiles ≡ₚ [mkTile ty v; mkTile ty (v + 1); mkTile ty (v + 2)]))
  ∧ (∀ tiles', tiles ≡ₚ tiles' → is_valid_meld tiles' = is_valid_meld tiles).
Proof. split; [apply is_valid_meld_iff|apply is_valid_meld_perm]. Qed.

Lemma is_valid_meld_any_order_witness :
  is_valid_meld [mkTile TONG 5; mkTile TONG 3; mkTile TONG 4] = true
  ∧ is_valid_meld [mkTile TONG 4; mkTile TONG 5; mkTile TONG 3]
    = is_valid_meld [mkTile TONG 3; mkTile TONG 4; mkTile TONG 5].
Proof.
  split.
  - apply (proj1 (is_valid_meld_any_order [mkTile TONG 5; mkTile TONG 3; mkTile TONG 4])).
    right. exists TONG, 3. compute_done.
  - apply (proj2 (is_valid_meld_any_order [mkTile TONG 3; mkTile TONG 4; mkTile TONG 5])).
    compute_done.
Defined.

(** A valid meld passes the test of [can_form_melds] on three tiles. *)
Lemma is_valid_meld_head t0 t1 t2 :
  is_valid_meld [t0; t1; t2] = true → pung_head t0 t1 t2 || chow_head t0 t1 t2 = true.
Proof.
  intros [[t [= -> -> ->]]|(ty & v & Hperm)]%is_valid_meld_iff.
  { by rewrite pung_head_decide, bool_decide_true. }
  apply orb_true_iff. right. apply chow_head_spec.
  assert (Htypes : ∀ t, t ∈ [t0; t1; t2] → type t = ty).
  { intros t. rewrite Hperm, !elem_of_cons, elem_of_nil. by intros [->|[->|[->|[]]]]. }
  rewrite (Htypes t0), (Htypes t1), (Htypes t2)
    by (rewrite !elem_of_cons; auto). split; [done|]. split; [done|].
  assert (Hvalues : ∀ x, x ∈ value <$> [t0; t1; t2] ↔ x ∈ [v; v + 1; v + 2]).
  { intros x. by rewrite Hperm. }
  cbn in Hvalues.
  pose proof (proj1 (Hvalues (value t0)) ltac:(by left)) as H0.
  pose proof (proj1 (Hvalues (value t1)) ltac:(by right; left)) as H1.
  pose proof (proj1 (Hvalues (value t2)) ltac:(by do 2 right; left)) as H2.
  pose proof (proj2 (Hvalues v) ltac:(by left)) as Hlo.
  pose proof (proj2 (Hvalues (v + 2)) ltac:(by do 2 right; left)) as Hhi.
  rewrite !elem_of_cons, elem_of_nil in H0, H1, H2, Hlo, Hhi. lia.
Qed.

Lemma can_form_melds_app a b :
  (length a mod 3 = 0)%nat →
  can_form_melds (a ++ b) = can_form_melds a && can_form_melds b.
Proof.
  induction a as [|x|x y|x y z a IH] using list_ind3; [done..|].
  intros Hlen. cbn [length] in Hlen.
  replace (S (S (S (length a)))) with (length a + 1 * 3)%nat in Hlen by lia.
  rewrite Nat.Div0.mod_add in Hlen.
  cbn [app]. rewrite !can_form_melds_cons, (IH Hlen), Hlen, length_app.
  destruct (can_form_melds b) eqn:Hb.
  - apply can_form_melds_length in Hb.
    rewrite <- Nat.Div0.add_mod_idemp_l, Hlen, Nat.add_0_l, Hb.
    by rewrite !andb_true_r.
  - by rewrite !andb_false_r.
Qed.

(** X2. [can_form_melds] accepts a list exactly when the list falls,
    three tiles at a time from its front, into groups that are three
    equal tiles or three tiles of one suit whose highest and lowest ranks
    differ by two. *)
Theorem can_form_melds_groups tiles :
  can_form_melds tiles = true
  ↔ ∃ groups : list (list Tile),
      tiles = concat groups
      ∧ Forall (λ group,
                  ∃ t0 t1 t2, group = [t0; t1; t2]
                    ∧ ((t0 = t1 ∧ t1 = t2)
                       ∨ (type t1 = type t0 ∧ type t2 = type t0
                          ∧ Z.max (value t0) (Z.max (value t1) (value t2))
                            - Z.min (value t0) (Z.min (value t1) (value t2)) = 2)))
               groups.
Proof.
  split.
  - induction tiles as [|x|x y|t0 t1 t2 rest IH] using list_ind3; [|done..|].
    { intros _. by exists []. }
    rewrite can_form_melds_cons.
    intros [[_ Hhead]%andb_true_iff (groups & -> & Hgroups)%IH]%andb_true_iff.
    exists ([t0; t1; t2] :: groups). split; [done|]. constructor; [|done].
    exists t0, t1, t2. split; [done|].
    apply orb_true_iff in Hhead as [Hpung|Hchow].
    + left. rewrite pung_head_decide in Hpung. by apply bool_decide_eq_true_1 in Hpung.
    + right. by apply chow_head_spec.
  - intros (groups & -> & Hgroups).
    induction Hgroups as [|group groups (t0 & t1 & t2 & -> & Hgroup) _ IH]; [done|].
    cbn [concat]. rewrite can_form_melds_app by done. rewrite IH, andb_true_r.
    rewrite can_form_melds_cons. cbn.
    destruct Hgroup as [Hpung|Hchow%chow_head_spec].
    + by rewrite pung_head_decide, bool_decide_true.
    + rewrite Hchow. by rewrite orb_true_r.
Qed.

(** X3. Whatever valid melds are put one after the other,
    [can_form_melds] accepts the list. *)
Theorem can_form_melds_concat (melds : list (list Tile)) :
  Forall (λ meld, is_valid_meld meld = true) melds →
  can_form_melds (concat melds) = true.
Proof.
  induction 1 as [|meld melds Hmeld _ IH]; [done|].
  destruct meld as [|t0 [|t1 [|t2 [|]]]]; try done.
  cbn [concat]. rewrite can_form_melds_app by done. rewrite IH, andb_true_r.
  rewrite can_form_melds_cons. cbn. by rewrite is_valid_meld_head.
Qed.

Lemma can_form_melds_concat_witness :
  can_form_melds (concat [[mkTile WAN 3; mkTile WAN 1; mkTile WAN 2];
                          [mkTile TIAO 7; mkTile TIAO 7; mkTile TIAO 7]]) = true.
Proof.
  apply can_form_melds_concat. repeat constructor.
Defined.

(** X4. [is_winning_hand] sorts the tiles first: its answer is the same
    for every order in which the hand is held. *)
Theorem is_winning_hand_any_order tiles tiles' :
  tiles ≡ₚ tiles' → is_winning_hand tiles = is_winning_hand tiles'.
Proof.
  intros Hperm. unfold is_winning_hand.
  by rewrite (Permutation_length Hperm), (sorted_tiles_perm_eq _ _ Hperm).
Qed.

Lemma is_winning_hand_any_order_witness :
  is_winning_hand (mkTile WAN 1 :: mkTile TONG 2 :: replicate 12 (mkTile TIAO 3))
  = is_winning_hand (mkTile TONG 2 :: mkTile WAN 1 :: replicate 12 (mkTile TIAO 3)).
Proof. apply is_winning_hand_any_order. apply Permutation_swap. Defined.

(** X5. A hand that [is_winning_hand] accepts has 14 tiles, among them
    two equal ones that leave twelve tiles which [can_form_melds]
    accepts in sorted order. *)
Theorem is_winning_hand_pair tiles :
  is_winning_hand tiles = true →
  length tiles = 14%nat
  ∧ ∃ t rest,
      tiles ≡ₚ t :: t :: rest
      ∧ StronglySorted (λ a b, tile_leb a b = true) rest
      ∧ can_form_melds rest = true.
Proof.
  unfold is_winning_hand. destruct (length tiles =? 14)%nat eqn:Hlen; [|done].
  apply Nat.eqb_eq in Hlen. cbn [negb].
  intros (i & _ & Hpair)%existsb_elem_of. split; [done|].
  unfold pair_at in Hpair.
  destruct (sorted_tiles tiles !! i) as [a|] eqn:Ha; [|done].
  destruct (sorted_tiles tiles !! S i) as [b|] eqn:Hb; [|done].
  apply andb_true_iff in Hpair as [Heq Hmelds].
  unfold is_valid_pair in Heq. rewrite same_tile_decide in Heq.
  apply bool_decide_eq_true_1 in Heq as ->.
  exists b, (take i (sorted_tiles tiles) ++ drop (i + 2) (sorted_tiles tiles)).
  assert (Hsplit : sorted_tiles tiles
                   = take i (sorted_tiles tiles) ++ b :: b :: drop (i + 2) (sorted_tiles tiles)).
  { rewrite <- (take_drop i (sorted_tiles tiles)) at 1. f_equal.
    rewrite (drop_S _ b i Ha), (drop_S _ b (S i) Hb). do 3 f_equal. lia. }
  split; [|split; [|done]].
  - unfold sorted_tiles in *. rewrite <- (sorted_perm tile_leb tiles), Hsplit at 1.
    by rewrite !Permutation_middle.
  - pose proof (sorted_tiles_sorted tiles) as Hsorted. rewrite Hsplit in Hsorted.
    apply StronglySorted_app in Hsorted as (Hlt & Hl & Hr).
    apply StronglySorted_app_2; [|done|by do 2 apply StronglySorted_inv in Hr as [Hr _]].
    intros x1 x2 Hx1 Hx2. apply Hlt; [done|]. by do 2 right.
Qed.

End logic_rules.

Section logic_lists.
Import MahjongLogic.
Implicit Types (t : Tile) (tiles hand : list Tile).

Lemma elem_of_Counter t tiles : (0 < multiplicity t (Counter tiles))%nat ↔ t ∈ tiles.
Proof.
  unfold Counter. rewrite <- elem_of_multiplicity. apply elem_of_list_to_set_disj.
Qed.

Lemma elem_of_tile_identities t :
  t ∈ tile_identities ↔ 1 ≤ value t ≤ 9.
Proof.
  unfold tile_identities. rewrite list_elem_of_bind. split.
  - intros (ty & (v & ->%list_elem_of_singleton & Hv%elem_of_seqZ)%list_elem_of_bind & _).
    cbn. lia.
  - intros Hv. exists (type t). split; [|apply elem_of_suits].
    apply list_elem_of_bind. exists (value t). split; [destruct t; by left|].
    apply elem_of_seqZ. lia.
Qed.

(** X6. Every meld that [find_all_melds] lists is made of tiles of the
    hand and is one that [is_valid_meld] accepts; three copies of a tile
    held three times are listed, and so is every run of the ranks
    v, v+1, v+2, from 1 to 9, of which the hand holds each tile. *)
Theorem find_all_melds_valid tiles :
  (∀ meld, meld ∈ find_all_melds tiles →
           is_valid_meld meld = true ∧ ∀ t, t ∈ meld → t ∈ tiles)
  ∧ (∀ t, (3 ≤ HandScore.copies t tiles)%nat → [t; t; t] ∈ find_all_melds tiles)
  ∧ (∀ ty v, 1 ≤ v ≤ 7 →
             mkTile ty v ∈ tiles → mkTile ty (v + 1) ∈ tiles → mkTile ty (v + 2) ∈ tiles →
             [mkTile ty v; mkTile ty (v + 1); mkTile ty (v + 2)] ∈ find_all_melds tiles).
Proof.
  unfold find_all_melds. split; [|split].
  - intros meld [Hpung|Hchow]%elem_of_app.
    + apply list_elem_of_fmap in Hpung as (t & -> & [_ Ht]%list_elem_of_filter).
      apply elem_of_elements, elem_of_list_to_set in Ht.
      split; [apply is_valid_meld_iff; left; by exists t|].
      by intros t' ->%elem_of_replicate_inv.
    + apply list_elem_of_bind in Hchow as (ty & Hchow & _).
      apply list_elem_of_bind in Hchow as (v & Hchow & _).
      destruct (forallb _ _) eqn:Hall; [|by apply elem_of_nil in Hchow].
      apply list_elem_of_singleton in Hchow as ->.
      split; [apply is_valid_meld_iff; right; by exists ty, v|].
      rewrite forallb_elem_of in Hall. intros t Ht. specialize (Hall t Ht).
      apply bool_decide_eq_true_1 in Hall. by apply elem_of_Counter.
  - intros t Ht. apply elem_of_app. left.
    apply (list_elem_of_fmap_2 (λ tile, replicate 3 tile) _ t), list_elem_of_filter.
    rewrite multiplicity_Counter. split; [done|].
    apply elem_of_elements, elem_of_list_to_set.
    unfold HandScore.copies in Ht.
    destruct (filter (t =.) tiles) as [|t' ?] eqn:Hf; [cbn in Ht; lia|].
    assert (Hin : t' ∈ filter (t =.) tiles) by (rewrite Hf; left).
    by apply list_elem_of_filter in Hin as [<- ?].
  - intros ty v Hv H0 H1 H2. apply elem_of_app. right.
    apply list_elem_of_bind. exists ty. split; [|apply elem_of_suits].
    apply list_elem_of_bind. exists v. split; [|apply elem_of_seqZ; lia].
    rewrite (proj2 (forallb_elem_of _ _)); [left|].
    intros t Ht. apply bool_decide_eq_true_2, elem_of_Counter.
    rewrite !elem_of_cons, elem_of_nil in Ht. by destruct Ht as [->|[->|[->|[]]]].
Qed.

Lemma find_all_melds_valid_witness :
  [mkTile TONG 2; mkTile TONG 2; mkTile TONG 2]
  ∈ find_all_melds [mkTile TONG 2; mkTile WAN 1; mkTile TONG 2; mkTile TONG 2].
Proof.
  apply (find_all_melds_valid [mkTile TONG 2; mkTile WAN 1; mkTile TONG 2; mkTile TONG 2]).
  vm_compute. lia.
Defined.

(** X7. [evaluate_waiting_tiles] returns, each once, the tiles of the
    ranks 1 to 9 with which the hand is one that [is_winning_hand]
    accepts. *)
Theorem evaluate_waiting_tiles_complete hand :
  NoDup (evaluate_waiting_tiles hand)
  ∧ ∀ t, t ∈ evaluate_waiting_tiles hand
         ↔ 1 ≤ value t ≤ 9 ∧ is_winning_hand (hand ++ [t]) = true.
Proof.
  split.
  - unfold evaluate_waiting_tiles.
    assert (Hone : ∀ ty v t,
              t ∈ (if is_winning_hand (hand ++ [mkTile ty v]) then [mkTile ty v] else [])
              → t = mkTile ty v).
    { intros ty v t Ht. destruct (is_winning_hand _); [|by apply elem_of_nil in Ht].
      by apply list_elem_of_singleton in Ht. }
    apply NoDup_bind; [| |compute_done].
    + intros ty1 ty2 t _ _ (v1 & ->%Hone & _)%list_elem_of_bind
        (v2 & [= -> _]%Hone & _)%list_elem_of_bind. done.
    + intros ty _. apply NoDup_bind; [| |apply NoDup_seqZ].
      * by intros v1 v2 t _ _ ->%Hone [= ->]%Hone.
      * intros v _. destruct (is_winning_hand _); [apply NoDup_singleton|apply NoDup_nil_2].
  - intros t. unfold evaluate_waiting_tiles. rewrite list_elem_of_bind. split.
    + intros (ty & (v & Ht & Hv%elem_of_seqZ)%list_elem_of_bind & _).
      destruct (is_winning_hand _) eqn:Hwin; [|by apply elem_of_nil in Ht].
      apply list_elem_of_singleton in Ht as ->. cbn. split; [lia|done].
    + intros [Hv Hwin]. exists (type t). split; [|apply elem_of_suits].
      apply list_elem_of_bind. exists (value t). split; [|apply elem_of_seqZ; lia].
      replace (mkTile (type t) (value t)) with t by (by destruct t).
      rewrite Hwin. left.
Qed.

End logic_lists.

(** ** More on the agent of [agent.py] *)

Section agent_more.
Import MahjongAgent.
Implicit Types (gs : GameState) (visible : gmultiset Tile) (t : Tile).

Lemma sum_add {A} (f g : A → Z) (l : list A) :
  foldr Z.add 0 ((λ x, f x + g x) <$> l)
  = foldr Z.add 0 (f <$> l) + foldr Z.add 0 (g <$> l).
Proof. induction l as [|x l IH]; [done|]. rewrite !fmap_cons. cbn [foldr]. lia. Qed.

Lemma sum_ext {A} (f g : A → Z) (l : list A) :
  (∀ x, x ∈ l → f x = g x) → foldr Z.add 0 (f <$> l) = foldr Z.add 0 (g <$> l).
Proof.
  intros Hfg. f_equal. apply list_fmap_ext. intros i x Hx. apply Hfg.
  by eapply list_elem_of_lookup_2.
Qed.

Lemma sum_indicator (l : list Tile) (x : Tile) :
  NoDup l → x ∈ l →
  foldr Z.add 0 ((λ t, if decide (t = x) then 1 else 0) <$> l) = 1.
Proof.
  induction 1 as [|y l Hy Hl IH]; [by intros ?%elem_of_nil|].
  rewrite fmap_cons. cbn [foldr]. intros [->|Hx]%elem_of_cons.
  - rewrite decide_True by done.
    rewrite (sum_ext _ (λ _, 0)), sum_constant; [lia|].
    intros t Ht. rewrite decide_False; [done|]. by intros ->.
  - rewrite decide_False by (by intros ->). rewrite IH by done. lia.
Qed.

(** Counting the tiles of a multiset one tile identity after the other. *)
Lemma sum_multiplicity (l : list Tile) visible :
  NoDup l → (∀ t, t ∈ visible → t ∈ l) →
  foldr Z.add 0 ((λ t, Z.of_nat (multiplicity t visible)) <$> l) = Z.of_nat (size visible).
Proof.
  intros Hl. induction visible as [|x visible IH] using gmultiset_ind.
  { intros _. rewrite gmultiset_size_empty.
    rewrite (sum_ext _ (λ _, 0)), sum_constant; [lia|].
    intros t _. by rewrite multiplicity_empty. }
  intros Hin.
  rewrite gmultiset_size_disj_union, gmultiset_size_singleton.
  rewrite (sum_ext _ (λ t, (if decide (t = x) then 1 else 0)
                           + Z.of_nat (multiplicity t visible))).
  2:{ intros t _. rewrite multiplicity_disj_union, multiplicity_singleton.
      case_decide; lia. }
  rewrite sum_add, sum_indicator, IH; [lia| |done|].
  - intros t Ht. apply Hin. multiset_solver.
  - apply Hin. multiset_solver.
Qed.

Lemma Qsum_quotients {A} (f : A → Z) (u : Z) (l : list A) :
  (foldr Qplus 0 ((λ x, inject_Z (f x) / inject_Z u) <$> l)
   == inject_Z (foldr Z.add 0%Z (f <$> l)) / inject_Z u)%Q.
Proof.
  induction l as [|x l IH]; [cbn; unfold Qdiv; ring|].
  rewrite !fmap_cons. cbn [foldr]. rewrite IH, inject_Z_plus. unfold Qdiv. ring.
Qed.

Lemma Qsum_scale {A} (g : A → Q) (c : Q) (l : list A) :
  (foldr Qplus 0 ((λ x, g x * c) <$> l) == foldr Qplus 0 (g <$> l) * c)%Q.
Proof.
  induction l as [|x l IH]; [cbn; ring|].
  rewrite !fmap_cons. cbn [foldr]. rewrite IH. ring.
Qed.

(** Sums of numbers that are close term by term are close. *)
Lemma Qsum_close {A} (f g h : A → Q) (l : list A) :
  (∀ x, x ∈ l → (Qabs (f x - g x) <= h x)%Q) →
  (Qabs (foldr Qplus 0 (f <$> l) - foldr Qplus 0 (g <$> l))
   <= foldr Qplus 0 (h <$> l))%Q.
Proof.
  induction l as [|x l IH]; intros Hclose; [by cbn|].
  rewrite !fmap_cons. cbn [foldr].
  assert (Hsplit : (f x + foldr Qplus 0 (f <$> l) - (g x + foldr Qplus 0 (g <$> l))
                    == (f x - g x)
                       + (foldr Qplus 0 (f <$> l) - foldr Qplus 0 (g <$> l)))%Q) by ring.
  rewrite Hsplit. eapply Qle_trans; [apply Qabs_triangle|].
  apply Qplus_le_compat; [apply Hclose; left|].
  apply IH. intros y Hy. apply Hclose. by right.
Qed.

Lemma NoDup_tile_identities : NoDup tile_identities.
Proof. compute_done. Qed.

(** X8. While the agent sees tiles of the game only (at most four of
    each) and some tile is unknown, the copies left of the 27 tile
    identities add up to total_unknown, so the exact quotients
    remaining / total_unknown add up to 1; the floats stored for them,
    added as real numbers, are away from 1 by at most 2^-53. *)
Theorem tile_probabilities_sum player_idx gs visible :
  visible_tiles player_idx gs = Ok visible →
  visible ⊆ Counter GameState.fresh_wall →
  0 < total_unknown visible →
  ∃ probabilities : gmap Tile Q,
    calculate_tile_probabilities player_idx (Some gs) = Ok probabilities
    ∧ dom probabilities = list_to_set tile_identities
    ∧ foldr Z.add 0 (remaining visible <$> tile_identities) = total_unknown visible
    ∧ (Qabs (foldr Qplus 0 ((λ t, default 0 (probabilities !! t)) <$> tile_identities) - 1)
       <= 1 # 2 ^ 53)%Q.
Proof.
  intros Hvisible Hsub Hgt. unfold calculate_tile_probabilities. rewrite Hvisible.
  cbn [mbind res_bind]. change (3 * 9 * 4 - Z.of_nat (size visible))
    with (total_unknown visible).
  destruct (Z.leb_spec (total_unknown visible) 0) as [Hle|_]; [lia|].
  eexists. split; [reflexivity|].
  set (probabilities := foldl _ _ _).
  assert (Hlookup : ∀ t, probabilities !! t
    = if decide (t ∈ tile_identities)
      then Some (float_div (remaining visible t) (total_unknown visible))
      else None).
  { intros t. unfold probabilities.
    rewrite (lookup_foldl_insert (probability visible (total_unknown visible))).
    rewrite lookup_empty. case_decide; [|done]. unfold probability.
    by rewrite (proj2 (Z.ltb_lt 0 (total_unknown visible)) Hgt). }
  assert (Hsum : foldr Z.add 0 (remaining visible <$> tile_identities)
                 = total_unknown visible).
  { rewrite (sum_ext _ (λ t, 4 + - Z.of_nat (multiplicity t visible))).
    2:{ intros t Ht. unfold remaining.
        pose proof (Hsub t) as Hfour. rewrite (fresh_wall_four t Ht) in Hfour. lia. }
    rewrite sum_add, sum_constant.
    assert (Hneg : ∀ l : list Tile,
              foldr Z.add 0 ((λ t, - Z.of_nat (multiplicity t visible)) <$> l)
              = - foldr Z.add 0 ((λ t, Z.of_nat (multiplicity t visible)) <$> l)).
    { induction l as [|x l IH]; [done|]. rewrite !fmap_cons. cbn [foldr]. lia. }
    rewrite Hneg, sum_multiplicity; [|apply NoDup_tile_identities|].
    - unfold total_unknown. change (length tile_identities) with 27%nat. lia.
    - intros t Ht. apply fresh_wall_identities.
      by eapply gmultiset_elem_of_subseteq. }
  split; [|split; [exact Hsum|]].
  - apply set_eq. intros t. rewrite elem_of_dom, Hlookup, elem_of_list_to_set.
    case_decide; [by split; [|eexists]|]. split; [by intros [? ?]|done].
  - assert (Hlist : (λ t, default 0%Q (probabilities !! t)) <$> tile_identities
                    = (λ t, float_div (remaining visible t) (total_unknown visible))
                        <$> tile_identities).
    { apply list_fmap_ext. intros i t Ht. apply list_elem_of_lookup_2 in Ht.
      by rewrite Hlookup, decide_True. }
    rewrite Hlist.
    pose (exact := λ t, (inject_Z (remaining visible t)
                         / inject_Z (total_unknown visible))%Q).
    assert (Hone : (foldr Qplus 0 (exact <$> tile_identities) == 1)%Q).
    { unfold exact. rewrite Qsum_quotients, Hsum. apply Qmult_inv_r.
      intros Hzero. apply (Qlt_irrefl 0). rewrite <- Hzero at 2.
      change 0%Q with (inject_Z 0). by rewrite <- Zlt_Qlt. }
    pose proof (Qsum_close
                  (λ t, float_div (remaining visible t) (total_unknown visible))
                  exact (λ t, exact t * (1 # 2 ^ 53))%Q tile_identities) as Hclose.
    rewrite Qsum_scale, Hone, Qmult_1_l in Hclose. apply Hclose.
    intros t _. apply float_div_small; [unfold remaining; lia|].
    split; [done|unfold total_unknown; lia].
Qed.

Lemma tile_probabilities_sum_witness :
  ∃ probabilities : gmap Tile Q,
    calculate_tile_probabilities 0 (Some first_draw) = Ok probabilities
    ∧ dom probabilities = list_to_set tile_identities
    ∧ foldr Z.add 0 (remaining (Counter (hand first_drawer)) <$> tile_identities)
      = total_unknown (Counter (hand first_drawer))
    ∧ (Qabs (foldr Qplus 0 ((λ t, default 0 (probabilities !! t)) <$> tile_identities) - 1)
       <= 1 # 2 ^ 53)%Q.
Proof.
  eapply (tile_probabilities_sum 0 first_draw).
  - vm_compute. reflexivity.
  - compute_done.
  - compute_done.
Defined.

Lemma find_all_melds_perm (tiles tiles' : list Tile) :
  tiles ≡ₚ tiles' → MahjongLogic.find_all_melds tiles = MahjongLogic.find_all_melds tiles'.
Proof.
  intros Hperm. unfold MahjongLogic.find_all_melds, Counter.
  by rewrite (list_to_set_disj_perm _ _ Hperm), (list_to_set_perm_L _ _ Hperm).
Qed.

(** The local variables of [evaluate_hand] are the same for every order
    of the hand. *)
Lemma evaluate_perm (tiles tiles' : list Tile) :
  tiles ≡ₚ tiles' → evaluate tiles = evaluate tiles'.
Proof.
  intros Hperm. unfold evaluate.
  rewrite (find_all_melds_perm _ _ Hperm).
  assert (HC : Counter tiles = Counter tiles') by (by apply list_to_set_disj_perm).
  assert (Hseq : ∀ ty, sorted Z.leb (value <$> filter (λ t, type t = ty) tiles)
                       = sorted Z.leb (value <$> filter (λ t, type t = ty) tiles')).
  { intros ty. apply sorted_values_perm_eq. by rewrite Hperm. }
  assert (Hterm : foldr Z.add 0 ((λ _, 1) <$> filter (λ t, value t ∈ [1; 9]) tiles)
                  = foldr Z.add 0 ((λ _, 1) <$> filter (λ t, value t ∈ [1; 9]) tiles')).
  { rewrite !sum_constant. by rewrite Hperm. }
  cbn [foldl suits]. by rewrite HC, !Hseq, Hterm.
Qed.

(** X9. The score of [evaluate_hand] does not depend on the order in
    which the seat holds its tiles. *)
Theorem evaluate_hand_any_order player_idx gs gs' (me me' : PlayerState) :
  players gs !! player_idx = Some me →
  players gs' !! player_idx = Some me' →
  hand me ≡ₚ hand me' →
  evaluate_hand player_idx (Some gs) = evaluate_hand player_idx (Some gs').
Proof.
  intros Hme Hme' Hperm. unfold evaluate_hand.
  rewrite (player_Some _ _ _ Hme), (player_Some _ _ _ Hme'). cbn [mbind res_bind].
  rewrite (evaluate_perm _ _ Hperm).
  destruct (hand me) as [|t h], (hand me') as [|t' h']; try done.
  - by apply Permutation_nil_cons in Hperm.
  - symmetry in Hperm. by apply Permutation_nil_cons in Hperm.
Qed.

Lemma evaluate_hand_any_order_witness :
  evaluate_hand 0 (Some (update_player 0 (set_hand [Wan 1; Wan 2; Tiao 5]) (GameState.init [])))
  = evaluate_hand 0 (Some (update_player 0 (set_hand [Wan 2; Tiao 5; Wan 1]) (GameState.init []))).
Proof.
  eapply evaluate_hand_any_order; [reflexivity..|]. cbn. compute_done.
Defined.

Lemma efficiency_loop (sorted_hand : list Tile) (indices : list nat) : ∀ score,
  score ≤ foldl (efficiency_step sorted_hand) score indices
        ≤ score + 3 * Z.of_nat (length indices).
Proof.
  induction indices as [|i indices IH]; intros score; [cbn; lia|].
  cbn [foldl length]. specialize (IH (efficiency_step sorted_hand score i)).
  assert (Hstep : score ≤ efficiency_step sorted_hand score i ≤ score + 3).
  { unfold efficiency_step.
    destruct (sorted_hand !! i), (sorted_hand !! S i); try lia.
    repeat case_bool_decide; lia. }
  lia.
Qed.

(** X10. [_calculate_efficiency_score] is an even number between 0 and
    six times the number of pairs of neighbours in the sorted hand
    (len(hand) - 1 of them, and none in an empty hand), and the same for
    every order of the hand. *)
Theorem efficiency_score_bounds (hand : list Tile) :
  0 ≤ _calculate_efficiency_score hand ≤ 6 * Z.max 0 (Z.of_nat (length hand) - 1)
  ∧ Z.even (_calculate_efficiency_score hand) = true
  ∧ ∀ hand', hand ≡ₚ hand' →
             _calculate_efficiency_score hand' = _calculate_efficiency_score hand.
Proof.
  unfold _calculate_efficiency_score. split; [|split].
  - pose proof (efficiency_loop (sorted_tiles hand)
                  (seq 0 (length (sorted_tiles hand) - 1)) 0) as Hloop.
    rewrite length_seq in Hloop.
    assert (Hlen : length (sorted_tiles hand) = length hand)
      by (unfold sorted_tiles; by rewrite sorted_perm).
    lia.
  - by rewrite Z.even_mul, orb_true_r.
  - intros hand' Hperm. by rewrite (sorted_tiles_perm_eq _ _ Hperm).
Qed.

Lemma efficiency_score_bounds_witness :
  _calculate_efficiency_score [Tong 2; Wan 1; Tong 1]
  = _calculate_efficiency_score [Wan 1; Tong 1; Tong 2].
Proof.
  apply (efficiency_score_bounds [Wan 1; Tong 1; Tong 2]). compute_done.
Defined.

End agent_more.

(** ** Claims and melds *)

Section claims_and_melds.
Import MahjongLogic MahjongAgent InteractiveMahjongGame.
Implicit Types (gs : GameState) (t tile : Tile) (h : list Tile).

(** Two elements of a list that pass a test stand at two positions. *)
Lemma filter_two {A} (P : A → Prop) `{∀ x, Decision (P x)} (l : list A) :
  (2 ≤ length (filter P l))%nat →
  ∃ i j a b, (i < j)%nat ∧ l !! i = Some a ∧ l !! j = Some b ∧ P a ∧ P b.
Proof.
  induction l as [|x l IH]; [cbn; lia|].
  rewrite filter_cons. destruct (decide (P x)) as [Hx|Hx].
  - cbn [length]. intros Hlen.
    destruct (filter P l) as [|y k] eqn:Hf; [cbn in Hlen; lia|].
    assert (Hy : y ∈ filter P l) by (rewrite Hf; left).
    apply list_elem_of_filter in Hy as [Hy [j Hj]%list_elem_of_lookup].
    exists 0%nat, (S j), x, y. split; [lia|]. done.
  - intros (i & j & a & b & Hij & Hi & Hj & Ha & Hb)%IH.
    exists (S i), (S j), a, b. split; [lia|]. done.
Qed.

Lemma perm_three {A} (a b c : A) (l : list A) :
  l ∈ [[a; b; c]; [a; c; b]; [b; a; c]; [b; c; a]; [c; a; b]; [c; b; a]] →
  l ≡ₚ [a; b; c].
Proof.
  rewrite !elem_of_cons, elem_of_nil.
  intros [->|[->|[->|[->|[->|[->|[]]]]]]].
  - done.
  - apply perm_skip, perm_swap.
  - apply perm_swap.
  - etrans; [apply perm_skip, perm_swap|apply perm_swap].
  - etrans; [apply perm_swap|apply perm_skip, perm_swap].
  - etrans; [apply perm_swap|]. etrans; [apply perm_skip, perm_swap|apply perm_swap].
Qed.

(** What the two loops of [_would_complete_meld] look for. *)
Lemma would_complete_meld_iff player_idx gs (me : PlayerState) tile :
  players gs !! player_idx = Some me →
  ∃ c, _would_complete_meld player_idx (Some gs) tile = Ok c
       ∧ (c = true ↔ ∃ i j a b, (i < j)%nat ∧ hand me !! i = Some a ∧ hand me !! j = Some b
                                 ∧ is_valid_meld [a; b; tile] = true).
Proof.
  intros Hme. unfold _would_complete_meld. rewrite (player_Some _ _ _ Hme).
  cbn [mbind res_bind]. eexists. split; [reflexivity|].
  rewrite existsb_elem_of. split.
  - intros (i & _ & (j & Hj%elem_of_seq & Hmeld)%existsb_elem_of).
    destruct (hand me !! i) as [a|] eqn:Ha; [|done].
    destruct (hand me !! j) as [b|] eqn:Hb; [|done].
    exists i, j, a, b. split; [lia|done].
  - intros (i & j & a & b & Hij & Ha & Hb & Hmeld).
    pose proof (lookup_lt_Some _ _ _ Ha). pose proof (lookup_lt_Some _ _ _ Hb).
    exists i. split; [apply elem_of_seq; lia|].
    apply existsb_elem_of. exists j. split; [apply elem_of_seq; lia|].
    by rewrite Ha, Hb.
Qed.

(** Two tiles of the hand that make a meld with [tile], whichever comes
    first in the hand. *)
Lemma would_complete_meld_two player_idx gs (me : PlayerState) tile a b :
  players gs !! player_idx = Some me →
  a ∈ hand me → b ∈ hand me → (a ≠ b ∨ (2 ≤ HandScore.copies a (hand me))%nat ∧ a = b) →
  is_valid_meld [a; b; tile] = true →
  _would_complete_meld player_idx (Some gs) tile = Ok true.
Proof.
  intros Hme Ha Hb Hab Hmeld.
  destruct (would_complete_meld_iff player_idx gs me tile Hme) as (c & -> & Hc).
  f_equal. apply Hc. clear Hc.
  destruct Hab as [Hne|[Htwo <-]].
  - apply list_elem_of_lookup in Ha as [i Hi]. apply list_elem_of_lookup in Hb as [j Hj].
    destruct (Nat.lt_total i j) as [Hlt|[->|Hgt]].
    + by exists i, j, a, b.
    + congruence.
    + exists j, i, b, a. split; [done|]. split; [done|]. split; [done|].
      rewrite <- Hmeld. apply is_valid_meld_perm. apply perm_swap.
  - unfold HandScore.copies in Htwo.
    apply (filter_two (a =.)) in Htwo as (i & j & x & y & Hij & Hi & Hj & <- & <-).
    by exists i, j, a, a.
Qed.

(** X11. A tile that [_ai_can_claim] lets a seat claim is one that
    [_would_complete_meld] finds a meld for in that seat's hand. *)
Theorem ai_claim_completes_meld player_idx tile gs :
  _ai_can_claim player_idx tile gs = Ok true →
  _would_complete_meld player_idx (Some gs) tile = Ok true.
Proof.
  unfold _ai_can_claim. intros (p & Hp%player_Ok & Hclaim)%bind_Ok.
  destruct tile as [ty v]. cbn [type value] in Hclaim.
  destruct (bool_decide (2 ≤ length _)%nat) eqn:Hpung.
  - apply bool_decide_eq_true_1, filter_two in Hpung
      as (i & j & a & b & Hij & Hi & Hj & [Hat Hav] & [Hbt Hbv]).
    assert (a = mkTile ty v) as -> by (destruct a; cbn in *; congruence).
    assert (b = mkTile ty v) as -> by (destruct b; cbn in *; congruence).
    destruct (would_complete_meld_iff player_idx gs p (mkTile ty v) Hp) as (c & -> & Hc).
    f_equal. apply Hc. exists i, j, (mkTile ty v), (mkTile ty v).
    split; [done|]. split; [done|]. split; [done|].
    apply is_valid_meld_iff. left. by eexists.
  - destruct (_ && _); [|done]. injection Hclaim as Hchow.
    apply existsb_elem_of in Hchow as (start & Hstart & Hall).
    apply list_elem_of_filter in Hstart as [_ Hstart%elem_of_seqZ].
    rewrite forallb_elem_of in Hall.
    assert (Hget : ∀ w, w ≠ v → start ≤ w < start + 3 → mkTile ty w ∈ hand p).
    { intros w Hw Hr.
      destruct (proj1 (existsb_elem_of _ _) (Hall w ltac:(apply list_elem_of_filter;
                  split; [done|apply elem_of_seqZ; lia])))
        as (x & [Hxt Hx]%list_elem_of_filter & Hxv%bool_decide_eq_true_1).
      replace (mkTile ty w) with x; [done|]. destruct x; cbn in *; congruence. }
    assert (Hrun : ∀ a b,
              [a; b; mkTile ty v]
              ∈ [[mkTile ty start; mkTile ty (start + 1); mkTile ty (start + 2)];
                 [mkTile ty start; mkTile ty (start + 2); mkTile ty (start + 1)];
                 [mkTile ty (start + 1); mkTile ty start; mkTile ty (start + 2)];
                 [mkTile ty (start + 1); mkTile ty (start + 2); mkTile ty start];
                 [mkTile ty (start + 2); mkTile ty start; mkTile ty (start + 1)];
                 [mkTile ty (start + 2); mkTile ty (start + 1); mkTile ty start]] →
              is_valid_meld [a; b; mkTile ty v] = true).
    { intros a b Hin. apply is_valid_meld_iff. right. exists ty, start.
      by apply perm_three. }
    assert (v = start ∨ v = start + 1 ∨ v = start + 2) as [-> | [-> | ->]] by lia.
    + apply (would_complete_meld_two _ _ p _ (mkTile ty (start + 1)) (mkTile ty (start + 2)) Hp);
        [apply Hget; lia..|left; intros [=]; lia|].
      apply Hrun. rewrite !elem_of_cons. auto 10.
    + apply (would_complete_meld_two _ _ p _ (mkTile ty start) (mkTile ty (start + 2)) Hp);
        [apply Hget; lia..|left; intros [=]; lia|].
      apply Hrun. rewrite !elem_of_cons. auto 10.
    + apply (would_complete_meld_two _ _ p _ (mkTile ty start) (mkTile ty (start + 1)) Hp);
        [apply Hget; lia..|left; intros [=]; lia|].
      apply Hrun. rewrite !elem_of_cons. auto 10.
Qed.

End claims_and_melds.

(** ** The rounds of [MahjongGame.play_game] *)

Section rounds.
Import MahjongGame.
Implicit Types (gs : GameState) (p me : PlayerState) (i seat : nat) (discard : Tile).

Lemma sorted_length {A} (leb : A → A → bool) (l : list A) : length (sorted leb l) = length l.
Proof. by rewrite sorted_perm. Qed.

(** The deal of a shuffled wall starts the first round. *)
Lemma deal_round (shuffled_wall : list Tile) gs :
  shuffled_wall ≡ₚ GameState.fresh_wall →
  GameState.deal_initial_hands (GameState.init shuffled_wall) = Ok gs →
  round_invariant gs.
Proof.
  intros Hperm Hdeal. split.
  - exact (deal_invariant _ _ Hperm Hdeal).
  - cbn in Hdeal. injection Hdeal as <-. cbn. lia.
  - pose proof (Permutation_length Hperm) as Hlen.
    change (length GameState.fresh_wall) with 108%nat in Hlen.
    cbn in Hdeal. injection Hdeal as <-. cbn.
    repeat (apply Forall_cons; split;
            [cbn [hand set_hand];
             change (foldr (sorted_insert tile_leb) []) with (sorted tile_leb);
             rewrite sorted_length, length_take, length_drop; lia|]).
    apply Forall_nil_2.
  - cbn in Hdeal. by injection Hdeal as <-.
Qed.

(** The first loop after a discard never raises on four seats. *)
Lemma discard_winner_Ok gs seat discard (seats : list nat) :
  Forall (λ i, is_Some (players gs !! i)) seats →
  ∃ r, discard_winner seats seat discard gs = Ok r
       ∧ ∀ i, r = Some i → i ∈ seats.
Proof.
  induction 1 as [|i seats [p Hp] _ (r & IH & Hr)].
  { exists None. by split. }
  cbn [discard_winner]. destruct (decide (i ≠ seat)).
  - rewrite (player_Some _ _ _ Hp). cbn [mbind res_bind].
    destruct (MahjongLogic.is_winning_hand _).
    + exists (Some i). split; [done|]. intros ? [= <-]. left.
    + exists r. split; [done|]. intros j Hj. right. by apply Hr.
  - exists r. split; [done|]. intros j Hj. right. by apply Hr.
Qed.

Lemma four_seats gs :
  length (players gs) = 4%nat → Forall (λ i, is_Some (players gs !! i)) (seq 0 4).
Proof.
  intros Hlen. apply list.Forall_forall. intros i Hi%elem_of_seq.
  apply lookup_lt_is_Some. lia.
Qed.

(** One round from its head: the wall is empty and the loop breaks, or
    the seat wins on its draw, or it discards and a seat wins on the
    discard, or the next round starts; nothing is raised. *)
Lemma take_turn_round gs :
  round_invariant gs →
  (wall_tiles gs = [] ∧ take_turn gs = Ok (Break (set_game_ended true gs)))
  ∨ (∃ w, (w < 4)%nat ∧ take_turn gs = Ok (Return (Z.of_nat w)))
  ∨ (∃ gs', take_turn gs = Ok (Continue gs') ∧ round_invariant gs').
Proof.
  intros [Hinv Hseat Hhands Hgoing].
  destruct (wall_tiles gs) as [|tile wall] eqn:Hwall.
  { left. split; [done|]. by apply take_turn_wall_empty. }
  right.
  pose proof (inv_players _ Hinv) as Hfour.
  destruct (lookup_lt_is_Some_2 (players gs) (current_player gs)) as [p Hp]; [lia|].
  assert (Hp13 : length (hand p) = 13%nat).
  { rewrite list.Forall_forall in Hhands. apply Hhands. by eapply list_elem_of_lookup_2. }
  set (seat := current_player gs) in *.
  set (gs1 := update_player seat (set_hand (hand p ++ [tile])) (set_wall_tiles wall gs)).
  assert (Hdraw : GameState.draw_tile seat gs = Ok (Some tile, gs1)).
  { unfold GameState.draw_tile. rewrite Hwall.
    by rewrite (player_Some (set_wall_tiles wall gs) seat p Hp). }
  set (me := set_hand (hand p ++ [tile]) p).
  assert (Hme : players gs1 !! seat = Some me) by (by apply player_update).
  unfold take_turn, draw_and_discard. fold seat. rewrite Hdraw. cbn [mbind res_bind].
  rewrite (player_Some _ _ _ Hme). cbn [mbind res_bind].
  destruct (MahjongLogic.is_winning_hand (hand me)) eqn:Hwin.
  { left. exists seat. by split. }
  destruct (choose_discard_spec seat gs1 me Hme) as (d & h' & Hchoose & Hd & Hh');
    [by destruct (hand p)|].
  rewrite Hchoose. cbn [mbind res_bind].
  set (gs2 := update_player seat (set_hand h') gs1).
  assert (Hme2 : players gs2 !! seat = Some (set_hand h' me)) by (by apply player_update).
  destruct (list_remove_elem_of d h') as [removed Hrm]; [by rewrite Hh'|].
  set (gs3 := set_last_discarded (Some d)
                (update_player seat (λ p, set_discards (discards p ++ [d]) p)
                   (update_player seat (set_hand removed) gs2))).
  assert (Hcommit : commit_discard seat d gs2 = Ok gs3).
  { unfold commit_discard. rewrite (player_Some _ _ _ Hme2).
    cbn [mbind res_bind hand set_hand]. by rewrite Hrm. }
  rewrite Hcommit. cbn [mbind res_bind mret res_ret].
  assert (Hphase : draw_and_discard gs = Ok (Discarded seat d gs3)).
  { unfold draw_and_discard. fold seat. rewrite Hdraw. cbn [mbind res_bind].
    rewrite (player_Some _ _ _ Hme). cbn [mbind res_bind]. rewrite Hwin, Hchoose.
    cbn [mbind res_bind]. fold gs2. by rewrite Hcommit. }
  destruct (draw_and_discard_spec _ _ _ _ Hinv Hphase) as (Hinv3 & _ & Hend3 & _ & _).
  pose proof (inv_players _ Hinv3) as Hfour3.
  destruct (discard_winner_Ok gs3 seat d (seq 0 4) (four_seats _ Hfour3))
    as (won & Hwon & Hwho).
  rewrite Hwon. cbn [mbind res_bind].
  destruct won as [i|].
  { left. exists i. split; [|done]. specialize (Hwho i eq_refl).
    apply elem_of_seq in Hwho. lia. }
  right. unfold resolve_claim.
  rewrite (claimant_first_of gs3 seat d (seq 0 4) (four_seats _ Hfour3)).
  cbn [mbind res_bind].
  assert (Hnext : ∀ next, (next < 4)%nat → round_invariant (set_current_player next gs3)).
  { intros next Hlt. split.
    - by refine (proj1 (field_setters_invariant _ _ None _)).
    - done.
    - apply list.Forall_forall. intros q [j Hq]%list_elem_of_lookup.
      destruct (decide (j = seat)) as [->|Hne].
      + unfold gs3, gs2, gs1 in Hq. cbn in Hq.
        rewrite !list_lookup_alter_eq, Hp in Hq. cbn in Hq. injection Hq as <-. cbn.
        apply list_remove_length in Hrm. apply Permutation_length in Hh'.
        cbn in Hh'. rewrite length_app in Hh'. cbn in Hh'. lia.
      + rewrite list.Forall_forall in Hhands. apply Hhands.
        apply (list_elem_of_lookup_2 _ j).
        unfold gs3, gs2, gs1 in Hq. cbn in Hq.
        by rewrite !list_lookup_alter_ne in Hq by done.
    - change (game_ended gs3 = false). by rewrite Hend3. }
  destruct (first_of _ _) as [i|] eqn:Hfirst.
  - exists (set_current_player i gs3). split; [done|]. apply Hnext.
    apply head_Some_elem_of, list_elem_of_filter in Hfirst as [_ Hi].
    apply list_elem_of_filter in Hi as [_ Hi%elem_of_seq]. lia.
  - exists (set_current_player ((seat + 1) mod 4) gs3). split; [done|]. apply Hnext.
    apply Nat.mod_upper_bound. lia.
Qed.

Lemma reachable_round gs : reachable gs → round_invariant gs.
Proof.
  induction 1 as [w gs Hw Hdeal|gs gs' _ IH _ Hturn]; [by eapply deal_round|].
  destruct (take_turn_round gs IH) as [[_ Heq]|[(w & _ & Heq)|(gs'' & Heq & Hround)]];
    rewrite Heq in Hturn; simplify_eq. done.
Qed.

Lemma sum_list_with_constant {A} (f : A → nat) (c : nat) (l : list A) :
  Forall (λ x, f x = c) l → sum_list_with f l = (c * length l)%nat.
Proof. induction 1 as [|x l Hx _ IH]; cbn; lia. Qed.

(** X12. Each time the loop of [play_game] starts a round, the game has
    not ended, the seat to play is one of the four, every seat holds
    thirteen tiles and no meld, and the wall and the discard piles hold
    the other 56 tiles between them. *)
Theorem round_starts_with_thirteen gs :
  reachable gs →
  game_ended gs = false
  ∧ (current_player gs < 4)%nat
  ∧ Forall (λ p, length (hand p) = 13%nat ∧ revealed_melds p = []) (players gs)
  ∧ (length (wall_tiles gs)
     + sum_list_with (λ p, length (discards p)) (players gs) = 56)%nat.
Proof.
  intros [Hinv Hseat Hhands Hgoing]%reachable_round.
  split; [done|]. split; [done|]. split.
  - apply Forall_and. split; [done|apply Hinv].
  - pose proof (engine_invariant_total gs Hinv) as Htotal. unfold tile_total in Htotal.
    rewrite (sum_list_with_constant _ 13 _ Hhands) in Htotal.
    rewrite (sum_list_with_constant (λ p, length (revealed_melds p)) 0) in Htotal.
    2:{ eapply Forall_impl; [apply Hinv|]. by intros p ->. }
    rewrite (inv_players _ Hinv) in Htotal. lia.
Qed.

Lemma round_starts_with_thirteen_witness :
  game_ended strided_deal = false
  ∧ (current_player strided_deal < 4)%nat
  ∧ Forall (λ p, length (hand p) = 13%nat ∧ revealed_melds p = []) (players strided_deal)
  ∧ (length (wall_tiles strided_deal)
     + sum_list_with (λ p, length (discards p)) (players strided_deal) = 56)%nat.
Proof. apply round_starts_with_thirteen, strided_deal_reachable. Defined.

Lemma game_loop_total n : ∀ gs,
  round_invariant gs → ∃ w, (w < 4)%nat ∧ game_loop n gs = Ok (Z.of_nat w).
Proof.
  assert (Hwinner : ∀ gs, length (players gs) = 4%nat →
            ∃ w, (w < 4)%nat ∧ _get_winner gs = Ok (Z.of_nat w)).
  { intros gs (w & Hw & Hbest & _)%get_winner_spec. by exists w. }
  induction n as [|n IH]; intros gs Hround.
  { apply Hwinner, Hround. }
  cbn [game_loop]. rewrite (round_going _ Hround).
  destruct (take_turn_round gs Hround) as [[_ ->]|[(w & Hw & ->)|(gs' & -> & Hround')]];
    cbn [mbind res_bind].
  - apply Hwinner. apply Hround.
  - by exists w.
  - by apply IH.
Qed.

(** X13. On every shuffle of the wall [play_game] runs to its end
    without an exception and returns one of the seats 0 to 3, never -1. *)
Theorem play_game_names_a_seat (shuffled_wall : list Tile) :
  shuffled_wall ≡ₚ GameState.fresh_wall →
  ∃ w, (w < 4)%nat ∧ play_game (GameState.init shuffled_wall) = Z.of_nat w.
Proof.
  intros Hperm. unfold play_game.
  destruct (GameState.deal_initial_hands (GameState.init shuffled_wall)) as [gs0|e] eqn:Hdeal;
    [|done].
  cbn [mbind res_bind].
  destruct (game_loop_total max_turns gs0 (deal_round _ _ Hperm Hdeal)) as (w & Hw & ->).
  by exists w.
Qed.

Lemma play_game_names_a_seat_witness :
  ∃ w, (w < 4)%nat ∧ play_game (GameState.init (strided 5)) = Z.of_nat w.
Proof. apply play_game_names_a_seat. compute_done. Defined.

Lemma game_loop_limit n : ∀ m gs,
  engine_invariant gs → game_ended gs = false →
  (length (wall_tiles gs) < n)%nat → (length (wall_tiles gs) < m)%nat →
  game_loop n gs = game_loop m gs.
Proof.
  induction n as [|n IH]; intros m gs Hinv Hgoing Hn Hm; [lia|].
  destruct m as [|m]; [lia|].
  cbn [game_loop]. rewrite Hgoing.
  destruct (take_turn gs) as [[w|gs'|gs']|e] eqn:Hturn; [done..| |done].
  cbn [mbind res_bind].
  destruct (take_turn_invariant _ _ Hinv Hturn) as (Hinv' & Hgoing' & Hwall).
  apply IH; [done|congruence|lia..].
Qed.

(** X14. A game never comes to its limit of 100 turns: the wall has 56
    tiles after the deal and every round draws one, so the loop gives
    the same result for every limit of 57 turns or more. *)
Theorem turn_limit_never_reached (shuffled_wall : list Tile) gs (limit : nat) :
  shuffled_wall ≡ₚ GameState.fresh_wall →
  GameState.deal_initial_hands (GameState.init shuffled_wall) = Ok gs →
  (57 ≤ limit)%nat →
  game_loop limit gs = game_loop max_turns gs.
Proof.
  intros Hperm Hdeal Hlimit.
  pose proof (deal_round _ _ Hperm Hdeal) as Hround.
  assert (Hwall : length (wall_tiles gs) = 56%nat).
  { pose proof (Permutation_length Hperm) as Hlen.
    change (length GameState.fresh_wall) with 108%nat in Hlen.
    cbn in Hdeal. injection Hdeal as <-. cbn. rewrite length_drop. lia. }
  apply game_loop_limit; [apply Hround..| |]; rewrite Hwall; unfold max_turns; lia.
Qed.

Lemma turn_limit_never_reached_witness :
  game_loop 57 strided_deal = game_loop max_turns strided_deal.
Proof.
  apply (turn_limit_never_reached strided_wall); [apply strided_wall_shuffled|reflexivity|lia].
Defined.

(** The seats that win on a discard. *)
Lemma discard_winner_spec gs seat discard (n : nat) : ∀ k,
  (k + n ≤ length (players gs))%nat →
  ∃ r, discard_winner (seq k n) seat discard gs = Ok r
       ∧ match r with
         | Some i =>
             (k ≤ i < k + n)%nat ∧ i ≠ seat
             ∧ (∃ p, players gs !! i = Some p
                     ∧ MahjongLogic.is_winning_hand (hand p ++ [discard]) = true)
             ∧ ∀ j p, (k ≤ j < i)%nat → j ≠ seat → players gs !! j = Some p →
                      MahjongLogic.is_winning_hand (hand p ++ [discard]) = false
         | None =>
             ∀ j p, (k ≤ j < k + n)%nat → j ≠ seat → players gs !! j = Some p →
                    MahjongLogic.is_winning_hand (hand p ++ [discard]) = false
         end.
Proof.
  induction n as [|n IH]; intros k Hlen.
  { exists None. split; [done|]. intros; lia. }
  destruct (IH (S k)) as (r & Hr & Hspec); [lia|].
  destruct (lookup_lt_is_Some_2 (players gs) k) as [p Hp]; [lia|].
  cbn [seq discard_winner].
  destruct (decide (k ≠ seat)) as [Hne|Heq].
  - rewrite (player_Some _ _ _ Hp). cbn [mbind res_bind].
    destruct (MahjongLogic.is_winning_hand (hand p ++ [discard])) eqn:Hwin.
    + exists (Some k). split; [done|]. split; [lia|]. split; [done|].
      split; [by exists p|]. intros; lia.
    + exists r. split; [done|]. destruct r as [i|].
      * destruct Hspec as (Hi & Hseat & Hwins & Hlow).
        split; [lia|]. split; [done|]. split; [done|].
        intros j q Hj Hjs Hq. destruct (decide (j = k)) as [->|Hjk].
        -- by simplify_eq.
        -- apply (Hlow j q); [lia|done..].
      * intros j q Hj Hjs Hq. destruct (decide (j = k)) as [->|Hjk].
        -- by simplify_eq.
        -- apply (Hspec j q); [lia|done..].
  - exists r. split; [done|]. destruct r as [i|].
    + destruct Hspec as (Hi & Hseat & Hwins & Hlow).
      split; [lia|]. split; [done|]. split; [done|].
      intros j q Hj Hjs Hq. apply (Hlow j q); [|done..].
      destruct (decide (j = k)) as [->|Hjk]; [by destruct Heq|lia].
    + intros j q Hj Hjs Hq. apply (Hspec j q); [|done..].
      destruct (decide (j = k)) as [->|Hjk]; [by destruct Heq|lia].
Qed.

(** X15. When more than one seat could win on a discard, the engine
    gives the win to the one with the lowest seat number, wherever the
    discarder sits; with no such seat the loop finds none. *)
Theorem discard_win_goes_to_lowest_seat gs seat discard :
  length (players gs) = 4%nat →
  ∃ r, discard_winner (seq 0 4) seat discard gs = Ok r
       ∧ match r with
         | Some i =>
             (i < 4)%nat ∧ i ≠ seat
             ∧ (∃ p, players gs !! i = Some p
                     ∧ MahjongLogic.is_winning_hand (hand p ++ [discard]) = true)
             ∧ ∀ j p, (j < i)%nat → j ≠ seat → players gs !! j = Some p →
                      MahjongLogic.is_winning_hand (hand p ++ [discard]) = false
         | None =>
             ∀ j p, j ≠ seat → players gs !! j = Some p →
                    MahjongLogic.is_winning_hand (hand p ++ [discard]) = false
         end.
Proof.
  intros Hfour. destruct (discard_winner_spec gs seat discard 4 0) as (r & Hr & Hspec); [lia|].
  exists r. split; [done|]. destruct r as [i|].
  - destruct Hspec as (Hi & Hseat & Hwins & Hlow). split; [lia|]. split; [done|].
    split; [done|]. intros j p Hj. apply Hlow. lia.
  - intros j p Hj Hp. apply (Hspec j p); [|done..].
    apply lookup_lt_Some in Hp. lia.
Qed.

Lemma discard_win_goes_to_lowest_seat_witness :
  ∃ r, discard_winner (seq 0 4) 0 (Wan 1) strided_deal = Ok r
       ∧ match r with
         | Some i =>
             (i < 4)%nat ∧ i ≠ 0%nat
             ∧ (∃ p, players strided_deal !! i = Some p
                     ∧ MahjongLogic.is_winning_hand (hand p ++ [Wan 1]) = true)
             ∧ ∀ j p, (j < i)%nat → j ≠ 0%nat → players strided_deal !! j = Some p →
                      MahjongLogic.is_winning_hand (hand p ++ [Wan 1]) = false
         | None =>
             ∀ j p, j ≠ 0%nat → players strided_deal !! j = Some p →
                    MahjongLogic.is_winning_hand (hand p ++ [Wan 1]) = false
         end.
Proof. apply discard_win_goes_to_lowest_seat. reflexivity. Defined.

(** X16. In a game of [play_game] two seats never compete for a
    discard: a claim takes two more copies of a tile that lies on the
    pile, and the game has four of each. *)
Theorem claim_has_one_candidate gs seat discard gs_d i j :
  reachable gs →
  draw_and_discard gs = Ok (Discarded seat discard gs_d) →
  _can_claim_tile i discard gs_d = Ok true →
  _can_claim_tile j discard gs_d = Ok true →
  i = j.
Proof.
  intros Hinv%reachable_invariant Hphase Hi Hj.
  destruct (draw_and_discard_spec _ _ _ _ Hinv Hphase) as (Hinv_d & _ & _ & _ & p & Hp & Hpile).
  destruct (decide (i = j)) as [|Hne]; [done|]. exfalso.
  apply (one_claimant gs_d seat discard p i j Hinv_d Hp Hpile Hne);
    unfold claim_possible; by rewrite ?Hi, ?Hj.
Qed.

End rounds.

(** ** Removal from a sorted list *)

Section sorted_remove.
Context `{EqDecision A} (R : relation A).
Hypothesis R_antisym : ∀ a b, R a b → R b a → a = b.
Implicit Types (l : list A) (t : A) (i : nat).

Lemma sorted_lookup_least l t i :
  Forall (R t) l → StronglySorted R l → l !! i = Some t → l = t :: delete i l.
Proof.
  revert i. induction l as [|y l IH]; intros i Hleast Hsorted Hi; [done|].
  destruct i as [|i]; [by injection Hi as ->|].
  apply Forall_cons in Hleast as [Hty Hleast].
  apply StronglySorted_inv in Hsorted as [Hsorted Hy].
  cbn in Hi. assert (y = t) as ->.
  { apply R_antisym; [|done]. rewrite list.Forall_forall in Hy. apply Hy.
    by eapply list_elem_of_lookup_2. }
  cbn. f_equal. by apply IH.
Qed.

(** In a sorted list the copies of an element stand together: removing
    the first one leaves the same list as removing any other. *)
Lemma list_remove_sorted l t i :
  StronglySorted R l → l !! i = Some t → list_remove t l = Some (delete i l).
Proof.
  revert i. induction l as [|y l IH]; intros i Hsorted Hi; [done|].
  apply StronglySorted_inv in Hsorted as [Hsorted Hy].
  cbn [list_remove]. destruct (decide (t = y)) as [<-|Hne].
  - destruct i as [|i]; [done|]. cbn in Hi. cbn. f_equal. by apply sorted_lookup_least.
  - destruct i as [|i]; [by injection Hi as ->|]. cbn in Hi.
    by rewrite (IH i Hsorted Hi).
Qed.

Lemma delete_sorted l i : StronglySorted R l → StronglySorted R (delete i l).
Proof.
  revert i. induction l as [|y l IH]; intros i Hsorted; [done|].
  apply StronglySorted_inv in Hsorted as [Hsorted Hy].
  destruct i as [|i]; [done|]. cbn. constructor; [by apply IH|].
  rewrite list.Forall_forall in Hy. apply list.Forall_forall.
  intros x Hx%list_elem_of_delete_inv. by apply Hy.
Qed.

Lemma delete_pair l i : delete i (delete i l) = take i l ++ drop (i + 2) l.
Proof.
  revert i. induction l as [|y l IH]; intros i; [by destruct i|].
  destruct i as [|i]; [by destruct l|]. cbn. by rewrite IH.
Qed.

(** Two equal neighbours of a sorted list are what [remove] takes,
    called twice. *)
Lemma remove_pair_sorted l t i :
  StronglySorted R l → l !! i = Some t → l !! S i = Some t →
  list_remove t l ≫= list_remove t = Some (take i l ++ drop (i + 2) l).
Proof.
  intros Hsorted Hi HSi. rewrite (list_remove_sorted l t i Hsorted Hi). cbn.
  rewrite (list_remove_sorted (delete i l) t i).
  - by rewrite delete_pair.
  - by apply delete_sorted.
  - by rewrite list_lookup_delete_ge.
Qed.

(** An element that occurs twice in a sorted list has a copy of itself
    for a neighbour. *)
Lemma sorted_neighbours l t :
  StronglySorted R l → (2 ≤ length (filter (t =.) l))%nat →
  ∃ i, l !! i = Some t ∧ l !! S i = Some t.
Proof.
  induction l as [|y l IH]; intros Hsorted Htwo; [cbn in Htwo; lia|].
  apply StronglySorted_inv in Hsorted as [Hsorted Hy].
  rewrite filter_cons in Htwo. destruct (decide (t = y)) as [<-|Hne].
  - exists 0%nat. split; [done|]. cbn [length] in Htwo.
    destruct l as [|z l]; [cbn in Htwo; lia|]. cbn. f_equal.
    destruct (filter (t =.) (z :: l)) as [|t' k] eqn:Hf; [cbn in Htwo; lia|].
    assert (Hin : t' ∈ filter (t =.) (z :: l)) by (rewrite Hf; left).
    apply list_elem_of_filter in Hin as [<- Hin].
    apply elem_of_cons in Hin as [->|Hin]; [done|].
    apply R_antisym.
    + apply StronglySorted_inv in Hsorted as [_ Hz].
      rewrite list.Forall_forall in Hz. by apply Hz.
    + apply Forall_cons in Hy as [Hy _]. done.
  - destruct (IH Hsorted Htwo) as (i & Hi & HSi). by exists (S i).
Qed.

End sorted_remove.

(** ** [check_win] and [find_all_possible_melds] *)

Section winning_check.
Import MahjongLogic InteractiveMahjongGame.
Implicit Types (gs : GameState) (p : PlayerState) (t tile : Tile) (tiles : list Tile).

Lemma pung_not_chow t0 t1 t2 : pung_head t0 t1 t2 = true → chow_head t0 t1 t2 = false.
Proof.
  rewrite pung_head_decide. intros [<- <-]%bool_decide_eq_true_1.
  apply not_true_is_false. intros (_ & _ & Hrun)%chow_head_spec. lia.
Qed.

Lemma find_all_possible_melds_cons t0 t1 t2 rest :
  length (find_all_possible_melds (t0 :: t1 :: t2 :: rest))
  = if pung_head t0 t1 t2 || chow_head t0 t1 t2
    then S (length (find_all_possible_melds rest))
    else 0%nat.
Proof.
  cbn [find_all_possible_melds].
  rewrite <- pung_head_decide, (bool_decide_true (type t0 ∈ suits)) by apply elem_of_suits.
  cbn [andb]. destruct (pung_head t0 t1 t2) eqn:Hpung.
  - by rewrite (pung_not_chow _ _ _ Hpung).
  - destruct (chow_head t0 t1 t2); [|done]. done.
Qed.

Lemma possible_melds_spec tiles :
  (length (find_all_possible_melds tiles) * 3 ≤ length tiles)%nat
  ∧ ((length (find_all_possible_melds tiles) * 3 = length tiles)%nat
     ↔ can_form_melds tiles = true).
Proof.
  induction tiles as [|a|a b|t0 t1 t2 rest [IHle IH]] using list_ind3.
  - by cbn.
  - cbn. split; [lia|]. split; [lia|done].
  - cbn. split; [lia|]. split; [lia|done].
  - rewrite find_all_possible_melds_cons, can_form_melds_cons. cbn [length].
    destruct (pung_head t0 t1 t2 || chow_head t0 t1 t2).
    + split; [lia|]. rewrite andb_true_r, andb_true_iff, <- IH, Nat.eqb_eq. split.
      * intros Hlen. split; [|lia].
        replace (length rest) with (length (find_all_possible_melds rest) * 3)%nat by lia.
        by rewrite Nat.Div0.mod_mul.
      * intros [_ Hlen]. lia.
    + split; [lia|]. rewrite andb_false_r. cbn. split; [lia|done].
Qed.

(** X17. [find_all_possible_melds] uses up the whole list, three tiles
    to a meld, exactly when [MahjongLogic.can_form_melds] accepts the
    list; it never lists more melds than the tiles allow. *)
Theorem possible_melds_cover tiles :
  (length (find_all_possible_melds tiles) * 3 ≤ length tiles)%nat
  ∧ ((length (find_all_possible_melds tiles) * 3 = length tiles)%nat
     ↔ can_form_melds tiles = true).
Proof. apply possible_melds_spec. Qed.

Lemma possible_melds_cover_iff tiles :
  bool_decide (length (find_all_possible_melds tiles) * 3 = length tiles)%nat
  = can_form_melds tiles.
Proof.
  apply Bool.eq_iff_eq_true. rewrite bool_decide_eq_true.
  apply possible_melds_spec.
Qed.

Lemma two_neighbours {A} `{EqDecision A} (l : list A) (t : A) (i : nat) :
  l !! i = Some t → l !! S i = Some t → (2 ≤ length (filter (t =.) l))%nat.
Proof.
  intros Hi HSi.
  rewrite <- (take_drop i l), (drop_S _ t i Hi), (drop_S _ t (S i) HSi).
  rewrite filter_app, !filter_cons_True by done. rewrite length_app. cbn. lia.
Qed.

(** One round of the loop of [check_win]: it finds a pair when [tile]
    has a copy of itself for a neighbour in the sorted hand and the other
    tiles are accepted by [can_form_melds]. *)
Lemma check_pair_spec (sorted_hand : list Tile) (found : bool) tile :
  StronglySorted (λ a b, tile_leb a b = true) sorted_hand →
  ∃ b, check_pair sorted_hand found tile = Ok b
       ∧ (b = true
          ↔ found = true
            ∨ ∃ i, sorted_hand !! i = Some tile ∧ sorted_hand !! S i = Some tile
                   ∧ can_form_melds (take i sorted_hand ++ drop (i + 2) sorted_hand) = true).
Proof.
  intros Hsorted. unfold check_pair. destruct found.
  { exists true. split; [done|]. split; auto. }
  case_bool_decide as Htwo.
  - rewrite multiplicity_Counter in Htwo.
    destruct (sorted_neighbours _ tile_leb_antisym sorted_hand tile Hsorted Htwo)
      as (i & Hi & HSi).
    pose proof (remove_pair_sorted _ tile_leb_antisym sorted_hand tile i Hsorted Hi HSi) as Hrm.
    unfold remove_all. cbn [for_each].
    destruct (list_remove tile sorted_hand) as [h1|] eqn:H1; [|done].
    cbn in Hrm. cbn [or_raise mbind res_bind]. rewrite Hrm. cbn [or_raise mbind res_bind].
    eexists. split; [reflexivity|]. rewrite possible_melds_cover_iff. split.
    + intros Hmelds. right. by exists i.
    + intros [?|(i' & Hi' & HSi' & Hmelds)]; [done|].
      pose proof (remove_pair_sorted _ tile_leb_antisym sorted_hand tile i' Hsorted Hi' HSi')
        as Hrm'.
      rewrite H1 in Hrm'. cbn in Hrm'. rewrite Hrm in Hrm'. injection Hrm' as ->. done.
  - exists false. split; [done|]. split; [done|].
    intros [?|(i & Hi & HSi & _)]; [done|]. exfalso. apply Htwo.
    rewrite multiplicity_Counter. unfold HandScore.copies.
    by apply (two_neighbours _ _ i).
Qed.

Lemma check_loop_spec (sorted_hand : list Tile) (tiles : list Tile) :
  StronglySorted (λ a b, tile_leb a b = true) sorted_hand →
  ∀ found, ∃ b,
    for_each (check_pair sorted_hand) tiles found = Ok b
    ∧ (b = true
       ↔ found = true
         ∨ ∃ tile i, tile ∈ tiles
             ∧ sorted_hand !! i = Some tile ∧ sorted_hand !! S i = Some tile
             ∧ can_form_melds (take i sorted_hand ++ drop (i + 2) sorted_hand) = true).
Proof.
  intros Hsorted. induction tiles as [|tile tiles IH]; intros found.
  { exists found. split; [done|]. split; [auto|].
    intros [?|(tile & i & []%elem_of_nil & _)]. done. }
  destruct (check_pair_spec sorted_hand found tile Hsorted) as (b1 & Hb1 & Hspec1).
  destruct (IH b1) as (b & Hb & Hspec).
  exists b. cbn [for_each]. rewrite Hb1. cbn [mbind res_bind]. split; [done|].
  rewrite Hspec, Hspec1. split.
  - intros [[?|(i & Hi & HSi & Hmelds)]|(t & i & Ht & Hi)]; [by left| |].
    + right. exists tile, i. split; [left|done].
    + right. exists t, i. split; [by right|done].
  - intros [?|(t & i & [->|Ht]%elem_of_cons & Hi)]; [by left; left| |].
    + left. right. by exists i.
    + right. by exists t, i.
Qed.

(** X18. For a seat with 14 tiles in hand [check_win] of the interactive
    game gives the answer of [MahjongLogic.is_winning_hand]. *)
Theorem check_win_is_winning_hand player_idx gs p :
  players gs !! player_idx = Some p →
  length (hand p) = 14%nat →
  check_win player_idx gs = Ok (is_winning_hand (hand p)).
Proof.
  intros Hp Hlen. unfold check_win. rewrite (player_Some _ _ _ Hp). cbn [mbind res_bind].
  set (sorted_hand := sorted_tiles (hand p)).
  assert (Hsorted : StronglySorted (λ a b, tile_leb a b = true) sorted_hand)
    by apply sorted_tiles_sorted.
  assert (Hlen' : length sorted_hand = 14%nat).
  { unfold sorted_hand, sorted_tiles. by rewrite sorted_perm. }
  destruct (check_loop_spec sorted_hand (elements (list_to_set sorted_hand : gset Tile))
              Hsorted false) as (b & -> & Hb).
  cbn [mbind res_bind]. f_equal.
  rewrite bool_decide_true, andb_true_r by lia.
  unfold is_winning_hand. rewrite Hlen. cbn [Nat.eqb negb]. fold sorted_hand.
  apply Bool.eq_iff_eq_true. rewrite Hb, existsb_elem_of. split.
  - intros [?|(tile & i & _ & Hi & HSi & Hmelds)]; [done|].
    exists i. split; [apply elem_of_seq; apply lookup_lt_Some in HSi; lia|].
    unfold pair_at. rewrite Hi, HSi, Hmelds. unfold is_valid_pair.
    by rewrite same_tile_decide, bool_decide_true.
  - intros (i & _ & Hpair). right. unfold pair_at in Hpair.
    destruct (sorted_hand !! i) as [a|] eqn:Hi; [|done].
    destruct (sorted_hand !! S i) as [c|] eqn:HSi; [|done].
    apply andb_true_iff in Hpair as [Heq Hmelds].
    unfold is_valid_pair in Heq. rewrite same_tile_decide in Heq.
    apply bool_decide_eq_true_1 in Heq as ->.
    exists c, i. split; [|done].
    apply elem_of_elements, elem_of_list_to_set. by eapply list_elem_of_lookup_2.
Qed.

Lemma check_win_is_winning_hand_witness :
  check_win 0 first_draw = Ok (is_winning_hand (hand first_drawer)).
Proof. apply check_win_is_winning_hand; reflexivity. Defined.

End winning_check.

(** ** The interactive game *)

Section interactive.
Import MahjongLogic MahjongAgent InteractiveMahjongGame.
Implicit Types (gs : GameState) (p : PlayerState) (t tile : Tile) (tiles : list Tile).

Lemma Counter_discards (ps : list PlayerState) : ∀ acc : list Tile,
  Counter (foldl (λ acc p, acc ++ discards p) acc ps)
  = foldl (λ acc p, acc ⊎ Counter (discards p)) (Counter acc) ps.
Proof.
  induction ps as [|p ps IH]; intros acc; [done|].
  cbn [foldl]. by rewrite IH, Counter_app.
Qed.

Lemma Counter_melds (melds : list (list Tile)) : ∀ acc : list Tile,
  Counter (foldl (λ acc meld, acc ++ meld) acc melds)
  = foldl (λ acc meld, acc ⊎ Counter meld) (Counter acc) melds.
Proof.
  induction melds as [|meld melds IH]; intros acc; [done|].
  cbn [foldl]. by rewrite IH, Counter_app.
Qed.

Lemma Counter_revealed (ps : list PlayerState) : ∀ acc : list Tile,
  Counter (foldl (λ acc p, foldl (λ acc meld, acc ++ meld) acc (revealed_melds p)) acc ps)
  = foldl (λ acc p, foldl (λ acc meld, acc ⊎ Counter meld) acc (revealed_melds p))
          (Counter acc) ps.
Proof.
  induction ps as [|p ps IH]; intros acc; [done|].
  cbn [foldl]. by rewrite IH, Counter_melds.
Qed.

(** X19. The tiles that [get_visible_tiles] lists are, tile for tile,
    the ones the agent of seat 0 counts as visible when it estimates the
    probabilities. *)
Theorem get_visible_tiles_counted gs p :
  players gs !! 0%nat = Some p →
  ∃ visible, get_visible_tiles gs = Ok visible
             ∧ visible_tiles 0 gs = Ok (Counter visible).
Proof.
  intros Hp. unfold get_visible_tiles, visible_tiles.
  rewrite (player_Some _ _ _ Hp). cbn [mbind res_bind].
  eexists. split; [reflexivity|].
  by rewrite Counter_app, Counter_revealed, Counter_discards.
Qed.

Lemma get_visible_tiles_counted_witness :
  ∃ visible, get_visible_tiles first_draw = Ok visible
             ∧ visible_tiles 0 first_draw = Ok (Counter visible).
Proof. by apply (get_visible_tiles_counted first_draw first_drawer). Defined.

Lemma existsb_eq {A} (f g : A → bool) (l : list A) :
  (∀ x, f x = g x) → existsb f l = existsb g l.
Proof. intros Hfg. induction l as [|x l IH]; [done|]. cbn. by rewrite Hfg, IH. Qed.

Lemma forallb_eq {A} (f g : A → bool) (l : list A) :
  (∀ x, f x = g x) → forallb f l = forallb g l.
Proof. intros Hfg. induction l as [|x l IH]; [done|]. cbn. by rewrite Hfg, IH. Qed.

Lemma existsb_value (v : Z) tiles :
  existsb (λ t, bool_decide (value t = v)) tiles = bool_decide (v ∈ value <$> tiles).
Proof.
  apply Bool.eq_iff_eq_true.
  rewrite existsb_elem_of, bool_decide_eq_true, list_elem_of_fmap. split.
  - intros (t & Ht & Hv%bool_decide_eq_true_1). by exists t.
  - intros (t & -> & Ht). exists t. split; [done|]. by apply bool_decide_eq_true_2.
Qed.

(** X20. The claims [can_claim_tile] offers the person at seat 0 are
    the ones [_ai_can_claim] would allow a computer player in that
    seat. *)
Theorem can_claim_tile_as_ai tile gs p :
  players gs !! 0%nat = Some p →
  (current_player gs < 4)%nat →
  ∃ c, can_claim_tile tile gs = Ok c
       ∧ _ai_can_claim 0 tile gs = Ok (pung c || chow c).
Proof.
  intros Hp Hseat. unfold can_claim_tile, _ai_can_claim.
  rewrite (player_Some _ _ _ Hp). cbn [mbind res_bind].
  eexists. split; [reflexivity|]. cbn [pung chow].
  destruct (bool_decide (2 ≤ length _)%nat); [done|]. cbn [orb].
  assert (Hleft : bool_decide ((Z.of_nat 0 - Z.of_nat (current_player gs)) mod 4 = 1)
                  = bool_decide (current_player gs = 3%nat)).
  { apply bool_decide_ext.
    destruct (current_player gs) as [|[|[|[|]]]]; [done..|lia]. }
  rewrite Hleft. destruct (_ && _); [|done]. cbn [mret res_ret]. f_equal.
  apply existsb_eq. intros start. apply forallb_eq. intros v. apply existsb_value.
Qed.

Lemma can_claim_tile_as_ai_witness :
  ∃ c, can_claim_tile (Wan 3) first_draw = Ok c
       ∧ _ai_can_claim 0 (Wan 3) first_draw = Ok (pung c || chow c).
Proof. apply (can_claim_tile_as_ai (Wan 3) first_draw first_drawer); [reflexivity|]. cbn. lia. Defined.

Lemma reveal_meld_total gs i p (h two meld : list Tile) :
  players gs !! i = Some p →
  remove_all two (hand p) = Ok h → length two = 2%nat →
  tile_total (update_player i
                (λ p, set_revealed_melds (revealed_melds p ++ [meld]) (set_hand h p)) gs)
  = S (tile_total gs).
Proof.
  intros Hp Hrm%remove_all_length Htwo.
  pose proof (tile_total_update gs i
                (λ p, set_revealed_melds (revealed_melds p ++ [meld]) (set_hand h p))
                p Hp) as Htotal.
  unfold player_count in Htotal.
  cbn [hand set_hand set_revealed_melds revealed_melds discards] in Htotal.
  rewrite length_app in Htotal. cbn [length] in Htotal. lia.
Qed.

Lemma discard_after_meld_total gs i gs' :
  discard_after_meld i gs = Ok gs' → tile_total gs' = tile_total gs.
Proof.
  unfold discard_after_meld. intros (ai_agent & _ & Hdiscard)%bind_Ok.
  apply bind_Ok in Hdiscard as ([discard gs1] & Hchoose%choose_discard_total & Hcommit).
  destruct discard as [discard|].
  - apply commit_discard_total in Hcommit. congruence.
  - injection Hcommit as <-. done.
Qed.

Lemma try_form_meld_total gs i tile gs' :
  _try_form_meld_ai i tile gs = Ok (true, gs') → tile_total gs' = S (tile_total gs).
Proof.
  unfold _try_form_meld_ai. intros (p & Hp%player_Ok & Hform)%bind_Ok.
  destruct (bool_decide (2 ≤ length _)%nat) eqn:Hpung.
  - apply bool_decide_eq_true_1 in Hpung.
    apply bind_Ok in Hform as (h & Hrm & Hform).
    apply bind_Ok in Hform as (gs1 & Hdiscard%discard_after_meld_total & [= <-]).
    rewrite Hdiscard. apply (reveal_meld_total gs i p h _ _ Hp Hrm).
    by apply length_take_le.
  - destruct (bool_decide (type tile ∈ suits)); [|done].
    destruct (try_chow_tiles tile (hand p)) as [sequence_tiles|] eqn:Hchow; [|done].
    apply bind_Ok in Hform as (h & Hrm & Hform).
    apply bind_Ok in Hform as (gs1 & Hdiscard%discard_after_meld_total & [= <-]).
    rewrite Hdiscard. apply (reveal_meld_total gs i p h _ _ Hp Hrm).
    unfold try_chow_tiles in Hchow. apply head_Some_elem_of in Hchow.
    by apply list_elem_of_filter in Hchow as [? _].
Qed.

(** X21. Every meld a computer player forms, on a claim
    ([_handle_ai_claim]) or on its own draw ([_try_form_meld_ai]), adds
    one to the count |wall| + hands + 3 * melds + discards: the meld has
    three tiles and two leave the hand. *)
Theorem formed_meld_adds_tile i tile gs gs' :
  _handle_ai_claim i tile gs = Ok (true, gs')
  ∨ _try_form_meld_ai i tile gs = Ok (true, gs') →
  tile_total gs' = S (tile_total gs).
Proof.
  intros [Hclaim|Hform]; [by eapply handle_ai_claim_total|by eapply try_form_meld_total].
Qed.

Lemma formed_meld_adds_tile_witness :
  ∃ gs',
    _try_form_meld_ai 1 (Wan 1)
      (update_player 1 (set_hand [Wan 1; Wan 5; Wan 1]) (GameState.init []))
    = Ok (true, gs')
    ∧ tile_total gs'
      = S (tile_total (update_player 1 (set_hand [Wan 1; Wan 5; Wan 1]) (GameState.init []))).
Proof.
  eexists.
  match goal with
  | |- ?A ∧ _ => assert (Hform : A) by (vm_compute; reflexivity)
  end.
  split; [exact Hform|]. apply (formed_meld_adds_tile 1 (Wan 1)). right. exact Hform.
Defined.

Lemma sorted_three (a b c : Z) :
  ∃ mid, sorted Z.leb [a; b; c]
         = [Z.min a (Z.min b c); mid; Z.max a (Z.max b c)].
Proof.
  assert (Hends : ∀ x y z lo hi : Z, x = lo → z = hi → [x; y; z] = [lo; y; hi])
    by (by intros; subst).
  cbn. destruct (Z.leb_spec b c); cbn;
    repeat match goal with
           | |- context [Z.leb ?x ?y] => destruct (Z.leb_spec x y); cbn
           end;
    eexists; apply Hends; lia.
Qed.

Lemma foldl_union_spec (f : gset Tile → list Tile → gset Tile)
    (P : list Tile → Tile → Prop) :
  (∀ acc meld t, t ∈ f acc meld ↔ t ∈ acc ∨ P meld t) →
  ∀ melds acc t, t ∈ foldl f acc melds ↔ t ∈ acc ∨ ∃ meld, meld ∈ melds ∧ P meld t.
Proof.
  intros Hf. induction melds as [|meld melds IH]; intros acc t.
  { cbn. split; [auto|]. by intros [?|(? & []%elem_of_nil & _)]. }
  cbn [foldl]. rewrite IH, Hf. split.
  - intros [[?|?]|(m & Hm & ?)]; [by left|right; exists meld|right; exists m].
    + split; [left|done].
    + split; [by right|done].
  - intros [?|(m & [->|Hm]%elem_of_cons & ?)]; [by left; left|by left; right|].
    right. by exists m.
Qed.

(** X22. [_estimate_waiting_tiles] takes a seat to wait for a tile
    exactly when the seat has revealed three tiles whose highest and
    lowest ranks differ by two, and the tile has the suit of the first of
    them and the rank just below the lowest (above 1) or just above the
    highest (below 9). Three equal tiles make no one wait. *)
Theorem estimate_waiting_tiles_spec p t :
  t ∈ _estimate_waiting_tiles p
  ↔ ∃ t0 t1 t2,
      [t0; t1; t2] ∈ revealed_melds p
      ∧ type t = type t0
      ∧ Z.max (value t0) (Z.max (value t1) (value t2))
        - Z.min (value t0) (Z.min (value t1) (value t2)) = 2
      ∧ ((1 < Z.min (value t0) (Z.min (value t1) (value t2))
          ∧ value t = Z.min (value t0) (Z.min (value t1) (value t2)) - 1)
         ∨ (Z.max (value t0) (Z.max (value t1) (value t2)) < 9
            ∧ value t = Z.max (value t0) (Z.max (value t1) (value t2)) + 1)).
Proof.
  unfold _estimate_waiting_tiles.
  rewrite (foldl_union_spec _ (λ meld t,
             match meld with
             | [t0; t1; t2] =>
                 type t = type t0
                 ∧ Z.max (value t0) (Z.max (value t1) (value t2))
                   - Z.min (value t0) (Z.min (value t1) (value t2)) = 2
                 ∧ ((1 < Z.min (value t0) (Z.min (value t1) (value t2))
                     ∧ value t = Z.min (value t0) (Z.min (value t1) (value t2)) - 1)
                    ∨ (Z.max (value t0) (Z.max (value t1) (value t2)) < 9
                       ∧ value t = Z.max (value t0) (Z.max (value t1) (value t2)) + 1))
             | _ => False
             end)).
  - rewrite elem_of_empty. split.
    + intros [[]|(meld & Hmeld & Hspec)].
      destruct meld as [|t0 [|t1 [|t2 [|]]]]; try done. by exists t0, t1, t2.
    + intros (t0 & t1 & t2 & Hmeld & Hspec). right. by exists [t0; t1; t2].
  - clear t. intros acc meld t.
    destruct meld as [|t0 [|t1 [|t2 [|]]]]; try tauto.
    destruct (sorted_three (value t0) (value t1) (value t2)) as [mid Hsorted].
    cbn [fmap list_fmap]. rewrite Hsorted.
    set (lo := Z.min _ _). set (hi := Z.max _ _).
    assert (Htile : ∀ v, t = mkTile (type t0) v ↔ type t = type t0 ∧ value t = v).
    { intros v. destruct t. cbn. split; [by intros [= -> ->]|by intros [-> ->]]. }
    repeat case_bool_decide; rewrite ?elem_of_union, ?elem_of_singleton, ?Htile;
      intuition lia.
Qed.

(** The tiles [matching] holds: the copies of [tile] in the hand. *)
Lemma matching_replicate tile (h : list Tile) :
  filter (λ t, type t = type tile ∧ value t = value tile) h
  = replicate (HandScore.copies tile h) tile.
Proof.
  unfold HandScore.copies. induction h as [|t h IH]; [done|].
  rewrite !filter_cons. destruct (decide (tile = t)) as [<-|Hne].
  - rewrite decide_True by done. cbn. by rewrite IH.
  - rewrite decide_False; [done|]. intros [Hty Hv]. apply Hne. destruct tile, t.
    cbn in *. congruence.
Qed.

Lemma copies_perm tile (h h' : list Tile) :
  h ≡ₚ h' → HandScore.copies tile h = HandScore.copies tile h'.
Proof. intros Hperm. unfold HandScore.copies. by rewrite Hperm. Qed.

Lemma copies_elem_of tile (h : list Tile) : (1 ≤ HandScore.copies tile h)%nat → tile ∈ h.
Proof.
  unfold HandScore.copies. intros Hlen.
  destruct (filter (tile =.) h) as [|t k] eqn:Hf; [cbn in Hlen; lia|].
  assert (Hin : t ∈ filter (tile =.) h) by (rewrite Hf; left).
  by apply list_elem_of_filter in Hin as [<- ?].
Qed.

Lemma remove_two tile (h : list Tile) :
  (2 ≤ HandScore.copies tile h)%nat →
  ∃ h', remove_all [tile; tile] h = Ok h' ∧ h ≡ₚ tile :: tile :: h'.
Proof.
  intros Htwo.
  destruct (list_remove_elem_of tile h) as [h1 H1]; [apply copies_elem_of; lia|].
  pose proof (list_remove_perm _ _ _ H1) as Hperm1.
  assert (Hone : (1 ≤ HandScore.copies tile h1)%nat).
  { rewrite (copies_perm _ _ _ Hperm1) in Htwo. unfold HandScore.copies in *.
    rewrite filter_cons_True in Htwo by done. cbn in Htwo. lia. }
  destruct (list_remove_elem_of tile h1) as [h2 H2]; [by apply copies_elem_of|].
  pose proof (list_remove_perm _ _ _ H2) as Hperm2.
  exists h2. unfold remove_all. cbn [for_each]. rewrite H1. cbn [or_raise mbind res_bind].
  rewrite H2. split; [done|]. by rewrite Hperm1, Hperm2.
Qed.

Lemma ai_player_self (i : nat) : (1 ≤ i ≤ 3)%nat → ai_player i = Ok i.
Proof. destruct i as [|[|[|[|]]]]; (done || lia). Qed.

(** X23. A computer player at seat 1, 2 or 3 that holds two copies of
    the discarded tile and one tile more always gets its pung from
    [_handle_ai_claim]: the two copies and a discard of its choice leave
    the hand, the meld is the tile three times, the seat becomes the
    current player, and no other seat is touched. *)
Theorem pung_claim_goes_through i tile gs p :
  players gs !! i = Some p →
  (1 ≤ i ≤ 3)%nat →
  (2 ≤ HandScore.copies tile (hand p))%nat →
  (3 ≤ length (hand p))%nat →
  ∃ gs' p' d,
    _handle_ai_claim i tile gs = Ok (true, gs')
    ∧ current_player gs' = i
    ∧ last_discarded gs' = Some d
    ∧ players gs' !! i = Some p'
    ∧ revealed_melds p' = revealed_melds p ++ [[tile; tile; tile]]
    ∧ discards p' = discards p ++ [d]
    ∧ hand p ≡ₚ tile :: tile :: d :: hand p'
    ∧ ∀ j, j ≠ i → players gs' !! j = players gs !! j.
Proof.
  intros Hp Hi Htwo Hlen.
  destruct (remove_two tile (hand p) Htwo) as (h1 & Hrm1 & Hperm1).
  assert (Hform : form_claimed_meld i tile gs
                  = Ok (true, update_player i
                                (λ p, set_revealed_melds
                                        (revealed_melds p ++ [[tile; tile; tile]])
                                        (set_hand h1 p)) gs)).
  { unfold form_claimed_meld. rewrite (player_Some _ _ _ Hp). cbn [mbind res_bind].
    rewrite matching_replicate, length_replicate, bool_decide_true by done.
    rewrite take_replicate, Nat.min_l by done. cbn [replicate].
    by rewrite Hrm1. }
  set (gs1 := update_player i _ gs) in Hform.
  set (p1 := set_revealed_melds (revealed_melds p ++ [[tile; tile; tile]]) (set_hand h1 p)).
  assert (Hp1 : players gs1 !! i = Some p1)
    by (unfold gs1; cbn; by rewrite list_lookup_alter_eq, Hp).
  destruct (choose_discard_spec i gs1 p1 Hp1) as (d & h' & Hchoose & Hd & Hh').
  { apply Permutation_length in Hperm1. cbn in Hperm1. destruct h1; [cbn in *; lia|done]. }
  set (gs2 := update_player i (set_hand h') gs1) in Hchoose.
  assert (Hp2 : players gs2 !! i = Some (set_hand h' p1)) by (by apply player_update).
  destruct (list_remove_elem_of d h') as [removed Hrm]; [by rewrite Hh'|].
  set (gs3 := set_last_discarded (Some d)
                (update_player i (λ p, set_discards (discards p ++ [d]) p)
                   (update_player i (set_hand removed) gs2))).
  assert (Hcommit : commit_discard i d gs2 = Ok gs3).
  { unfold commit_discard. rewrite (player_Some _ _ _ Hp2).
    cbn [mbind res_bind hand set_hand]. by rewrite Hrm. }
  exists (set_current_player i gs3),
    (set_discards (discards p ++ [d]) (set_hand removed (set_hand h' p1))), d.
  split.
  { unfold _handle_ai_claim. rewrite Hform. cbn [mbind res_bind].
    rewrite (ai_player_self i Hi). cbn [mbind res_bind]. rewrite Hchoose.
    cbn [mbind res_bind]. by rewrite Hcommit. }
  split; [done|]. split; [done|]. split.
  { cbn. by rewrite !list_lookup_alter_eq, Hp. }
  split; [done|]. split; [done|]. split.
  - cbn [hand set_hand set_discards]. rewrite Hperm1. do 2 f_equiv.
    apply list_remove_perm in Hrm. cbn in Hh'. by rewrite <- Hh', Hrm.
  - intros j Hj. cbn. by rewrite !list_lookup_alter_ne.
Qed.

Lemma pung_claim_goes_through_witness :
  ∃ gs' p' d,
    _handle_ai_claim 2 (Wan 1)
      (update_player 2 (set_hand [Wan 1; Wan 5; Wan 1]) (GameState.init [])) = Ok (true, gs')
    ∧ current_player gs' = 2%nat
    ∧ last_discarded gs' = Some d
    ∧ players gs' !! 2%nat = Some p'
    ∧ revealed_melds p' = [] ++ [[Wan 1; Wan 1; Wan 1]]
    ∧ discards p' = [] ++ [d]
    ∧ [Wan 1; Wan 5; Wan 1] ≡ₚ Wan 1 :: Wan 1 :: d :: hand p'
    ∧ ∀ j, j ≠ 2%nat →
           players gs' !! j
           = players (update_player 2 (set_hand [Wan 1; Wan 5; Wan 1]) (GameState.init [])) !! j.
Proof.
  apply (pung_claim_goes_through 2 (Wan 1) _ (set_hand [Wan 1; Wan 5; Wan 1]
                                                GameState.PlayerState_init)).
  - reflexivity.
  - lia.
  - vm_compute. lia.
  - vm_compute. lia.
Defined.

(** X25. [_calculate_danger_level] is the number of the seats 1, 2 and 3
    that [_estimate_waiting_tiles] takes to wait for the tile: a number
    from 0 to 3, and 0 while none of them has revealed a meld. *)
Theorem danger_level_counts tile gs p1 p2 p3 :
  players gs !! 1%nat = Some p1 →
  players gs !! 2%nat = Some p2 →
  players gs !! 3%nat = Some p3 →
  ∃ d, _calculate_danger_level tile gs = Ok d
       ∧ d = Z.of_nat (length (filter (λ p, tile ∈ _estimate_waiting_tiles p) [p1; p2; p3]))
       ∧ 0 ≤ d ≤ 3
       ∧ (revealed_melds p1 = [] → revealed_melds p2 = [] → revealed_melds p3 = [] → d = 0).
Proof.
  intros H1 H2 H3. unfold _calculate_danger_level. cbn [seq for_each].
  rewrite (player_Some _ _ _ H1). cbn [mbind res_bind].
  assert (Hstep : ∀ (d : Z) p (k : Z → res Z),
            ((if bool_decide (tile ∈ _estimate_waiting_tiles p) then mret (d + 1) else mret d)
               ≫= k)
            = k (d + Z.of_nat (length (filter (λ p, tile ∈ _estimate_waiting_tiles p) [p])))).
  { intros d p k. rewrite filter_cons, filter_nil. case_bool_decide.
    - by rewrite decide_True.
    - rewrite decide_False by done. cbn. by rewrite Z.add_0_r. }
  rewrite Hstep, (player_Some _ _ _ H2). cbn [mbind res_bind].
  rewrite Hstep, (player_Some _ _ _ H3). cbn [mbind res_bind].
  rewrite Hstep. eexists. split; [reflexivity|].
  assert (Hnone : ∀ p, revealed_melds p = [] → _estimate_waiting_tiles p = ∅).
  { intros p Hp. unfold _estimate_waiting_tiles. by rewrite Hp. }
  rewrite !filter_cons, filter_nil. split; [|split].
  - repeat case_decide; cbn; lia.
  - repeat case_decide; cbn; lia.
  - intros Hp1 Hp2 Hp3. rewrite (Hnone p1), (Hnone p2), (Hnone p3) by done.
    rewrite !decide_False by apply not_elem_of_empty. done.
Qed.

Lemma danger_level_counts_witness :
  ∃ d, _calculate_danger_level (Wan 1) first_draw = Ok d ∧ d = 0.
Proof.
  edestruct (danger_level_counts (Wan 1) first_draw) as (d & Hd & _ & _ & Hzero);
    [vm_compute; reflexivity..|].
  exists d. split; [exact Hd|]. by apply Hzero.
Defined.

End interactive.

(** ** The deal *)

Section dealing.
Import MahjongLogic MahjongGame.

(** The state after the deal. *)
Lemma deal_state (wall : list Tile) :
  GameState.deal_initial_hands (GameState.init wall)
  = Ok (mkGameState (drop 52 wall)
          ((λ k, mkPlayerState (sorted_tiles (take 13 (drop k wall))) [] [] false)
             <$> [0; 13; 26; 39]%nat)
          0 None [] false (3 * 9 * 4)).
Proof. reflexivity. Qed.

(** X24. [deal_initial_hands] never fails, whatever the length of the
    wall: the four hands are the first four slices of 13 tiles, each
    sorted, the wall keeps what lies past the first 52 tiles, and no
    tile is lost or made. With 52 tiles or more every hand has 13. *)
Theorem deal_any_wall (wall : list Tile) :
  ∃ gs, GameState.deal_initial_hands (GameState.init wall) = Ok gs
    ∧ wall_tiles gs = drop 52 wall
    ∧ all_tiles gs ≡ₚ wall
    ∧ Forall (λ p, StronglySorted (λ a b, tile_leb a b = true) (hand p)
                   ∧ (length (hand p) ≤ 13)%nat) (players gs)
    ∧ ((52 ≤ length wall)%nat → Forall (λ p, length (hand p) = 13%nat) (players gs)).
Proof.
  eexists. split; [apply deal_state|]. split; [done|].
  cbn [players wall_tiles fmap list_fmap]. split; [|split].
  - unfold all_tiles, player_tiles.
    cbn [wall_tiles players mbind list_bind hand discards revealed_melds concat app].
    rewrite !app_nil_r. unfold sorted_tiles. rewrite !sorted_perm, drop_0.
    rewrite (split_deal wall) at 6.
    rewrite (Permutation_app_comm (drop 52 wall)). by rewrite <- !app_assoc.
  - repeat (apply Forall_cons; split;
            [cbn [hand]; split;
             [apply sorted_tiles_sorted
             |unfold sorted_tiles; rewrite sorted_length, length_take; lia]|]).
    apply Forall_nil_2.
  - intros Hlen.
    repeat (apply Forall_cons; split;
            [cbn [hand]; unfold sorted_tiles;
             rewrite sorted_length, length_take, length_drop; lia|]).
    apply Forall_nil_2.
Qed.

Lemma deal_any_wall_witness :
  Forall (λ p, length (hand p) = 13%nat) (players strided_deal).
Proof.
  destruct (deal_any_wall strided_wall) as (gs & Hdeal & _ & _ & _ & Hfull).
  assert (gs = strided_deal) as <-.
  { unfold strided_deal. by rewrite Hdeal. }
  apply Hfull. vm_compute. lia.
Defined.

Lemma is_winning_hand_pair_witness :
  ∃ t rest,
    [Tiao 2; Tong 1; Wan 1; Wan 2; Wan 3; Tong 1; Wan 4; Wan 5; Wan 6;
     Tong 1; Wan 7; Wan 8; Wan 9; Tiao 2] ≡ₚ t :: t :: rest
    ∧ StronglySorted (λ a b, tile_leb a b = true) rest
    ∧ can_form_melds rest = true.
Proof.
  apply (is_winning_hand_pair
           [Tiao 2; Tong 1; Wan 1; Wan 2; Wan 3; Tong 1; Wan 4; Wan 5; Wan 6;
            Tong 1; Wan 7; Wan 8; Wan 9; Tiao 2]).
  vm_compute. reflexivity.
Defined.

Lemma ai_claim_completes_meld_witness :
  MahjongAgent._would_complete_meld 1
    (Some (update_player 1 (set_hand [Wan 3; Tong 7; Wan 2]) (GameState.init [])))
    (Wan 1)
  = Ok true.
Proof. apply ai_claim_completes_meld. vm_compute. reflexivity. Defined.

Lemma claim_has_one_candidate_witness :
  ∃ gs seat discard gs_d,
    after_turns 10 strided_deal = Ok (Continue gs)
    ∧ draw_and_discard gs = Ok (Discarded seat discard gs_d)
    ∧ _can_claim_tile 0 discard gs_d = Ok true.
Proof.
  do 4 eexists.
  match goal with
  | |- ?A ∧ _ => assert (Hturns : A) by (vm_compute; reflexivity)
  end.
  split; [exact Hturns|].
  match goal with
  | |- ?A ∧ _ => assert (Hphase : A) by (vm_compute; reflexivity)
  end.
  split; [exact Hphase|].
  match goal with
  | |- ?A => assert (Hclaim : A) by (vm_compute; reflexivity)
  end.
  pose proof (reachable_invariant _ strided_deal_reachable) as Hinv.
  destruct (after_turns_spec 10 _ _ Hinv eq_refl Hturns) as (_ & _ & _ & Hreach).
  pose proof (claim_has_one_candidate _ _ _ _ 0 0 (Hreach strided_deal_reachable)
                Hphase Hclaim Hclaim) as _.
  exact Hclaim.
Defined.

End dealing.

Section winning_probability.
Import MahjongAgent InteractiveMahjongGame.




End winning_probability.

(** ** Examples *)

Section further_examples.
Import MahjongLogic InteractiveMahjongGame.

Lemma can_form_melds_groups_witness :
  can_form_melds [Wan 1; Wan 1; Wan 1; Tong 4; Tong 6; Tong 5] = true.
Proof.
  apply can_form_melds_groups.
  exists [[Wan 1; Wan 1; Wan 1]; [Tong 4; Tong 6; Tong 5]]. split; [done|].
  constructor; [exists (Wan 1), (Wan 1), (Wan 1); split; [done|by left]|].
  constructor; [exists (Tong 4), (Tong 6), (Tong 5); split; [done|right; by cbn]|].
  constructor.
Defined.

Lemma evaluate_waiting_tiles_complete_witness :
  Tiao 2 ∈ evaluate_waiting_tiles
             [Tiao 2; Tong 1; Tong 1; Tong 1; Wan 1; Wan 2; Wan 3; Wan 4; Wan 5; Wan 6;
              Wan 7; Wan 8; Wan 9].
Proof.
  apply evaluate_waiting_tiles_complete. split; [cbn; lia|]. vm_compute. reflexivity.
Defined.

Lemma possible_melds_cover_witness :
  can_form_melds [Wan 1; Wan 1; Wan 1; Tong 4; Tong 6; Tong 5] = true.
Proof.
  apply (proj2 (possible_melds_cover [Wan 1; Wan 1; Wan 1; Tong 4; Tong 6; Tong 5])).
  reflexivity.
Defined.

Lemma estimate_waiting_tiles_spec_witness :
  Wan 4 ∈ _estimate_waiting_tiles
            (set_revealed_melds [[Wan 2; Wan 1; Wan 3]] GameState.PlayerState_init).
Proof.
  apply estimate_waiting_tiles_spec. exists (Wan 2), (Wan 1), (Wan 3).
  split; [left|]. cbn. split; [done|]. split; [lia|]. right. lia.
Defined.

End further_examples.
